(** * Fleet orchestration: dispatcher, job orchestrator and vehicle simulator

    A shallow embedding of the Go services of the repository
    (fleet-service, job-service, car-simulator) together with the
    properties their specification states about them.

    Number model.  Go's [float64] is idealised as the real numbers [R] of
    the Standard Library: arithmetic is exact, there is no NaN, no
    infinity and no signed zero.  [time.Duration] (an [int64] count of
    nanoseconds) and clock readings are integers [Z].  Strings are
    [string], Go maps are [gmap]s, a nil-able pointer to a string or a
    time is an [option].

    State and environment.  A method with a pointer receiver is a
    function from the state before to the state after.  The in-memory
    storages hold pointers to their objects, each under the object's own
    id, so an object is identified with its map entry.  What the outside
    world decides enters as an argument: the reading of the clock, the
    order in which a [range] loop visits a map, the numbers drawn from
    [math/rand], the answers of the routing server and of the other
    services, the [DEMO_SPEED] setting.  Logging is left out. *)

From Stdlib Require Import Reals Lra Lia ZArith List.
From stdpp Require Import gmap strings pretty list fin_maps.

#[local] Open Scope R_scope.

(** ** Go runtime pieces used by the services *)

Module Go.

(** A Go result pair [(T, error)]: either a value and a nil error, or an
    error carrying its message. *)
Inductive result (A : Type) : Type :=
| Ok (a : A)
| Err (msg : string).
Arguments Ok {A} a.
Arguments Err {A} msg.

(** [math.MaxFloat64] = 2^1023 * (2 - 2^-52) = 2^1024 - 2^971. *)
Definition MaxFloat64_Z : Z := Eval vm_compute in (2 ^ 1024 - 2 ^ 971)%Z.
Definition MaxFloat64 : R := IZR MaxFloat64_Z.

(** [math.Max] on two numbers. *)
Definition Max (x y : R) : R := Rmax x y.

(** [math.Atan2(y, x)], following the case analysis of the Go runtime:
    the zero cases first, then [Atan(y/x)] moved to the right quadrant. *)
Definition Atan2 (y x : R) : R :=
  if Req_dec_T y 0 then (if Rle_dec 0 x then 0 else PI)
  else if Req_dec_T x 0 then (if Rlt_dec 0 y then PI / 2 else - (PI / 2))
  else
    let q := atan (y / x) in
    if Rlt_dec x 0 then (if Rle_dec q 0 then q + PI else q - PI) else q.

End Go.

(** ** Geo utilities *)

Module Geo.

(** fleet-service/internal/service/fleet.go, [calculateDistance]
    (job-service carries a textually identical copy). *)
Definition calculateDistance (lat1 lng1 lat2 lng2 : R) : R :=
  let earthRadius := 6371 in
  let lat1Rad := lat1 * PI / 180 in
  let lng1Rad := lng1 * PI / 180 in
  let lat2Rad := lat2 * PI / 180 in
  let lng2Rad := lng2 * PI / 180 in
  let dlat := lat2Rad - lat1Rad in
  let dlng := lng2Rad - lng1Rad in
  let a := sin (dlat / 2) * sin (dlat / 2)
           + cos lat1Rad * cos lat2Rad * sin (dlng / 2) * sin (dlng / 2) in
  let c := 2 * Go.Atan2 (sqrt a) (sqrt (1 - a)) in
  earthRadius * c.

(** car-simulator/internal/simulator, [haversineDistance]. *)
Definition haversineDistance (lat1 lng1 lat2 lng2 : R) : R :=
  let R0 := 6371 in
  let dLat := (lat2 - lat1) * (PI / 180) in
  let dLng := (lng2 - lng1) * (PI / 180) in
  let a := sin (dLat / 2) * sin (dLat / 2)
           + cos (lat1 * (PI / 180)) * cos (lat2 * (PI / 180))
             * sin (dLng / 2) * sin (dLng / 2) in
  let c := 2 * Go.Atan2 (sqrt a) (sqrt (1 - a)) in
  R0 * c.

End Geo.

(** ** Fleet directory: vehicle records and the in-memory storage *)

Module FleetStorage.

(** fleet-service/internal/storage, [type Vehicle struct]. *)
Record Vehicle : Type := mkVehicle {
  ID : string;
  Region : string;
  Status : string;              (* available, busy, charging, maintenance *)
  BatteryLevel : Z;
  BatteryRangeKm : R;
  LocationLat : R;
  LocationLng : R;
  CurrentJobID : option string;
  LastUpdated : Z;
  VehicleType : string
}.

Definition set_LastUpdated (t : Z) (v : Vehicle) : Vehicle :=
  mkVehicle (ID v) (Region v) (Status v) (BatteryLevel v) (BatteryRangeKm v)
    (LocationLat v) (LocationLng v) (CurrentJobID v) t (VehicleType v).

Definition set_Status (s : string) (v : Vehicle) : Vehicle :=
  mkVehicle (ID v) (Region v) s (BatteryLevel v) (BatteryRangeKm v)
    (LocationLat v) (LocationLng v) (CurrentJobID v) (LastUpdated v)
    (VehicleType v).

Definition set_CurrentJobID (j : option string) (v : Vehicle) : Vehicle :=
  mkVehicle (ID v) (Region v) (Status v) (BatteryLevel v) (BatteryRangeKm v)
    (LocationLat v) (LocationLng v) j (LastUpdated v) (VehicleType v).

Definition set_Location (lat lng : R) (v : Vehicle) : Vehicle :=
  mkVehicle (ID v) (Region v) (Status v) (BatteryLevel v) (BatteryRangeKm v)
    lat lng (CurrentJobID v) (LastUpdated v) (VehicleType v).

(** [MemoryVehicleStorage]: the map from vehicle id to the vehicle object.
    The mutex only serialises the operations; each one is modelled as an
    atomic state transformer.  [now] stands for the reading of
    [time.Now()] taken by the operation. *)
Abbreviation MemoryVehicleStorage := (gmap string Vehicle).

Definition NewMemoryVehicleStorage : MemoryVehicleStorage := ∅.

Definition CreateVehicle (now : Z) (m : MemoryVehicleStorage) (vehicle : Vehicle)
  : MemoryVehicleStorage * option string :=
  match m !! ID vehicle with
  | Some _ => (m, Some ("vehicle " +:+ ID vehicle +:+ " already exists")%string)
  | None => (<[ID vehicle := set_LastUpdated now vehicle]> m, None)
  end.

Definition GetVehicle (m : MemoryVehicleStorage) (vehicleID : string)
  : Go.result Vehicle :=
  match m !! vehicleID with
  | None => Go.Err ("vehicle " +:+ vehicleID +:+ " not found")%string
  | Some vehicle => Go.Ok vehicle
  end.

Definition UpdateVehicle (now : Z) (m : MemoryVehicleStorage) (vehicle : Vehicle)
  : MemoryVehicleStorage * option string :=
  match m !! ID vehicle with
  | None => (m, Some ("vehicle " +:+ ID vehicle +:+ " not found")%string)
  | Some _ => (<[ID vehicle := set_LastUpdated now vehicle]> m, None)
  end.

Definition UpdateVehicleLocationAndStatus (now : Z) (m : MemoryVehicleStorage)
    (vehicleID : string) (lat lng : R) (status : string)
  : MemoryVehicleStorage * option string :=
  match m !! vehicleID with
  | None => (m, Some ("vehicle " +:+ vehicleID +:+ " not found")%string)
  | Some vehicle =>
      (<[vehicleID :=
           set_LastUpdated now (set_Status status (set_Location lat lng vehicle))]> m,
       None)
  end.

Definition UpdateVehicleLocation (now : Z) (m : MemoryVehicleStorage)
    (vehicleID : string) (lat lng : R)
  : MemoryVehicleStorage * option string :=
  match m !! vehicleID with
  | None => (m, Some ("vehicle " +:+ vehicleID +:+ " not found")%string)
  | Some vehicle =>
      (<[vehicleID := set_LastUpdated now (set_Location lat lng vehicle)]> m, None)
  end.

Definition UpdateVehicleStatus (now : Z) (m : MemoryVehicleStorage)
    (vehicleID : string) (status : string) (jobID : option string)
  : MemoryVehicleStorage * option string :=
  match m !! vehicleID with
  | None => (m, Some ("vehicle " +:+ vehicleID +:+ " not found")%string)
  | Some vehicle =>
      (<[vehicleID :=
           set_LastUpdated now (set_CurrentJobID jobID (set_Status status vehicle))]> m,
       None)
  end.

Section Range.

(** Go leaves the iteration order of [for _, vehicle := range m.vehicles]
    unspecified.  [range_of m] is the sequence of vehicles one such loop
    visits; the only thing known about it is [range_of_spec]. *)
Variable range_of : MemoryVehicleStorage -> list Vehicle.

Definition range_of_spec : Prop :=
  forall m : MemoryVehicleStorage, range_of m ≡ₚ (map_to_list m).*2.

Definition GetVehiclesByRegionAndStatus (m : MemoryVehicleStorage)
    (region status : string) : Go.result (list Vehicle) :=
  Go.Ok (filter (fun vehicle => Region vehicle = region /\ Status vehicle = status)
           (range_of m)).

Definition GetAllVehicles (m : MemoryVehicleStorage) : Go.result (list Vehicle) :=
  Go.Ok (range_of m).

End Range.

End FleetStorage.

(** ** Dispatcher and fleet service *)

Module FleetSvc.

Import FleetStorage.

Definition RegisterVehicle := CreateVehicle.

(** [AssignJob]: the vehicle becomes busy with the job. *)
Definition AssignJob (now : Z) (m : MemoryVehicleStorage) (vehicleID jobID : string)
  : MemoryVehicleStorage * option string :=
  UpdateVehicleStatus now m vehicleID "busy" (Some jobID).

(** [CompleteJob]: the vehicle is available again and holds no job. *)
Definition CompleteJob (now : Z) (m : MemoryVehicleStorage) (vehicleID : string)
  : MemoryVehicleStorage * option string :=
  UpdateVehicleStatus now m vehicleID "available" None.

(** One iteration of the loop of [FindNearestAvailableVehicle]; the loop
    state is the pair [(bestVehicle, minDistance)]. *)
Definition nearest_step (pickupLat pickupLng tripDistanceKm : R)
    (acc : option Vehicle * R) (vehicle : Vehicle) : option Vehicle * R :=
  let distanceToPickup :=
    Geo.calculateDistance (LocationLat vehicle) (LocationLng vehicle)
      pickupLat pickupLng in
  let totalDistance := (distanceToPickup + tripDistanceKm) * 1.2 in
  if Rlt_dec (BatteryRangeKm vehicle) totalDistance then acc
  else if Rlt_dec distanceToPickup (snd acc) then (Some vehicle, distanceToPickup)
  else acc.

Section Range.

Variable range_of : MemoryVehicleStorage -> list Vehicle.

Definition FindNearestAvailableVehicle (m : MemoryVehicleStorage)
    (region : string) (pickupLat pickupLng tripDistanceKm : R)
  : Go.result Vehicle :=
  match GetVehiclesByRegionAndStatus range_of m region "available" with
  | Go.Err err => Go.Err err
  | Go.Ok vehicles =>
      let '(bestVehicle, _) :=
        fold_left (nearest_step pickupLat pickupLng tripDistanceKm)
          vehicles (None, Go.MaxFloat64) in
      match bestVehicle with
      | None =>
          Go.Err "no available vehicle found with sufficient battery for trip"
      | Some vehicle => Go.Ok vehicle
      end
  end.

End Range.

End FleetSvc.

(** ** Job ledger: job records and the in-memory storage *)

Module JobStorage.

(** job-service/internal/storage, [type DeliveryDetails struct]. *)
Record DeliveryDetails : Type := mkDeliveryDetails {
  RestaurantName : string;
  Items : list string;
  Instructions : string
}.

(** job-service/internal/storage, [type Job struct]. *)
Record Job : Type := mkJob {
  ID : string;
  JobType : string;
  Status : string;
  AssignedVehicleID : option string;
  PickupLat : R;
  PickupLng : R;
  DestinationLat : R;
  DestinationLng : R;
  EstimatedDistanceKm : R;
  CreatedAt : Z;
  AssignedAt : option Z;
  CompletedAt : option Z;
  CustomerID : string;
  Region : string;
  Details : option DeliveryDetails;
  FareAmount : R;
  BaseFare : R;
  DistanceFare : R
}.

Definition set_Status (s : string) (j : Job) : Job :=
  mkJob (ID j) (JobType j) s (AssignedVehicleID j) (PickupLat j) (PickupLng j)
    (DestinationLat j) (DestinationLng j) (EstimatedDistanceKm j) (CreatedAt j)
    (AssignedAt j) (CompletedAt j) (CustomerID j) (Region j) (Details j)
    (FareAmount j) (BaseFare j) (DistanceFare j).

Definition set_AssignedVehicleID (v : option string) (j : Job) : Job :=
  mkJob (ID j) (JobType j) (Status j) v (PickupLat j) (PickupLng j)
    (DestinationLat j) (DestinationLng j) (EstimatedDistanceKm j) (CreatedAt j)
    (AssignedAt j) (CompletedAt j) (CustomerID j) (Region j) (Details j)
    (FareAmount j) (BaseFare j) (DistanceFare j).

Definition set_CreatedAt (t : Z) (j : Job) : Job :=
  mkJob (ID j) (JobType j) (Status j) (AssignedVehicleID j) (PickupLat j)
    (PickupLng j) (DestinationLat j) (DestinationLng j) (EstimatedDistanceKm j) t
    (AssignedAt j) (CompletedAt j) (CustomerID j) (Region j) (Details j)
    (FareAmount j) (BaseFare j) (DistanceFare j).

Definition set_AssignedAt (t : option Z) (j : Job) : Job :=
  mkJob (ID j) (JobType j) (Status j) (AssignedVehicleID j) (PickupLat j)
    (PickupLng j) (DestinationLat j) (DestinationLng j) (EstimatedDistanceKm j)
    (CreatedAt j) t (CompletedAt j) (CustomerID j) (Region j) (Details j)
    (FareAmount j) (BaseFare j) (DistanceFare j).

Definition set_CompletedAt (t : option Z) (j : Job) : Job :=
  mkJob (ID j) (JobType j) (Status j) (AssignedVehicleID j) (PickupLat j)
    (PickupLng j) (DestinationLat j) (DestinationLng j) (EstimatedDistanceKm j)
    (CreatedAt j) (AssignedAt j) t (CustomerID j) (Region j) (Details j)
    (FareAmount j) (BaseFare j) (DistanceFare j).

Definition set_Fares (fare base dist : R) (j : Job) : Job :=
  mkJob (ID j) (JobType j) (Status j) (AssignedVehicleID j) (PickupLat j)
    (PickupLng j) (DestinationLat j) (DestinationLng j) (EstimatedDistanceKm j)
    (CreatedAt j) (AssignedAt j) (CompletedAt j) (CustomerID j) (Region j)
    (Details j) fare base dist.

(** [MemoryJobStorage]: the map from job id to the job object.  The map
    holds pointers, and every job object it holds sits under its own id,
    so an object is identified with its map entry. *)
Abbreviation MemoryJobStorage := (gmap string Job).

Definition NewMemoryJobStorage : MemoryJobStorage := ∅.

(** The content of the object behind a [*Job] that the map holds as well:
    the storage writes through the map, the caller reads through its own
    pointer, and both see the same object. *)
Definition through (m : MemoryJobStorage) (job : Job) : Job :=
  default job (m !! ID job).

Definition CreateJob (now : Z) (m : MemoryJobStorage) (job : Job)
  : MemoryJobStorage * option string :=
  match m !! ID job with
  | Some _ => (m, Some ("job " +:+ ID job +:+ " already exists")%string)
  | None => (<[ID job := set_CreatedAt now job]> m, None)
  end.

Definition GetJob (m : MemoryJobStorage) (jobID : string) : Go.result Job :=
  match m !! jobID with
  | None => Go.Err ("job " +:+ jobID +:+ " not found")%string
  | Some job => Go.Ok job
  end.

(** The [switch status] of [UpdateJobStatus] that stamps the timestamps. *)
Definition stamp (now : Z) (status : string) (job : Job) : Job :=
  if decide (status = "assigned") then set_AssignedAt (Some now) job
  else if decide (status = "completed") then set_CompletedAt (Some now) job
  else job.

Definition UpdateJobStatus (now : Z) (m : MemoryJobStorage)
    (jobID status : string) (vehicleID : option string)
  : MemoryJobStorage * option string :=
  match m !! jobID with
  | None => (m, Some ("job " +:+ jobID +:+ " not found")%string)
  | Some job =>
      (<[jobID :=
           stamp now status (set_AssignedVehicleID vehicleID (set_Status status job))]> m,
       None)
  end.

Definition UpdateJob (m : MemoryJobStorage) (job : Job)
  : MemoryJobStorage * option string :=
  match m !! ID job with
  | None => (m, Some ("job " +:+ ID job +:+ " not found")%string)
  | Some _ => (<[ID job := job]> m, None)
  end.

Section Range.

(** [range_of m] is the sequence of jobs a [for _, job := range m.jobs]
    loop visits; Go leaves the order unspecified, and the only thing known
    about it is [range_of_spec]. *)
Variable range_of : MemoryJobStorage -> list Job.

Definition range_of_spec : Prop :=
  forall m : MemoryJobStorage, range_of m ≡ₚ (map_to_list m).*2.

Definition GetJobsByStatus (m : MemoryJobStorage) (status : string)
  : Go.result (list Job) :=
  Go.Ok (filter (fun job => Status job = status) (range_of m)).

Definition GetJobsByVehicle (m : MemoryJobStorage) (vehicleID : string)
  : Go.result (list Job) :=
  Go.Ok (filter (fun job => AssignedVehicleID job = Some vehicleID) (range_of m)).

Definition GetAllJobs (m : MemoryJobStorage) : Go.result (list Job) :=
  Go.Ok (range_of m).

End Range.

End JobStorage.

(** ** Job orchestrator *)

Module JobSvc.

Import JobStorage.

(** job-service/internal/service/pricing.go. *)
Record PricingConfig : Type := mkPricingConfig {
  RideBaseFare : R;
  RidePerKm : R;
  DeliveryFlatRate : R
}.

Definition DefaultPricingConfig : PricingConfig :=
  mkPricingConfig 2.50 1.80 8.99.

Definition CalculateFare (p : PricingConfig) (job : Job) : Job :=
  if decide (JobType job = "ride") then
    let base := RideBaseFare p in
    let dist := EstimatedDistanceKm job * RidePerKm p in
    set_Fares (base + dist) base dist job
  else
    let base := DeliveryFlatRate p in
    set_Fares base base 0 job.

(** job-service/internal/fleet, [type Vehicle struct]: the vehicle as the
    fleet service reports it to the job service. *)
Record FleetVehicle : Type := mkFleetVehicle {
  vID : string;
  vRegion : string;
  vStatus : string;
  vBatteryLevel : Z;
  vBatteryRangeKm : R;
  vLocationLat : R;
  vLocationLng : R;
  vCurrentJobID : option string;
  vVehicleType : string
}.

(** job-service/internal/fleet, [type FleetClient interface], over the
    state [F] of whatever stands behind the client.  [FindNearestVehicle]
    only reads; [AssignJob] returns the state it leaves behind together
    with its error.  ([GetAllVehicles] serves the demo generator only and
    is left out.) *)
Class FleetClient (F : Type) : Type := {
  FindNearestVehicle : F -> string -> R -> R -> R -> Go.result FleetVehicle;
  AssignJob : F -> string -> string -> F * option string
}.

(** One record sent to the event stream: event type and job snapshot. *)
Definition JobEvent : Type := (string * Job)%type.

(** [type JobService struct], together with the package-level
    [jobCounter].  [streamer] is [None] for a nil streamer, otherwise the
    events sent so far. *)
Record JobService (F : Type) : Type := mkJobService {
  storage : MemoryJobStorage;
  fleet : F;
  pricing : PricingConfig;
  streamer : option (list JobEvent);
  jobCounter : Z
}.
Arguments mkJobService {F}.
Arguments storage {F}.
Arguments fleet {F}.
Arguments pricing {F}.
Arguments streamer {F}.
Arguments jobCounter {F}.

Definition NewJobService {F} (st : MemoryJobStorage) (fl : F) (counter : Z)
  : JobService F :=
  mkJobService st fl DefaultPricingConfig None counter.

Definition with_storage {F} (m : MemoryJobStorage) (j : JobService F) : JobService F :=
  mkJobService m (fleet j) (pricing j) (streamer j) (jobCounter j).

Definition with_fleet {F} (fl : F) (j : JobService F) : JobService F :=
  mkJobService (storage j) fl (pricing j) (streamer j) (jobCounter j).

Definition with_streamer {F} (s : option (list JobEvent)) (j : JobService F)
  : JobService F :=
  mkJobService (storage j) (fleet j) (pricing j) s (jobCounter j).

Definition with_jobCounter {F} (c : Z) (j : JobService F) : JobService F :=
  mkJobService (storage j) (fleet j) (pricing j) (streamer j) c.

(** [int64] arithmetic wraps around. *)
Definition wrap64 (z : Z) : Z :=
  ((z + 2 ^ 63) mod 2 ^ 64 - 2 ^ 63)%Z.

(** [generateJobID]: [jobCounter++; return jobCounter]. *)
Definition generateJobID {F} (j : JobService F) : Z * JobService F :=
  let c := wrap64 (jobCounter j + 1) in (c, with_jobCounter c j).

(** [j.streamer.StreamJobEvent(eventType, job)] behind its nil check. *)
Definition StreamJobEvent {F} (eventType : string) (job : Job) (j : JobService F)
  : JobService F :=
  match streamer j with
  | None => j
  | Some sent => with_streamer (Some (sent ++ [(eventType, job)])) j
  end.

Section Service.

Context {F : Type} {client : FleetClient F}.

(** [assignJob].  [job] is the content of the job object when the call
    starts; the object itself is the entry of the storage map under
    [ID job], so the writes made through the pointer go to that entry. *)
Definition assignJob (now : Z) (j : JobService F) (job : Job)
  : JobService F * option string :=
  match FindNearestVehicle (fleet j) (Region job) (PickupLat job) (PickupLng job)
          (EstimatedDistanceKm job) with
  | Go.Err err => (j, Some ("no available vehicle found: " +:+ err)%string)
  | Go.Ok vehicle =>
      match AssignJob (fleet j) (vID vehicle) (ID job) with
      | (fl, Some err) =>
          (with_fleet fl j, Some ("failed to assign job to vehicle: " +:+ err)%string)
      | (fl, None) =>
          let j1 := with_fleet fl j in
          match UpdateJobStatus now (storage j1) (ID job) "assigned"
                  (Some (vID vehicle)) with
          | (_, Some err) =>
              (j1, Some ("failed to update job status: " +:+ err)%string)
          | (m, None) =>
              let j2 := with_storage m j1 in
              match streamer j2 with
              | None => (j2, None)
              | Some _ =>
                  let m' :=
                    alter (fun o => set_Status "assigned"
                                      (set_AssignedVehicleID (Some (vID vehicle)) o))
                      (ID job) m in
                  let j3 := with_storage m' j2 in
                  (StreamJobEvent "assigned" (through m' job) j3, None)
              end
          end
      end
  end.

(** [CreateRideJob].  The job object is built and priced, persisted,
    announced, and an assignment is attempted; whatever the attempt did,
    the object is handed back without an error.  The result carries the
    content of the object at the time of the return. *)
Definition CreateRideJob (now : Z) (j : JobService F) (customerID region : string)
    (pickupLat pickupLng destLat destLng : R) : JobService F * Go.result Job :=
  let '(n, j) := generateJobID j in
  let jobID := ("ride-" +:+ pretty n)%string in
  let job :=
    mkJob jobID "ride" "pending" None pickupLat pickupLng destLat destLng
      (Geo.calculateDistance pickupLat pickupLng destLat destLng)
      now None None customerID region None 0 0 0 in
  let job := CalculateFare (pricing j) job in
  match CreateJob now (storage j) job with
  | (_, Some err) => (j, Go.Err err)
  | (m, None) =>
      let j := with_storage m j in
      let job := through m job in
      let j := StreamJobEvent "created" job j in
      let '(j, _) := assignJob now j job in
      (j, Go.Ok (through (storage j) job))
  end.

(** [CreateDeliveryJob]: the same steps for a delivery. *)
Definition CreateDeliveryJob (now : Z) (j : JobService F) (customerID region : string)
    (pickupLat pickupLng destLat destLng : R) (details : option DeliveryDetails)
  : JobService F * Go.result Job :=
  let '(n, j) := generateJobID j in
  let jobID := ("delivery-" +:+ pretty n)%string in
  let job :=
    mkJob jobID "delivery" "pending" None pickupLat pickupLng destLat destLng
      (Geo.calculateDistance pickupLat pickupLng destLat destLng)
      now None None customerID region details 0 0 0 in
  let job := CalculateFare (pricing j) job in
  match CreateJob now (storage j) job with
  | (_, Some err) => (j, Go.Err err)
  | (m, None) =>
      let j := with_storage m j in
      let job := through m job in
      let j := StreamJobEvent "created" job j in
      let '(j, _) := assignJob now j job in
      (j, Go.Ok (through (storage j) job))
  end.

(** [CompleteJob]. *)
Definition CompleteJob (now : Z) (j : JobService F) (jobID : string)
  : JobService F * option string :=
  match GetJob (storage j) jobID with
  | Go.Err err => (j, Some err)
  | Go.Ok job =>
      if decide (Status job <> "assigned" /\ Status job <> "in_progress") then
        (j, Some ("job " +:+ jobID +:+ " is not in progress, current status: "
                  +:+ Status job)%string)
      else
        match UpdateJobStatus now (storage j) jobID "completed"
                (AssignedVehicleID job) with
        | (_, Some err) => (j, Some err)
        | (m, None) =>
            let j1 := with_storage m j in
            match streamer j1 with
            | None => (j1, None)
            | Some _ =>
                let m' := alter (set_Status "completed") jobID m in
                let j2 := with_storage m' j1 in
                (StreamJobEvent "completed" (through m' job) j2, None)
            end
        end
  end.

End Service.

(** What [GetRevenue] returns: the entries of its map, by key. *)
Record Revenue : Type := mkRevenue {
  total_revenue : R;
  ride_revenue : R;
  delivery_revenue : R;
  completed_jobs : Z;
  ride_count : Z;
  delivery_count : Z;
  avg_ride_fare : R;
  avg_delivery_fare : R
}.

(** The running sums of the loop of [GetRevenue]: [totalRevenue],
    [rideRevenue], [deliveryRevenue], [completedJobs], [rideCount],
    [deliveryCount]. *)
Record Sums : Type := mkSums {
  totalRevenue : R;
  rideRevenue : R;
  deliveryRevenue : R;
  completedJobs : Z;
  rideCount : Z;
  deliveryCount : Z
}.

(** One iteration of the loop of [GetRevenue]. *)
Definition revenue_step (acc : Sums) (job : Job) : Sums :=
  if decide (Status job = "completed") then
    if decide (JobType job = "ride") then
      mkSums (totalRevenue acc + FareAmount job) (rideRevenue acc + FareAmount job)
        (deliveryRevenue acc) (completedJobs acc + 1) (rideCount acc + 1)
        (deliveryCount acc)
    else
      mkSums (totalRevenue acc + FareAmount job) (rideRevenue acc)
        (deliveryRevenue acc + FareAmount job) (completedJobs acc + 1)
        (rideCount acc) (deliveryCount acc + 1)
  else acc.

(** One iteration of the loop of [GetActiveJobCount]. *)
Definition active_step (activeCount : Z) (job : Job) : Z :=
  if decide (Status job = "pending" \/ Status job = "assigned")
  then (activeCount + 1)%Z else activeCount.

Section Ledger.

Context {F : Type} {client : FleetClient F}.

(** The order in which the job storage is ranged over. *)
Variable range_of : MemoryJobStorage -> list Job.

(** [ProcessPendingJobs]: every pending job gets one assignment attempt;
    a failed attempt is printed and the sweep goes on.  Each [job] of the
    list is the stored object, read when its turn comes. *)
Definition ProcessPendingJobs (now : Z) (j : JobService F)
  : JobService F * option string :=
  match GetJobsByStatus range_of (storage j) "pending" with
  | Go.Err err => (j, Some err)
  | Go.Ok pendingJobs =>
      (fold_left
         (fun (j : JobService F) (job : Job) =>
            fst (assignJob now j (through (storage j) job)))
         pendingJobs j,
       None)
  end.

(** [GetActiveJobCount]. *)
Definition GetActiveJobCount (j : JobService F) : Go.result Z :=
  match JobStorage.GetAllJobs range_of (storage j) with
  | Go.Err err => Go.Err err
  | Go.Ok jobs => Go.Ok (fold_left active_step jobs 0%Z)
  end.

(** [GetRevenue]. *)
Definition GetRevenue (j : JobService F) : Go.result Revenue :=
  match JobStorage.GetAllJobs range_of (storage j) with
  | Go.Err err => Go.Err err
  | Go.Ok jobs =>
      let sums := fold_left revenue_step jobs (mkSums 0 0 0 0 0 0) in
      let avgRideFare :=
        if (0 <? rideCount sums)%Z then rideRevenue sums / IZR (rideCount sums)
        else 0.0 in
      let avgDeliveryFare :=
        if (0 <? deliveryCount sums)%Z
        then deliveryRevenue sums / IZR (deliveryCount sums)
        else 0.0 in
      Go.Ok (mkRevenue (totalRevenue sums) (rideRevenue sums) (deliveryRevenue sums)
               (completedJobs sums) (rideCount sums) (deliveryCount sums)
               avgRideFare avgDeliveryFare)
  end.

End Ledger.

(** The fleet service itself behind the client interface: the client's
    two calls land in [FleetService.FindNearestAvailableVehicle] and
    [FleetService.AssignJob], and the vehicle found travels back as JSON. *)
Definition toFleetVehicle (v : FleetStorage.Vehicle) : FleetVehicle :=
  mkFleetVehicle (FleetStorage.ID v) (FleetStorage.Region v) (FleetStorage.Status v)
    (FleetStorage.BatteryLevel v) (FleetStorage.BatteryRangeKm v)
    (FleetStorage.LocationLat v) (FleetStorage.LocationLng v)
    (FleetStorage.CurrentJobID v) (FleetStorage.VehicleType v).

Definition fleetServiceClient
    (range_of : gmap string FleetStorage.Vehicle -> list FleetStorage.Vehicle)
    (now : Z) : FleetClient (gmap string FleetStorage.Vehicle) :=
  {| FindNearestVehicle m region pickupLat pickupLng tripDistanceKm :=
       match FleetSvc.FindNearestAvailableVehicle range_of m region
               pickupLat pickupLng tripDistanceKm with
       | Go.Ok v => Go.Ok (toFleetVehicle v)
       | Go.Err err => Go.Err err
       end;
     AssignJob m vehicleID jobID := FleetSvc.AssignJob now m vehicleID jobID |}.

End JobSvc.

(** ** Routing stub *)

Module Routing.

(** car-simulator/internal/simulator: the routing service. *)
Record RoutePoint : Type := mkRoutePoint {
  Lat : R;
  Lng : R
}.

Record Route : Type := mkRoute {
  Points : list RoutePoint;
  Distance : R;                 (* in meters *)
  Duration : R                  (* in seconds *)
}.

(** One route of an OSRM answer.  A GeoJSON position is an array
    [[lng, lat, ...]]; the code reads [coord[0]] and [coord[1]], and the
    model keeps these two components of each position. *)
Record OSRMRoute : Type := mkOSRMRoute {
  Coordinates : list (R * R);
  oDistance : R;
  oDuration : R
}.

Record OSRMResponse : Type := mkOSRMResponse {
  Code : string;
  Routes : list OSRMRoute
}.

(** What the external routing call can come back with: [client.Get]
    fails, the body does not decode, or a response is decoded. *)
Inductive OSRMReply : Type :=
| NetworkError (err : string)
| ParseError (err : string)
| Decoded (resp : OSRMResponse).

(** [createStraightLineRoute]: eleven points, [points[i]] at ratio
    [i / 10] between start and end. *)
Definition createStraightLineRoute (startLat startLng endLat endLng : R) : Route :=
  let points :=
    map (fun i : nat =>
           let ratio := INR i / 10.0 in
           let lat := startLat + (endLat - startLat) * ratio in
           let lng := startLng + (endLng - startLng) * ratio in
           mkRoutePoint lat lng)
        (seq 0 11) in
  let distance := Geo.haversineDistance startLat startLng endLat endLng * 1000 in
  let duration := distance / 13.89 in
  mkRoute points distance duration.

(** [GetRoute], given the reply of the routing server. *)
Definition GetRoute (reply : OSRMReply) (startLat startLng endLat endLng : R)
  : Go.result Route :=
  match reply with
  | NetworkError _ =>
      Go.Ok (createStraightLineRoute startLat startLng endLat endLng)
  | ParseError _ =>
      Go.Ok (createStraightLineRoute startLat startLng endLat endLng)
  | Decoded osrmResp =>
      match Routes osrmResp with
      | [] => Go.Ok (createStraightLineRoute startLat startLng endLat endLng)
      | route :: _ =>
          let points :=
            map (fun coord : R * R => mkRoutePoint coord.2 coord.1)
              (Coordinates route) in
          Go.Ok (mkRoute points (oDistance route) (oDuration route))
      end
  end.

End Routing.

(** ** Charging stations *)

Module Charging.

(** car-simulator/internal/simulator/charging.go. *)
Record ChargingStation : Type := mkChargingStation {
  ID : string;
  Lat : R;
  Lng : R
}.

Definition GetChargingStations (region : string) : list ChargingStation :=
  if decide (region = "us-west-2") then
    [ mkChargingStation "pioneer-place" 45.5188 (-122.6746);
      mkChargingStation "lloyd-center" 45.5311 (-122.6536);
      mkChargingStation "ohsu-campus" 45.4993 (-122.6859);
      mkChargingStation "pdx-airport" 45.5898 (-122.5951);
      mkChargingStation "hawthorne-whole-foods" 45.5122 (-122.6208) ]
  else
    [ mkChargingStation "default-station-1" 37.7749 (-122.4194);
      mkChargingStation "default-station-2" 37.7849 (-122.4094) ].

Definition FindNearestChargingStation (vehicleLat vehicleLng : R) (region : string)
  : ChargingStation :=
  match GetChargingStations region with
  | [] => mkChargingStation "emergency-station" vehicleLat vehicleLng
  | first :: rest =>
      fst (fold_left
             (fun (acc : ChargingStation * R) (station : ChargingStation) =>
                let distance :=
                  Geo.haversineDistance vehicleLat vehicleLng (Lat station) (Lng station) in
                if Rlt_dec distance (snd acc) then (station, distance) else acc)
             rest
             (first,
              Geo.haversineDistance vehicleLat vehicleLng (Lat first) (Lng first)))
  end.

End Charging.

(** ** Vehicle simulation engine *)

Module Simulator.

(** car-simulator/internal/job, [type Job struct]. *)
Record Job : Type := mkJob {
  jID : string;
  jJobType : string;
  jStatus : string;
  jAssignedVehicleID : option string;
  jPickupLat : R;
  jPickupLng : R;
  jDestinationLat : R;
  jDestinationLng : R;
  jEstimatedDistanceKm : R;
  jCustomerID : string;
  jRegion : string;
  jDeliveryDetails : option JobStorage.DeliveryDetails
}.

(** car-simulator/internal/simulator, [type Vehicle struct].
    The handles to the outside world ([jobClient], [routingService],
    [kinesisClient], [streamName]) carry no simulation state; what the
    outside world answers enters the operations as arguments. *)
Record Vehicle : Type := mkVehicle {
  ID : string;
  Region : string;
  Status : string;
  BatteryLevel : R;
  BatteryRangeKm : R;
  LocationLat : R;
  LocationLng : R;
  CurrentJobID : option string;
  VehicleType : string;
  fleetServiceURL : string;
  jobServiceURL : string;
  targetLat : R;
  targetLng : R;
  isMoving : bool;
  batteryDrainRate : R;
  currentJob : option Job;
  jobPhase : string;
  currentRoute : option Routing.Route;
  routeIndex : nat
}.

Definition set_Status (x : string) (v : Vehicle) : Vehicle :=
  mkVehicle (ID v) (Region v) x (BatteryLevel v) (BatteryRangeKm v)
    (LocationLat v) (LocationLng v) (CurrentJobID v) (VehicleType v)
    (fleetServiceURL v) (jobServiceURL v) (targetLat v) (targetLng v)
    (isMoving v) (batteryDrainRate v) (currentJob v) (jobPhase v)
    (currentRoute v) (routeIndex v).

Definition set_BatteryLevel (x : R) (v : Vehicle) : Vehicle :=
  mkVehicle (ID v) (Region v) (Status v) x (BatteryRangeKm v) (LocationLat v)
    (LocationLng v) (CurrentJobID v) (VehicleType v) (fleetServiceURL v)
    (jobServiceURL v) (targetLat v) (targetLng v) (isMoving v)
    (batteryDrainRate v) (currentJob v) (jobPhase v) (currentRoute v)
    (routeIndex v).

Definition set_BatteryRangeKm (x : R) (v : Vehicle) : Vehicle :=
  mkVehicle (ID v) (Region v) (Status v) (BatteryLevel v) x (LocationLat v)
    (LocationLng v) (CurrentJobID v) (VehicleType v) (fleetServiceURL v)
    (jobServiceURL v) (targetLat v) (targetLng v) (isMoving v)
    (batteryDrainRate v) (currentJob v) (jobPhase v) (currentRoute v)
    (routeIndex v).

Definition set_LocationLat (x : R) (v : Vehicle) : Vehicle :=
  mkVehicle (ID v) (Region v) (Status v) (BatteryLevel v) (BatteryRangeKm v) x
    (LocationLng v) (CurrentJobID v) (VehicleType v) (fleetServiceURL v)
    (jobServiceURL v) (targetLat v) (targetLng v) (isMoving v)
    (batteryDrainRate v) (currentJob v) (jobPhase v) (currentRoute v)
    (routeIndex v).

Definition set_LocationLng (x : R) (v : Vehicle) : Vehicle :=
  mkVehicle (ID v) (Region v) (Status v) (BatteryLevel v) (BatteryRangeKm v)
    (LocationLat v) x (CurrentJobID v) (VehicleType v) (fleetServiceURL v)
    (jobServiceURL v) (targetLat v) (targetLng v) (isMoving v)
    (batteryDrainRate v) (currentJob v) (jobPhase v) (currentRoute v)
    (routeIndex v).

Definition set_CurrentJobID (x : option string) (v : Vehicle) : Vehicle :=
  mkVehicle (ID v) (Region v) (Status v) (BatteryLevel v) (BatteryRangeKm v)
    (LocationLat v) (LocationLng v) x (VehicleType v) (fleetServiceURL v)
    (jobServiceURL v) (targetLat v) (targetLng v) (isMoving v)
    (batteryDrainRate v) (currentJob v) (jobPhase v) (currentRoute v)
    (routeIndex v).

Definition set_targetLat (x : R) (v : Vehicle) : Vehicle :=
  mkVehicle (ID v) (Region v) (Status v) (BatteryLevel v) (BatteryRangeKm v)
    (LocationLat v) (LocationLng v) (CurrentJobID v) (VehicleType v)
    (fleetServiceURL v) (jobServiceURL v) x (targetLng v) (isMoving v)
    (batteryDrainRate v) (currentJob v) (jobPhase v) (currentRoute v)
    (routeIndex v).

Definition set_targetLng (x : R) (v : Vehicle) : Vehicle :=
  mkVehicle (ID v) (Region v) (Status v) (BatteryLevel v) (BatteryRangeKm v)
    (LocationLat v) (LocationLng v) (CurrentJobID v) (VehicleType v)
    (fleetServiceURL v) (jobServiceURL v) (targetLat v) x (isMoving v)
    (batteryDrainRate v) (currentJob v) (jobPhase v) (currentRoute v)
    (routeIndex v).

Definition set_isMoving (x : bool) (v : Vehicle) : Vehicle :=
  mkVehicle (ID v) (Region v) (Status v) (BatteryLevel v) (BatteryRangeKm v)
    (LocationLat v) (LocationLng v) (CurrentJobID v) (VehicleType v)
    (fleetServiceURL v) (jobServiceURL v) (targetLat v) (targetLng v) x
    (batteryDrainRate v) (currentJob v) (jobPhase v) (currentRoute v)
    (routeIndex v).

Definition set_currentJob (x : option Job) (v : Vehicle) : Vehicle :=
  mkVehicle (ID v) (Region v) (Status v) (BatteryLevel v) (BatteryRangeKm v)
    (LocationLat v) (LocationLng v) (CurrentJobID v) (VehicleType v)
    (fleetServiceURL v) (jobServiceURL v) (targetLat v) (targetLng v)
    (isMoving v) (batteryDrainRate v) x (jobPhase v) (currentRoute v)
    (routeIndex v).

Definition set_jobPhase (x : string) (v : Vehicle) : Vehicle :=
  mkVehicle (ID v) (Region v) (Status v) (BatteryLevel v) (BatteryRangeKm v)
    (LocationLat v) (LocationLng v) (CurrentJobID v) (VehicleType v)
    (fleetServiceURL v) (jobServiceURL v) (targetLat v) (targetLng v)
    (isMoving v) (batteryDrainRate v) (currentJob v) x (currentRoute v)
    (routeIndex v).

Definition set_currentRoute (x : option Routing.Route) (v : Vehicle) : Vehicle :=
  mkVehicle (ID v) (Region v) (Status v) (BatteryLevel v) (BatteryRangeKm v)
    (LocationLat v) (LocationLng v) (CurrentJobID v) (VehicleType v)
    (fleetServiceURL v) (jobServiceURL v) (targetLat v) (targetLng v)
    (isMoving v) (batteryDrainRate v) (currentJob v) (jobPhase v) x
    (routeIndex v).

Definition set_routeIndex (x : nat) (v : Vehicle) : Vehicle :=
  mkVehicle (ID v) (Region v) (Status v) (BatteryLevel v) (BatteryRangeKm v)
    (LocationLat v) (LocationLng v) (CurrentJobID v) (VehicleType v)
    (fleetServiceURL v) (jobServiceURL v) (targetLat v) (targetLng v)
    (isMoving v) (batteryDrainRate v) (currentJob v) (jobPhase v)
    (currentRoute v) x.

(** What an HTTP request can come back with: the transport fails, or a
    response arrives with its status code and the outcome of decoding its
    body. *)
Inductive HTTPReply (A : Type) : Type :=
| TransportError (err : string)
| Response (status : Z) (body : Go.result A).
Arguments TransportError {A} err.
Arguments Response {A} status body.

(** car-simulator/internal/job, [Client.GetAssignedJobs], given the reply
    to [GET /jobs]: all jobs are fetched and those assigned to the vehicle
    are kept. *)
Definition GetAssignedJobs (reply : HTTPReply (list Job)) (vehicleID : string)
  : Go.result (list Job) :=
  match reply with
  | TransportError err => Go.Err err
  | Response status body =>
      if decide (status <> 200%Z) then
        Go.Err ("job service returned status " +:+ pretty status)%string
      else
        match body with
        | Go.Err err => Go.Err err
        | Go.Ok allJobs =>
            Go.Ok (filter (fun job => jAssignedVehicleID job = Some vehicleID) allJobs)
        end
  end.

(** [NewVehicle]; [r] is the value [rand.Intn(40)] returned. *)
Definition NewVehicle (r : Z) (id region fleetServiceURL jobServiceURL : string)
    (startLat startLng : R) : Vehicle :=
  let batteryLevel := (r + 60)%Z in
  let batteryDrainRate := 4.0 in
  mkVehicle id region "available" (IZR batteryLevel)
    (IZR batteryLevel * batteryDrainRate) startLat startLng None "sedan"
    fleetServiceURL jobServiceURL 0 0 false batteryDrainRate None "idle" None 0.

(** [getMovementSpeed]; [DEMO_SPEED] is [Some s] when the environment
    variable is set and parses as the number [s]. *)
Definition getMovementSpeed (DEMO_SPEED : option R) : R :=
  match DEMO_SPEED with
  | Some speed => speed
  | None => 0.00035
  end.

(** [distanceToTarget]. *)
Definition distanceToTarget (v : Vehicle) : R :=
  let latDiff := targetLat v - LocationLat v in
  let lngDiff := targetLng v - LocationLng v in
  sqrt (latDiff * latDiff + lngDiff * lngDiff).

(** [handleBatteryDepletion]. *)
Definition handleBatteryDepletion (v : Vehicle) : Vehicle :=
  if decide (Status v = "charging" /\ jobPhase v = "going_to_charge") then
    let chargingStation :=
      Charging.FindNearestChargingStation (LocationLat v) (LocationLng v) (Region v) in
    let v := set_LocationLat (Charging.Lat chargingStation) v in
    let v := set_LocationLng (Charging.Lng chargingStation) v in
    let v := set_isMoving false v in
    let v := set_jobPhase "charging" v in
    let v := set_BatteryLevel 5 v in
    set_BatteryRangeKm (BatteryLevel v * batteryDrainRate v) v
  else
    let v := set_isMoving false v in
    let v := set_Status "maintenance" v in
    let v := set_jobPhase "stranded" v in
    match currentJob v with
    | Some _ => set_CurrentJobID None (set_currentJob None v)
    | None => v
    end.

(** [drainBattery]. *)
Definition drainBattery (kmTraveled : R) (v : Vehicle) : Vehicle :=
  if Rle_dec kmTraveled 0 then v
  else
    let batteryUsedPercent := kmTraveled / batteryDrainRate v in
    let newBatteryLevel := Go.Max 0 (BatteryLevel v - batteryUsedPercent) in
    let v := set_BatteryLevel newBatteryLevel v in
    let v := set_BatteryRangeKm (BatteryLevel v * batteryDrainRate v) v in
    if Req_dec_T (BatteryLevel v) 0 then handleBatteryDepletion v else v.

(** [setRouteTarget], given the reply of the routing server. *)
Definition setRouteTarget (reply : Routing.OSRMReply) (lat lng : R) (v : Vehicle)
  : Vehicle :=
  let v := set_targetLat lat v in
  let v := set_targetLng lng v in
  match Routing.GetRoute reply (LocationLat v) (LocationLng v) lat lng with
  | Go.Err _ => set_isMoving true (set_currentRoute None v)
  | Go.Ok route =>
      set_isMoving true (set_routeIndex 0%nat (set_currentRoute (Some route) v))
  end.

(** [goToCharge]. *)
Definition goToCharge (reply : Routing.OSRMReply) (v : Vehicle) : Vehicle :=
  let chargingStation :=
    Charging.FindNearestChargingStation (LocationLat v) (LocationLng v) (Region v) in
  let v := set_Status "charging" v in
  let v :=
    setRouteTarget reply (Charging.Lat chargingStation) (Charging.Lng chargingStation) v in
  set_jobPhase "going_to_charge" v.

(** [moveTowardsTarget]. *)
Definition moveTowardsTarget (DEMO_SPEED : option R) (v : Vehicle) : Vehicle :=
  if Rle_dec (BatteryLevel v) 0 then handleBatteryDepletion v
  else
    let prevLat := LocationLat v in
    let prevLng := LocationLng v in
    let distance := distanceToTarget v in
    if Rlt_dec distance 0.001 then
      set_isMoving false (set_LocationLng (targetLng v) (set_LocationLat (targetLat v) v))
    else
      let speed := getMovementSpeed DEMO_SPEED in
      let latDiff := targetLat v - LocationLat v in
      let lngDiff := targetLng v - LocationLng v in
      let factor := speed / distance in
      let v := set_LocationLat (LocationLat v + latDiff * factor) v in
      let v := set_LocationLng (LocationLng v + lngDiff * factor) v in
      let kmTraveled :=
        Geo.haversineDistance prevLat prevLng (LocationLat v) (LocationLng v) in
      drainBattery kmTraveled v.

(** [moveAlongRoute].  The test [routeIndex >= len(Points)-1] on a
    non-empty route says that [Points[routeIndex+1]] does not exist. *)
Definition moveAlongRoute (DEMO_SPEED : option R) (v : Vehicle) : Vehicle :=
  if Rle_dec (BatteryLevel v) 0 then handleBatteryDepletion v
  else
    match currentRoute v with
    | None => moveTowardsTarget DEMO_SPEED v
    | Some route =>
        match Routing.Points route with
        | [] => moveTowardsTarget DEMO_SPEED v
        | _ :: _ =>
            match Routing.Points route !! S (routeIndex v) with
            | None =>
                let v := set_LocationLat (targetLat v) v in
                let v := set_LocationLng (targetLng v) v in
                let v := set_isMoving false v in
                let v := set_currentRoute None v in
                set_routeIndex 0%nat v
            | Some nextPoint =>
                let prevLat := LocationLat v in
                let prevLng := LocationLng v in
                let stepSize := getMovementSpeed DEMO_SPEED in
                let latDiff := Routing.Lat nextPoint - LocationLat v in
                let lngDiff := Routing.Lng nextPoint - LocationLng v in
                let distance := sqrt (latDiff * latDiff + lngDiff * lngDiff) in
                let v :=
                  if Rlt_dec distance stepSize then
                    let v := set_routeIndex (S (routeIndex v)) v in
                    let v := set_LocationLat (Routing.Lat nextPoint) v in
                    set_LocationLng (Routing.Lng nextPoint) v
                  else
                    let v :=
                      set_LocationLat (LocationLat v + latDiff / distance * stepSize) v in
                    set_LocationLng (LocationLng v + lngDiff / distance * stepSize) v in
                let kmTraveled :=
                  Geo.haversineDistance prevLat prevLng (LocationLat v) (LocationLng v) in
                drainBattery kmTraveled v
            end
        end
    end.

(** [setRandomTarget]; [a] and [b] are the two values [rand.Float64()]
    returned. *)
Definition setRandomTarget (a b : R) (radiusDegrees : R) (v : Vehicle) : Vehicle :=
  let angle := a * 2 * PI in
  let radius := b * radiusDegrees in
  let v := set_targetLat (LocationLat v + radius * cos angle) v in
  set_targetLng (LocationLng v + radius * sin angle) v.

(** [startJob]. *)
Definition startJob (reply : Routing.OSRMReply) (job : Job) (v : Vehicle) : Vehicle :=
  let v := set_currentJob (Some job) v in
  let v := set_Status "busy" v in
  let v := set_jobPhase "pickup" v in
  setRouteTarget reply (jPickupLat job) (jPickupLng job) v.

(** [checkForJobs]; [polled] is what [jobClient.GetAssignedJobs] answers.
    The loop starts the first job whose status is "assigned". *)
Definition checkForJobs (polled : Go.result (list Job)) (reply : Routing.OSRMReply)
    (v : Vehicle) : Vehicle :=
  if decide (Status v <> "available" \/ currentJob v <> None) then v
  else
    match polled with
    | Go.Err _ => v
    | Go.Ok jobs =>
        match List.find (fun job => bool_decide (jStatus job = "assigned")) jobs with
        | Some job => startJob reply job v
        | None => v
        end
    end.

(** [simulateIdleBehavior]; [chance], [a] and [b] are the values
    [rand.Float64()] returns. *)
Definition simulateIdleBehavior (chance a b : R) (DEMO_SPEED : option R) (v : Vehicle)
  : Vehicle :=
  if negb (isMoving v) then
    if Rlt_dec chance 0.1 then set_isMoving true (setRandomTarget a b 0.01 v)
    else v
  else moveTowardsTarget DEMO_SPEED v.

(** [completeCurrentJob]; the answer of [jobClient.CompleteJob] is only
    printed. *)
Definition completeCurrentJob (v : Vehicle) : Vehicle :=
  match currentJob v with
  | None => v
  | Some _ =>
      let v := set_currentJob None v in
      let v := set_CurrentJobID None v in
      let v := set_Status "available" v in
      let v := set_isMoving false v in
      set_jobPhase "idle" v
  end.

(** [simulateJobExecution].  Where the pickup is reached the code reads
    [v.currentJob.DestinationLat]; [currentJob] is not nil there, because
    the only step in between that clears it, the depletion handling, also
    moves [jobPhase] away from "pickup". *)
Definition simulateJobExecution (reply : Routing.OSRMReply) (DEMO_SPEED : option R)
    (v : Vehicle) : Vehicle :=
  match currentJob v with
  | None => set_isMoving false (set_Status "available" v)
  | Some _ =>
      if Rle_dec (BatteryLevel v) 15 then
        let v := set_currentJob None v in
        let v := set_CurrentJobID None v in
        let v := set_jobPhase "idle" v in
        goToCharge reply v
      else if isMoving v then
        let v := moveAlongRoute DEMO_SPEED v in
        if Rlt_dec (distanceToTarget v) 0.001 then
          if decide (jobPhase v = "pickup") then
            let v := set_jobPhase "delivery" v in
            match currentJob v with
            | Some job =>
                setRouteTarget reply (jDestinationLat job) (jDestinationLng job) v
            | None => v
            end
          else if decide (jobPhase v = "delivery") then completeCurrentJob v
          else v
        else v
      else v
  end.

(** [simulateMaintenance]. *)
Definition simulateMaintenance (reply : Routing.OSRMReply) (v : Vehicle) : Vehicle :=
  if decide (jobPhase v = "stranded") then
    let v := set_BatteryLevel 20 v in
    let v := set_BatteryRangeKm (BatteryLevel v * batteryDrainRate v) v in
    let v := set_Status "charging" v in
    let v := set_jobPhase "going_to_charge" v in
    goToCharge reply v
  else v.

(** [simulateCharging]. *)
Definition simulateCharging (DEMO_SPEED : option R) (v : Vehicle) : Vehicle :=
  if decide (isMoving v = true /\ jobPhase v = "going_to_charge") then
    let v := moveAlongRoute DEMO_SPEED v in
    if Rlt_dec (distanceToTarget v) 0.001 then
      set_jobPhase "charging" (set_isMoving false v)
    else v
  else if decide (jobPhase v = "charging") then
    if Rlt_dec (BatteryLevel v) 95 then
      let v := set_BatteryLevel (BatteryLevel v + 2) v in
      set_BatteryRangeKm (BatteryLevel v * batteryDrainRate v) v
    else
      let v := set_Status "available" v in
      let v := set_isMoving false v in
      set_jobPhase "idle" v
  else v.

(** What the outside world contributes to one tick of the simulation
    loop: the answer of the job poll, the replies of the routing server
    (one for each place of the tick that may ask for a route), the random
    numbers drawn, and the speed setting. *)
Record Tick : Type := mkTick {
  polled : Go.result (list Job);
  replyJob : Routing.OSRMReply;
  replyStep : Routing.OSRMReply;
  replyLow : Routing.OSRMReply;
  chance : R;
  rndAngle : R;
  rndRadius : R;
  DEMO_SPEED : option R
}.

(** The body of the loop of [simulationLoop], one tick.  Logging and
    [reportToFleet] leave the vehicle as it is. *)
Definition simulationStep (e : Tick) (v : Vehicle) : Vehicle :=
  let v := checkForJobs (polled e) (replyJob e) v in
  let v :=
    if decide (Status v = "available") then
      simulateIdleBehavior (chance e) (rndAngle e) (rndRadius e) (DEMO_SPEED e) v
    else if decide (Status v = "busy") then
      simulateJobExecution (replyStep e) (DEMO_SPEED e) v
    else if decide (Status v = "charging") then simulateCharging (DEMO_SPEED e) v
    else if decide (Status v = "maintenance") then simulateMaintenance (replyStep e) v
    else v in
  if Rle_dec (BatteryLevel v) 30 then
    if decide (Status v = "available") then goToCharge (replyLow e) v else v
  else v.

(** A run of the loop over the ticks [es]. *)
Definition simulationLoop (es : list Tick) (v : Vehicle) : Vehicle :=
  fold_left (fun v e => simulationStep e v) es v.

End Simulator.

(** ** Registration with the fleet directory *)

Module Registration.

#[local] Open Scope Z_scope.

(** Durations are [time.Duration] values: nanoseconds. *)
Definition Second : Z := 1000000000.
Definition Minute : Z := 60 * Second.

Definition maxRetries : nat := 10.
Definition baseDelay : Z := 1 * Second.
Definition maxDelay : Z := 30 * Second.

(** The deadline of [context.WithTimeout(context.Background(), 5*time.Minute)],
    counted from the moment the context is made. *)
Definition deadline : Z := 5 * Minute.

(** One call of [registerWithFleet] as the loop sees it: how long the
    call takes and the error it returns ([None] for nil). *)
Record Attempt : Type := mkAttempt {
  took : Z;
  outcome : option string
}.

(** What a run of [registerWithFleetRetry] does and returns: the error
    returned ([None] for nil), the number of calls of [registerWithFleet],
    the times at which these calls started, the delays slept through in
    order, and the time of the return.  Times count from the creation of
    the context. *)
Record Run : Type := mkRun {
  returned : option string;
  attempts : nat;
  started : list Z;
  slept : list Z;
  finished : Z
}.

(** [delay = time.Duration(float64(delay) * 1.5)] followed by the cap.
    The conversion to [time.Duration] truncates; on the delays the loop
    reaches, the product is an integer and the floating-point product is
    exact. *)
Definition nextDelay (delay : Z) : Z :=
  let delay := (delay * 3) ÷ 2 in
  if maxDelay <? delay then maxDelay else delay.

(** The [for attempt := 0; attempt < maxRetries; attempt++] loop with
    [togo = maxRetries - attempt] iterations to go.  [calls attempt] is the
    [attempt]-th call of [registerWithFleet].  In the [select], the timer
    fires first when it is due before the deadline; otherwise the context
    is done first. *)
Fixpoint retryLoop (calls : nat -> Attempt) (togo attempt : nat)
    (clock delay : Z) (lastErr : string) (begun naps : list Z) : Run :=
  match togo with
  | O =>
      mkRun (Some ("registration failed after 10 attempts: " +:+ lastErr)%string)
        attempt begun naps clock
  | S togo =>
      let call := calls attempt in
      let begun := begun ++ [clock] in
      let clock := clock + took call in
      match outcome call with
      | None => mkRun None (S attempt) begun naps clock
      | Some err =>
          if (attempt =? maxRetries - 1)%nat then
            mkRun (Some ("registration failed after 10 attempts: " +:+ err)%string)
              (S attempt) begun naps clock
          else if clock + delay <? deadline then
            retryLoop calls togo (S attempt) (clock + delay) (nextDelay delay) err
              begun (naps ++ [delay])
          else
            mkRun (Some "registration timeout: context deadline exceeded")
              (S attempt) begun naps (Z.max clock deadline)
      end
  end.

(** [registerWithFleetRetry]. *)
Definition registerWithFleetRetry (calls : nat -> Attempt) : Run :=
  retryLoop calls maxRetries 0 0 baseDelay "<nil>" [] [].

(** [Vehicle.Start]: registration, then the simulation loop is launched;
    a failed registration is returned to the caller. *)
Definition Start (calls : nat -> Attempt) : option string :=
  match returned (registerWithFleetRetry calls) with
  | Some err => Some ("failed to register with fleet after retries: " +:+ err)%string
  | None => None
  end.

End Registration.

(** * The vocabulary of the properties *)

(** ** Dispatcher *)

Section DispatcherVocabulary.

Import FleetStorage FleetSvc.

(** The quantities the loop computes for one candidate. *)
Definition distanceToPickup (pickupLat pickupLng : R) (v : Vehicle) : R :=
  Geo.calculateDistance (LocationLat v) (LocationLng v) pickupLat pickupLng.

Definition sufficient_range (pickupLat pickupLng tripDistanceKm : R) (v : Vehicle) : Prop :=
  ~ BatteryRangeKm v < (distanceToPickup pickupLat pickupLng v + tripDistanceKm) * 1.2.

(** A stored vehicle: some key of the map holds it. *)
Definition stored (m : gmap string Vehicle) (v : Vehicle) : Prop :=
  exists id, m !! id = Some v.

(** A vehicle qualifies when it is considered (right region, available)
    and passes the battery check. *)
Definition qualifies (region : string) (pickupLat pickupLng tripDistanceKm : R)
    (v : Vehicle) : Prop :=
  Region v = region /\ Status v = "available"
  /\ sufficient_range pickupLat pickupLng tripDistanceKm v.

(** The invariant of the dispatcher's loop once the candidates [seen] have
    been visited, on the loop state [acc = (bestVehicle, minDistance)]. *)
Definition nearest_inv (pickupLat pickupLng tripDistanceKm : R)
    (seen : list Vehicle) (acc : option Vehicle * R) : Prop :=
  match acc.1 with
  | None =>
      acc.2 = Go.MaxFloat64
      /\ forall w, w ∈ seen -> ~ sufficient_range pickupLat pickupLng tripDistanceKm w
  | Some v =>
      acc.2 = distanceToPickup pickupLat pickupLng v
      /\ v ∈ seen
      /\ sufficient_range pickupLat pickupLng tripDistanceKm v
      /\ forall w, w ∈ seen ->
           sufficient_range pickupLat pickupLng tripDistanceKm w ->
           distanceToPickup pickupLat pickupLng v
           <= distanceToPickup pickupLat pickupLng w
  end.

(** Every vehicle of the directory sits under its own id: what
    [CreateVehicle] and the updates maintain. *)
Definition keyed (m : gmap string Vehicle) : Prop :=
  forall id v, m !! id = Some v -> ID v = id.

(** One admissible iteration order of a Go map: the order in which the
    finite map lists its entries. *)
Definition listing_order (m : gmap string Vehicle) : list Vehicle :=
  (map_to_list m).*2.

(** The vehicle and the pickup of the dispatcher's test. *)
Definition v1 : Vehicle :=
  mkVehicle "v1" "us-west-2" "available" 80 200 37.7749 (-122.4194) None 0 "sedan".

Definition fleet1 : gmap string Vehicle := {["v1" := v1]}.

End DispatcherVocabulary.

(** ** Job ledger and orchestrator *)

Section JobVocabulary.

Import JobStorage JobSvc.

Context {F : Type} {client : FleetClient F}.

(** What [CompleteJob] writes into a job it accepts. *)
Definition completed (now : Z) (job : Job) : Job :=
  set_CompletedAt (Some now) (set_Status "completed" job).

(** The three ways an assignment attempt for the job [jobID] can end, read
    off the answers of the fleet client, and what is then required of the
    stored job [job] and of the fleet state [fl] left behind: a failed
    search or a failed fleet assignment leaves the job pending and without
    a vehicle; a vehicle found and assigned leaves the job assigned to it. *)
Definition attempt_outcome (j : JobService F) (jobID region : string)
    (pickupLat pickupLng tripDistanceKm : R) (job : Job) (fl : F) : Prop :=
  match FindNearestVehicle (fleet j) region pickupLat pickupLng tripDistanceKm with
  | Go.Err _ =>
      Status job = "pending" /\ AssignedVehicleID job = None /\ fl = fleet j
  | Go.Ok vehicle =>
      match AssignJob (fleet j) (vID vehicle) jobID with
      | (fl', Some _) =>
          Status job = "pending" /\ AssignedVehicleID job = None /\ fl = fl'
      | (fl', None) =>
          Status job = "assigned" /\ AssignedVehicleID job = Some (vID vehicle)
          /\ fl = fl'
      end
  end.

(** A call that created the job [jobID]: it returns the job object and no
    error, the object returned is the stored one, and the assignment
    attempt ended in one of the three ways above. *)
Definition created (j : JobService F) (jobID region : string)
    (pickupLat pickupLng destLat destLng : R)
    (res : JobService F * Go.result Job) : Prop :=
  exists job, res.2 = Go.Ok job
    /\ ID job = jobID
    /\ storage res.1 !! jobID = Some job
    /\ attempt_outcome j jobID region pickupLat pickupLng
         (Geo.calculateDistance pickupLat pickupLng destLat destLng)
         job (fleet res.1).

End JobVocabulary.


(** The job service of the walkthrough: an empty ledger in front of the
    fleet service holding [v1]. *)
Definition fleetClient1 : JobSvc.FleetClient (gmap string FleetStorage.Vehicle) :=
  JobSvc.fleetServiceClient listing_order 0.

Definition jobService1 : JobSvc.JobService (gmap string FleetStorage.Vehicle) :=
  JobSvc.NewJobService JobStorage.NewMemoryJobStorage fleet1 0.

(** ** Vehicle simulation: the battery *)

Section BatteryVocabulary.

Import Simulator.

(** The range is the level times the drain rate. *)
Definition range_consistent (v : Vehicle) : Prop :=
  BatteryRangeKm v = BatteryLevel v * batteryDrainRate v.

(** Level and range are both as before. *)
Definition battery_untouched (v v' : Vehicle) : Prop :=
  BatteryLevel v' = BatteryLevel v /\ BatteryRangeKm v' = BatteryRangeKm v.

(** The level is a percentage. *)
Definition level_in_bounds (v : Vehicle) : Prop :=
  0 <= BatteryLevel v <= 100.

(** How an operation taking [v] to [v'] may treat the battery: the drain
    rate stays; level and range are either both left alone or the range
    has been recomputed from the level; a level within bounds stays
    within bounds (for a positive drain rate). *)
Definition battery_step (v v' : Vehicle) : Prop :=
  batteryDrainRate v' = batteryDrainRate v
  /\ (battery_untouched v v' \/ range_consistent v')
  /\ (0 < batteryDrainRate v -> level_in_bounds v -> level_in_bounds v').

(** The range follows the level through the step from [v] to [v']: if
    either moved, the range is the level times the drain rate afterwards;
    and a range that was consistent stays consistent. *)
Definition range_follows_level (v v' : Vehicle) : Prop :=
  (BatteryLevel v' <> BatteryLevel v -> range_consistent v')
  /\ (BatteryRangeKm v' <> BatteryRangeKm v -> range_consistent v')
  /\ (range_consistent v -> range_consistent v').

(** The vehicle is on its way to a charging station. *)
Definition en_route_to_charger (v : Vehicle) : Prop :=
  Status v = "charging" /\ jobPhase v = "going_to_charge".

(** A vehicle with 1% of battery left, on its way to a charging station. *)
Definition towed : Vehicle :=
  mkVehicle "vehicle-1" "us-west-2" "charging" 1 4 45.5 (-122.6) None "sedan"
    "http://fleet" "http://job" 45.5188 (-122.6746) true 4 None
    "going_to_charge" None 0.

End BatteryVocabulary.

(** ** Routing stub *)

Section RoutingVocabulary.

Import Routing.

(** The routing call failed: no connection, no decodable body, or an
    answer without routes. *)
Definition routing_failed (reply : OSRMReply) : Prop :=
  match reply with
  | NetworkError _ => True
  | ParseError _ => True
  | Decoded resp => Routes resp = []
  end.

(** The point at ratio [i / 10] of the segment from start to end. *)
Definition interpolated (startLat startLng endLat endLng : R) (i : nat) : RoutePoint :=
  mkRoutePoint (startLat + (endLat - startLat) * (INR i / 10))
    (startLng + (endLng - startLng) * (INR i / 10)).

End RoutingVocabulary.

(** ** Registration *)

Section RegistrationVocabulary.

Import Registration.

#[local] Open Scope Z_scope.

(** The delay slept after the failed attempt number [k] (counted from 0):
    1 s at first, then one and a half times the previous one, capped. *)
Definition backoff (k : nat) : Z := Nat.iter k nextDelay baseDelay.

(** Every attempt fails at once with the same error. *)
Definition always_refused (k : nat) : Attempt :=
  mkAttempt 0 (Some "connection refused"%string).

End RegistrationVocabulary.

(** ** Geo utilities: the haversine term *)



(** ** Fleet directory: calls and their sequences *)

Section FleetVocabulary.

Import FleetStorage.

(** The calls the in-memory vehicle storage answers. *)
Inductive FleetCall : Type :=
| CallCreate (vehicle : Vehicle)
| CallUpdate (vehicle : Vehicle)
| CallLocation (vehicleID : string) (lat lng : R)
| CallLocationAndStatus (vehicleID : string) (lat lng : R) (status : string)
| CallStatus (vehicleID : string) (status : string) (jobID : option string).

(** One call at clock reading [now]. *)
Definition call (now : Z) (c : FleetCall) (m : gmap string Vehicle)
  : gmap string Vehicle * option string :=
  match c with
  | CallCreate vehicle => CreateVehicle now m vehicle
  | CallUpdate vehicle => UpdateVehicle now m vehicle
  | CallLocation vehicleID lat lng => UpdateVehicleLocation now m vehicleID lat lng
  | CallLocationAndStatus vehicleID lat lng status =>
      UpdateVehicleLocationAndStatus now m vehicleID lat lng status
  | CallStatus vehicleID status jobID =>
      UpdateVehicleStatus now m vehicleID status jobID
  end.

(** A sequence of calls, each with its clock reading, whatever each call
    returns. *)
Definition calls (cs : list (Z * FleetCall)) (m : gmap string Vehicle)
  : gmap string Vehicle :=
  fold_left (fun m nc => (call nc.1 nc.2 m).1) cs m.

(** The id a call is about. *)
Definition call_id (c : FleetCall) : string :=
  match c with
  | CallCreate vehicle => ID vehicle
  | CallUpdate vehicle => ID vehicle
  | CallLocation vehicleID _ _ => vehicleID
  | CallLocationAndStatus vehicleID _ _ _ => vehicleID
  | CallStatus vehicleID _ _ => vehicleID
  end.

(** The calls that report on a vehicle: location, location with status,
    status with job.  These are the calls the simulator and the job
    service reach after registration. *)
Definition is_report (c : FleetCall) : Prop :=
  match c with
  | CallCreate _ => False
  | CallUpdate _ => False
  | _ => True
  end.

(** What a vehicle registered with and no report changes. *)
Definition same_registration (v v' : Vehicle) : Prop :=
  ID v' = ID v /\ Region v' = Region v /\ BatteryLevel v' = BatteryLevel v
  /\ BatteryRangeKm v' = BatteryRangeKm v /\ VehicleType v' = VehicleType v.

End FleetVocabulary.

(** ** Job ledger: calls and what they may do to a job *)

Section LedgerVocabulary.

Import JobStorage JobSvc.

Context {F : Type} {client : FleetClient F}.

(** The order in which the job storage is ranged over. *)
Variable range_of : MemoryJobStorage -> list Job.

(** The calls of the job service that write. *)
Inductive JobCall : Type :=
| CallCreateRideJob (customerID region : string)
    (pickupLat pickupLng destLat destLng : R)
| CallCreateDeliveryJob (customerID region : string)
    (pickupLat pickupLng destLat destLng : R) (details : option DeliveryDetails)
| CallCompleteJob (jobID : string)
| CallProcessPendingJobs.

(** The service after one call made at time [now]; what the call returns
    is dropped. *)
Definition job_call (now : Z) (c : JobCall) (j : JobService F) : JobService F :=
  match c with
  | CallCreateRideJob customerID region pickupLat pickupLng destLat destLng =>
      (CreateRideJob now j customerID region pickupLat pickupLng destLat destLng).1
  | CallCreateDeliveryJob customerID region pickupLat pickupLng destLat destLng
      details =>
      (CreateDeliveryJob now j customerID region pickupLat pickupLng destLat destLng
         details).1
  | CallCompleteJob jobID => (CompleteJob now j jobID).1
  | CallProcessPendingJobs => (ProcessPendingJobs range_of now j).1
  end.

(** A sequence of calls, each with the time it is made at. *)
Definition job_calls (cs : list (Z * JobCall)) (j : JobService F) : JobService F :=
  fold_left (fun j nc => job_call nc.1 nc.2 j) cs j.

End LedgerVocabulary.

(** Every job of the storage sits under its own id. *)
Definition job_keyed (m : JobStorage.MemoryJobStorage) : Prop :=
  forall id job, m !! id = Some job -> JobStorage.ID job = id.

(** [job'] is [job] up to the four fields the life cycle writes: status,
    assigned vehicle, and the two time stamps of assignment and
    completion.  The order itself and its fare are the same. *)
Definition same_order (job job' : JobStorage.Job) : Prop :=
  JobStorage.ID job' = JobStorage.ID job
  /\ JobStorage.JobType job' = JobStorage.JobType job
  /\ JobStorage.PickupLat job' = JobStorage.PickupLat job
  /\ JobStorage.PickupLng job' = JobStorage.PickupLng job
  /\ JobStorage.DestinationLat job' = JobStorage.DestinationLat job
  /\ JobStorage.DestinationLng job' = JobStorage.DestinationLng job
  /\ JobStorage.EstimatedDistanceKm job' = JobStorage.EstimatedDistanceKm job
  /\ JobStorage.CreatedAt job' = JobStorage.CreatedAt job
  /\ JobStorage.CustomerID job' = JobStorage.CustomerID job
  /\ JobStorage.Region job' = JobStorage.Region job
  /\ JobStorage.Details job' = JobStorage.Details job
  /\ JobStorage.FareAmount job' = JobStorage.FareAmount job
  /\ JobStorage.BaseFare job' = JobStorage.BaseFare job
  /\ JobStorage.DistanceFare job' = JobStorage.DistanceFare job.

(** The life cycle of one stored job across one call: the job stays as it
    is, or a pending job becomes assigned to a vehicle, or an assigned or
    in-progress job becomes completed. *)
Definition life_cycle (job job' : JobStorage.Job) : Prop :=
  job' = job
  \/ (JobStorage.Status job = "pending" /\ JobStorage.Status job' = "assigned"
      /\ is_Some (JobStorage.AssignedVehicleID job'))
  \/ ((JobStorage.Status job = "assigned" \/ JobStorage.Status job = "in_progress")
      /\ JobStorage.Status job' = "completed"
      /\ JobStorage.AssignedVehicleID job' = JobStorage.AssignedVehicleID job).

(** What one call may do to the ledger: a stored job stays stored, keeps
    its order and fare, and moves along its life cycle; an id that was
    free stays free or holds a new job, pending or assigned. *)
Definition ledger_step (m m' : JobStorage.MemoryJobStorage) : Prop :=
  forall id,
    match m !! id with
    | Some job =>
        exists job', m' !! id = Some job' /\ same_order job job'
                     /\ life_cycle job job'
    | None =>
        m' !! id = None
        \/ exists job', m' !! id = Some job' /\ JobStorage.ID job' = id
             /\ (JobStorage.Status job' = "pending"
                 \/ JobStorage.Status job' = "assigned")
    end.

(** What any number of calls leave of a stored job: it is still stored,
    with the same order and fare, and a job that was completed is
    unchanged altogether. *)
Definition history (m m' : JobStorage.MemoryJobStorage) : Prop :=
  forall id job, m !! id = Some job ->
    exists job', m' !! id = Some job' /\ same_order job job'
                 /\ (JobStorage.Status job = "completed" -> job' = job).

(** The statuses the service itself writes. *)
Definition statuses_known (m : JobStorage.MemoryJobStorage) : Prop :=
  forall id job, m !! id = Some job ->
    JobStorage.Status job = "pending" \/ JobStorage.Status job = "assigned"
    \/ JobStorage.Status job = "completed".

(** Every id in the ledger was issued from the counter: it is "ride-n" or
    "delivery-n" for some n between 1 and the counter. *)
Definition ids_issued {F} (j : JobSvc.JobService F) : Prop :=
  forall id, is_Some (JobSvc.storage j !! id) ->
    exists n : Z, (0 < n <= JobSvc.jobCounter j)%Z
      /\ (id = ("ride-" +:+ pretty n)%string
          \/ id = ("delivery-" +:+ pretty n)%string).

(** The listing order of the walkthroughs: that of the map's own
    enumeration. *)
Definition job_listing_order (m : JobStorage.MemoryJobStorage)
  : list JobStorage.Job :=
  (map_to_list m).*2.

(** What one sweep over the pending jobs may do to the ledger: every id
    reads as before, or held a pending job that is now assigned to a
    vehicle, with the same order and fare. *)
Definition sweep_step (m m' : JobStorage.MemoryJobStorage) : Prop :=
  forall id,
    m' !! id = m !! id
    \/ exists job job', m !! id = Some job /\ m' !! id = Some job'
         /\ same_order job job'
         /\ JobStorage.Status job = "pending"
         /\ JobStorage.Status job' = "assigned"
         /\ is_Some (JobStorage.AssignedVehicleID job').

(** The ledger of the walkthroughs: one pending ride, issued as the first
    id, in front of the fleet service holding [v1]. *)
Definition job1 : JobStorage.Job :=
  JobStorage.mkJob "ride-1" "ride" "pending" None 37.7749 (-122.4194) 37.8 (-122.4)
    3 0 None None "customer-1" "us-west-2" None 7.9 2.5 5.4.

Definition jobService2 : JobSvc.JobService (gmap string FleetStorage.Vehicle) :=
  JobSvc.mkJobService {["ride-1" := job1]} fleet1 JobSvc.DefaultPricingConfig None 1.

(** The number of stored jobs with a property; every stored job counts
    once, whatever the order of a listing. *)
Definition count_jobs (P : JobStorage.Job -> Prop) `{!forall job, Decision (P job)}
    (m : JobStorage.MemoryJobStorage) : Z :=
  Z.of_nat (length (filter P (map_to_list m).*2)).

(** ** Charging stations: the distance compared *)

(** The distance [FindNearestChargingStation] compares. *)
Definition stationDistance (vehicleLat vehicleLng : R) (s : Charging.ChargingStation)
  : R :=
  Geo.haversineDistance vehicleLat vehicleLng (Charging.Lat s) (Charging.Lng s).

(** ** Vehicle simulation: the modes of a vehicle *)

Section ModeVocabulary.

Import Simulator.

(** The four modes a simulated vehicle can be in, with what the other
    fields of the state machine are in each: an available vehicle is idle
    and has no job; a busy one has a job, is on its way to the pickup or
    to the destination, and is moving; a charging one has no job and is
    either moving to the station or standing at it; a vehicle in
    maintenance is stranded, standing, without a job.  The job id of the
    vehicle record is never set. *)
Definition mode_consistent (v : Vehicle) : Prop :=
  CurrentJobID v = None
  /\ ((Status v = "available" /\ jobPhase v = "idle" /\ currentJob v = None)
      \/ (Status v = "busy" /\ (jobPhase v = "pickup" \/ jobPhase v = "delivery")
          /\ is_Some (currentJob v) /\ isMoving v = true)
      \/ (Status v = "charging" /\ currentJob v = None
          /\ (jobPhase v = "going_to_charge" /\ isMoving v = true
              \/ jobPhase v = "charging" /\ isMoving v = false))
      \/ (Status v = "maintenance" /\ jobPhase v = "stranded"
          /\ currentJob v = None /\ isMoving v = false)).

(** The fields of the state machine other than [isMoving] are the same. *)
Definition same_mode (v v' : Vehicle) : Prop :=
  Status v' = Status v /\ jobPhase v' = jobPhase v
  /\ currentJob v' = currentJob v /\ CurrentJobID v' = CurrentJobID v.

(** What the depletion handling leaves: a vehicle on its way to a charger
    stands at a charger, charging; any other vehicle is stranded in
    maintenance without a job. *)
Definition depleted (v v' : Vehicle) : Prop :=
  (Status v = "charging" /\ jobPhase v = "going_to_charge"
   /\ Status v' = "charging" /\ jobPhase v' = "charging" /\ isMoving v' = false
   /\ currentJob v' = currentJob v /\ CurrentJobID v' = CurrentJobID v)
  \/ (~ (Status v = "charging" /\ jobPhase v = "going_to_charge")
      /\ Status v' = "maintenance" /\ jobPhase v' = "stranded"
      /\ isMoving v' = false /\ currentJob v' = None
      /\ (CurrentJobID v = None -> CurrentJobID v' = None)).

(** What one movement step leaves: the mode is the same and the vehicle
    keeps moving or has arrived and stands at its target, or the battery
    ran out on the way. *)
Definition move_outcome (v v' : Vehicle) : Prop :=
  same_mode v v'
  /\ (isMoving v' = isMoving v \/ isMoving v' = false /\ distanceToTarget v' = 0)
  \/ depleted v v'.

(** The changes of mode one tick can make: a vehicle in maintenance is
    sent to a charger with its battery at 20; a charging vehicle keeps
    charging or becomes available, then with a battery of at least 95; a
    vehicle ends the tick busy only if it began it busy or available; and
    it ends the tick with a job only if that is the job it had, or it
    began the tick available and the job was polled for it as assigned. *)
Definition mode_transition (e : Tick) (v v' : Vehicle) : Prop :=
  (Status v = "maintenance" ->
     Status v' = "charging" /\ jobPhase v' = "going_to_charge"
     /\ BatteryLevel v' = 20 /\ BatteryRangeKm v' = 20 * batteryDrainRate v)
  /\ (Status v = "charging" ->
        Status v' = "charging" \/ Status v' = "available" /\ 95 <= BatteryLevel v')
  /\ (Status v' = "busy" -> Status v = "busy" \/ Status v = "available")
  /\ (forall job, currentJob v' = Some job ->
        currentJob v = Some job
        \/ Status v = "available"
           /\ exists jobs, polled e = Go.Ok jobs /\ job ∈ jobs
                           /\ jStatus job = "assigned").

End ModeVocabulary.

(** ** Vehicle simulation: job polling *)

(** A job of the list the job service returns that the vehicle [vehicleID]
    would start: assigned to it, with status "assigned". *)
Definition startable (vehicleID : string) (job : Simulator.Job) : Prop :=
  Simulator.jAssignedVehicleID job = Some vehicleID
  /\ Simulator.jStatus job = "assigned".

(** A vehicle standing at the Pioneer Place charger with its battery at
    93, and a tick in which every service is down. *)
Definition at_charger : Simulator.Vehicle :=
  Simulator.mkVehicle "v1" "us-west-2" "charging" 93 372 45.5188 (-122.6746) None
    "sedan" "http://fleet" "http://jobs" 45.5188 (-122.6746) false 4 None
    "charging" None 0.

Definition offline : Simulator.Tick :=
  Simulator.mkTick (Go.Err "connection refused") (Routing.NetworkError "down")
    (Routing.NetworkError "down") (Routing.NetworkError "down") 0.5 0.25 0.75 None.

(** ** Registration: fast calls *)

Section FastRegistrationVocabulary.

Import Registration.

#[local] Open Scope Z_scope.

(** The longest a call of [registerWithFleet] may take for the deadline
    to stay out of the way of all ten attempts. *)
Definition call_limit : Z := 22 * Second.

(** The latest time at which the attempt number [k] can start when every
    call stays within [call_limit]: the waits before it and [k] calls. *)
Fixpoint latest_start (k : nat) : Z :=
  match k with
  | O => 0
  | S k' => latest_start k' + call_limit + backoff k'
  end.

(** A fleet service that refuses the first three calls and accepts the
    fourth, each call taking a second. *)
Definition refused_thrice (k : nat) : Attempt :=
  mkAttempt Second (if (k <? 3)%nat then Some "connection refused"%string else None).

End FastRegistrationVocabulary.

(** A vehicle idling towards a target 0.01 degrees to the north. *)
Definition strolling : Simulator.Vehicle :=
  Simulator.mkVehicle "v1" "us-west-2" "available" 80 320 45.52 (-122.68) None
    "sedan" "http://fleet" "http://jobs" 45.53 (-122.68) true 4 None "idle" None 0.

(** * Properties *)

(** ** Facts about the Go runtime pieces *)

Section GoFacts.

Lemma Atan2_zero_one : Go.Atan2 0 1 = 0.
Proof.
  unfold Go.Atan2.
  destruct (Req_dec_T 0 0) as [_ | Hne]; [| contradiction].
  destruct (Rle_dec 0 1) as [_ | Hn]; [reflexivity | lra].
Qed.

Lemma sin_half_swap (x y : R) :
  sin ((x - y) / 2) * sin ((x - y) / 2) = sin ((y - x) / 2) * sin ((y - x) / 2).
Proof.
  replace ((x - y) / 2) with (- ((y - x) / 2)) by lra.
  rewrite sin_neg. ring.
Qed.

End GoFacts.

(** ** Geo utilities: identity and symmetry *)

Section GeoFacts.

Lemma calculateDistance_same (lat lng : R) :
  Geo.calculateDistance lat lng lat lng = 0.
Proof.
  unfold Geo.calculateDistance; cbv zeta.
  replace (lat * PI / 180 - lat * PI / 180) with 0 by lra.
  replace (lng * PI / 180 - lng * PI / 180) with 0 by lra.
  replace (0 / 2) with 0 by lra.
  rewrite sin_0.
  replace (0 * 0 + cos (lat * PI / 180) * cos (lat * PI / 180) * 0 * 0)
    with 0 by ring.
  rewrite Rminus_0_r, sqrt_0, sqrt_1, Atan2_zero_one. ring.
Qed.

Lemma calculateDistance_sym (lat1 lng1 lat2 lng2 : R) :
  Geo.calculateDistance lat1 lng1 lat2 lng2
  = Geo.calculateDistance lat2 lng2 lat1 lng1.
Proof.
  unfold Geo.calculateDistance; cbv zeta.
  rewrite (sin_half_swap (lat2 * PI / 180) (lat1 * PI / 180)).
  rewrite (Rmult_comm (cos (lat1 * PI / 180)) (cos (lat2 * PI / 180))).
  rewrite !(Rmult_assoc _ (sin ((lng2 * PI / 180 - lng1 * PI / 180) / 2))
              (sin ((lng2 * PI / 180 - lng1 * PI / 180) / 2))).
  rewrite (sin_half_swap (lng2 * PI / 180) (lng1 * PI / 180)).
  rewrite <- !Rmult_assoc. reflexivity.
Qed.

Lemma haversineDistance_same (lat lng : R) :
  Geo.haversineDistance lat lng lat lng = 0.
Proof.
  unfold Geo.haversineDistance; cbv zeta.
  replace ((lat - lat) * (PI / 180) / 2) with 0 by lra.
  replace ((lng - lng) * (PI / 180) / 2) with 0 by lra.
  rewrite sin_0.
  replace (0 * 0 + cos (lat * (PI / 180)) * cos (lat * (PI / 180)) * 0 * 0)
    with 0 by ring.
  rewrite Rminus_0_r, sqrt_0, sqrt_1, Atan2_zero_one. ring.
Qed.

Lemma haversineDistance_sym (lat1 lng1 lat2 lng2 : R) :
  Geo.haversineDistance lat1 lng1 lat2 lng2
  = Geo.haversineDistance lat2 lng2 lat1 lng1.
Proof.
  unfold Geo.haversineDistance; cbv zeta.
  replace ((lat2 - lat1) * (PI / 180) / 2)
    with ((lat2 * (PI / 180) - lat1 * (PI / 180)) / 2) by lra.
  replace ((lat1 - lat2) * (PI / 180) / 2)
    with ((lat1 * (PI / 180) - lat2 * (PI / 180)) / 2) by lra.
  replace ((lng2 - lng1) * (PI / 180) / 2)
    with ((lng2 * (PI / 180) - lng1 * (PI / 180)) / 2) by lra.
  replace ((lng1 - lng2) * (PI / 180) / 2)
    with ((lng1 * (PI / 180) - lng2 * (PI / 180)) / 2) by lra.
  rewrite (sin_half_swap (lat2 * (PI / 180)) (lat1 * (PI / 180))).
  rewrite (Rmult_comm (cos (lat1 * (PI / 180))) (cos (lat2 * (PI / 180)))).
  rewrite !(Rmult_assoc _ (sin ((lng2 * (PI / 180) - lng1 * (PI / 180)) / 2))
              (sin ((lng2 * (PI / 180) - lng1 * (PI / 180)) / 2))).
  rewrite (sin_half_swap (lng2 * (PI / 180)) (lng1 * (PI / 180))).
  rewrite <- !Rmult_assoc. reflexivity.
Qed.

End GeoFacts.

(** ** Dispatcher: nearest qualifying vehicle *)

Section DispatcherFacts.

Import FleetStorage FleetSvc.

Lemma Atan2_le_PI (y x : R) : Go.Atan2 y x <= PI.
Proof.
  pose proof PI_RGT_0 as Hpi.
  unfold Go.Atan2.
  destruct (Req_dec_T y 0) as [Hy | Hy].
  - destruct (Rle_dec 0 x); lra.
  - destruct (Req_dec_T x 0) as [Hx | Hx].
    + destruct (Rlt_dec 0 y); lra.
    + cbv zeta. pose proof (atan_bound (y / x)) as [Hlo Hhi].
      destruct (Rlt_dec x 0); [destruct (Rle_dec (atan (y / x)) 0) |]; lra.
Qed.

Lemma MaxFloat64_large : 50968 < Go.MaxFloat64.
Proof.
  unfold Go.MaxFloat64, Go.MaxFloat64_Z.
  apply (Rlt_le_trans _ (IZR 50969)); [lra |].
  apply IZR_le. lia.
Qed.

Lemma calculateDistance_lt_MaxFloat64 (lat1 lng1 lat2 lng2 : R) :
  Geo.calculateDistance lat1 lng1 lat2 lng2 < Go.MaxFloat64.
Proof.
  unfold Geo.calculateDistance; cbv zeta.
  match goal with |- context [Go.Atan2 ?y ?x] =>
    pose proof (Atan2_le_PI y x) as Hb; set (c := Go.Atan2 y x) in * end.
  pose proof PI_4 as H4. pose proof MaxFloat64_large as HM. lra.
Qed.

Section Loop.

Variables pickupLat pickupLng tripDistanceKm : R.

#[local] Abbreviation dist := (distanceToPickup pickupLat pickupLng).
#[local] Abbreviation enough := (sufficient_range pickupLat pickupLng tripDistanceKm).
#[local] Abbreviation step := (nearest_step pickupLat pickupLng tripDistanceKm).
#[local] Abbreviation inv := (nearest_inv pickupLat pickupLng tripDistanceKm).

Lemma nearest_inv_init : inv [] (None, Go.MaxFloat64).
Proof. split; [reflexivity |]. intros w Hw. inversion Hw. Qed.

Lemma nearest_inv_step seen acc x :
  inv seen acc -> inv (seen ++ [x]) (step acc x).
Proof.
  unfold nearest_inv, nearest_step; cbv zeta.
  fold (distanceToPickup pickupLat pickupLng x).
  destruct acc as [[v |] d]; simpl.
  - intros (Hd & Hv & Hen & Hmin).
    destruct (Rlt_dec (BatteryRangeKm x) ((dist x + tripDistanceKm) * 1.2))
      as [Hlow | Hok]; simpl.
    + repeat split; auto.
      * apply elem_of_app; auto.
      * intros w Hw Hew. apply elem_of_app in Hw as [Hw | Hw]; auto.
        apply list_elem_of_singleton in Hw. subst w. contradiction.
    + destruct (Rlt_dec (dist x) d) as [Hlt | Hge]; simpl.
      * repeat split; auto.
        -- apply elem_of_app; right. apply list_elem_of_singleton; reflexivity.
        -- intros w Hw Hew. apply elem_of_app in Hw as [Hw | Hw].
           ++ specialize (Hmin w Hw Hew). lra.
           ++ apply list_elem_of_singleton in Hw. subst w. lra.
      * repeat split; auto.
        -- apply elem_of_app; auto.
        -- intros w Hw Hew. apply elem_of_app in Hw as [Hw | Hw]; auto.
           apply list_elem_of_singleton in Hw. subst w. lra.
  - intros (Hd & Hnone).
    destruct (Rlt_dec (BatteryRangeKm x) ((dist x + tripDistanceKm) * 1.2))
      as [Hlow | Hok]; simpl.
    + split; auto.
      intros w Hw. apply elem_of_app in Hw as [Hw | Hw]; auto.
      apply list_elem_of_singleton in Hw. subst w. intros Hen. apply Hen, Hlow.
    + subst d.
      destruct (Rlt_dec (dist x) Go.MaxFloat64) as [Hlt | Hge]; simpl.
      * repeat split; auto.
        -- apply elem_of_app; right. apply list_elem_of_singleton; reflexivity.
        -- intros w Hw Hew. apply elem_of_app in Hw as [Hw | Hw].
           ++ exfalso. exact (Hnone w Hw Hew).
           ++ apply list_elem_of_singleton in Hw. subst w. lra.
      * exfalso. apply Hge. apply calculateDistance_lt_MaxFloat64.
Qed.

Lemma nearest_inv_fold (l seen : list Vehicle) acc :
  inv seen acc -> inv (seen ++ l) (fold_left step l acc).
Proof.
  revert seen acc. induction l as [| x l IH]; intros seen acc Hinv; simpl.
  - rewrite app_nil_r. exact Hinv.
  - replace (seen ++ x :: l) with ((seen ++ [x]) ++ l)
      by (rewrite <- app_assoc; reflexivity).
    apply IH. apply nearest_inv_step. exact Hinv.
Qed.

End Loop.

(** The candidates the storage hands to the dispatcher are exactly the
    stored vehicles of the region that are available. *)
Lemma considered_iff range_of (Hrange : range_of_spec range_of)
    (m : gmap string Vehicle) (region status : string) (v : Vehicle) :
  v ∈ filter (fun w => Region w = region /\ Status w = status) (range_of m)
  <-> stored m v /\ Region v = region /\ Status v = status.
Proof.
  rewrite list_elem_of_filter, (Hrange m), list_elem_of_fmap. unfold stored.
  split.
  - intros [HP [[k w] [-> Hkw]]]. apply elem_of_map_to_list in Hkw.
    split; [exists k; exact Hkw | exact HP].
  - intros [[k Hk] HP]. split; [exact HP |].
    exists (k, v). split; [reflexivity | apply elem_of_map_to_list; exact Hk].
Qed.

(** C1. Over any finite store of vehicles and any iteration order of the
    map, [FindNearestAvailableVehicle] considers exactly the stored
    vehicles of the requested region whose status is "available", rejects
    those whose battery range is below
    [(distanceToPickup + tripDistanceKm) * 1.2], returns a qualifying
    vehicle at minimal distance to the pickup point when one exists, and
    returns an error (and no vehicle) precisely when none qualifies. *)
Theorem FindNearestAvailableVehicle_spec range_of
    (Hrange : range_of_spec range_of)
    (m : gmap string Vehicle) (region : string)
    (pickupLat pickupLng tripDistanceKm : R) :
  match FindNearestAvailableVehicle range_of m region
          pickupLat pickupLng tripDistanceKm with
  | Go.Ok best =>
      stored m best
      /\ qualifies region pickupLat pickupLng tripDistanceKm best
      /\ forall w, stored m w ->
           qualifies region pickupLat pickupLng tripDistanceKm w ->
           distanceToPickup pickupLat pickupLng best
           <= distanceToPickup pickupLat pickupLng w
  | Go.Err _ =>
      forall w, stored m w ->
        ~ qualifies region pickupLat pickupLng tripDistanceKm w
  end.
Proof.
  unfold FindNearestAvailableVehicle, GetVehiclesByRegionAndStatus.
  set (cands := filter _ (range_of m)).
  pose proof (nearest_inv_fold pickupLat pickupLng tripDistanceKm cands []
                (None, Go.MaxFloat64)
                (nearest_inv_init pickupLat pickupLng tripDistanceKm)) as Hinv.
  rewrite app_nil_l in Hinv.
  destruct (fold_left _ cands _) as [[best |] d]; unfold nearest_inv in Hinv;
    simpl in Hinv.
  - destruct Hinv as (_ & Hin & Hen & Hmin).
    apply (considered_iff range_of Hrange) in Hin as (Hst & Hreg & Hav).
    split; [exact Hst |]. split; [repeat split; assumption |].
    intros w Hw (Hr & Ha & He). apply Hmin; [| exact He].
    apply (considered_iff range_of Hrange). repeat split; assumption.
  - destruct Hinv as (_ & Hnone). intros w Hw (Hr & Ha & He).
    apply (Hnone w); [| exact He].
    apply (considered_iff range_of Hrange). repeat split; assumption.
Qed.

(** The vehicle the dispatcher returns is one of the directory. *)
Lemma FindNearestAvailableVehicle_found range_of
    (Hrange : range_of_spec range_of)
    (m : gmap string Vehicle) (region : string)
    (pickupLat pickupLng tripDistanceKm : R) (v : Vehicle) :
  FindNearestAvailableVehicle range_of m region pickupLat pickupLng tripDistanceKm
  = Go.Ok v ->
  stored m v.
Proof.
  unfold FindNearestAvailableVehicle, GetVehiclesByRegionAndStatus.
  set (cands := filter _ (range_of m)).
  pose proof (nearest_inv_fold pickupLat pickupLng tripDistanceKm cands []
                (None, Go.MaxFloat64)
                (nearest_inv_init pickupLat pickupLng tripDistanceKm)) as Hinv.
  rewrite app_nil_l in Hinv.
  destruct (fold_left _ cands _) as [[best |] d]; unfold nearest_inv in Hinv;
    simpl in Hinv; [| discriminate].
  intros [= <-]. destruct Hinv as (_ & Hin & _).
  apply (considered_iff range_of Hrange) in Hin as (Hst & _). exact Hst.
Qed.

End DispatcherFacts.

(** ** Job ledger and orchestrator *)

Section JobFacts.

Import JobStorage JobSvc.

Context {F : Type} {client : FleetClient F}.

Lemma stamp_Status now s job : Status (stamp now s job) = Status job.
Proof. unfold stamp. repeat case_decide; reflexivity. Qed.

Lemma stamp_AssignedVehicleID now s job :
  AssignedVehicleID (stamp now s job) = AssignedVehicleID job.
Proof. unfold stamp. repeat case_decide; reflexivity. Qed.

Lemma stamp_completed now job :
  stamp now "completed" job = set_CompletedAt (Some now) job.
Proof. unfold stamp. repeat case_decide; congruence. Qed.

Lemma completed_eq now job :
  stamp now "completed"
    (set_AssignedVehicleID (AssignedVehicleID job) (set_Status "completed" job))
  = completed now job.
Proof. rewrite stamp_completed. destruct job; reflexivity. Qed.

Lemma set_Status_completed now job :
  set_Status "completed" (completed now job) = completed now job.
Proof. destruct job; reflexivity. Qed.

(** C3. [CompleteJob] fails exactly when the job is unknown or its status
    is neither "assigned" nor "in_progress" (so it fails on a pending
    job); a failing call changes nothing, in particular not the stored
    record; a succeeding call leaves the job with status "completed" and
    [CompletedAt] stamped with the current time, every other field of the
    job and every other job being as before. *)
Theorem CompleteJob_spec (now : Z) (j : JobService F) (jobID : string) :
  let rejected :=
    storage j !! jobID = None
    \/ exists job, storage j !! jobID = Some job
                   /\ Status job <> "assigned" /\ Status job <> "in_progress" in
  let '(j', err) := CompleteJob now j jobID in
  (is_Some err <-> rejected)
  /\ (forall job, storage j !! jobID = Some job -> Status job = "pending" ->
        is_Some err)
  /\ (is_Some err -> j' = j)
  /\ (err = None ->
        exists job, storage j !! jobID = Some job
                    /\ storage j' !! jobID = Some (completed now job)
                    /\ Status (completed now job) = "completed"
                    /\ CompletedAt (completed now job) = Some now
                    /\ forall other, other <> jobID ->
                         storage j' !! other = storage j !! other).
Proof.
  unfold CompleteJob, GetJob, UpdateJobStatus.
  destruct (storage j !! jobID) as [job |] eqn:Hjob; cbv zeta.
  - case_decide as Hst.
    + split_and!.
      * split; [intros _; right; exists job; tauto | eauto].
      * eauto.
      * reflexivity.
      * discriminate.
    + rewrite completed_eq.
      assert (Hnp : Status job <> "pending").
      { intros Hp. apply Hst. rewrite Hp. split; discriminate. }
      destruct (streamer (with_storage _ j)) as [sent |] eqn:Hs;
        (split_and!;
         [ split; [intros [x Hx]; discriminate |];
           intros [Hc | (job0 & Heq & Hs')]; [discriminate |];
           injection Heq as <-; contradiction
         | intros job0 Heq Hp; injection Heq as <-; contradiction
         | intros [x Hx]; discriminate
         | intros _; exists job; split_and!; try reflexivity ]).
      * unfold StreamJobEvent; simpl in *. rewrite Hs. simpl.
        rewrite lookup_alter_eq, lookup_insert_eq. simpl.
        rewrite set_Status_completed. reflexivity.
      * intros other Hne. unfold StreamJobEvent; simpl in *. rewrite Hs. simpl.
        rewrite lookup_alter_ne, lookup_insert_ne by congruence. reflexivity.
      * simpl. apply lookup_insert_eq.
      * intros other Hne. simpl. apply lookup_insert_ne. congruence.
  - split_and!.
    + split; [intros _; left; reflexivity | eauto].
    + discriminate.
    + reflexivity.
    + discriminate.
Qed.

Lemma through_lookup (m : MemoryJobStorage) (job job' : Job) :
  m !! ID job = Some job' -> through m job = job'.
Proof. intros Hl. unfold through. rewrite Hl. reflexivity. Qed.

Lemma assignJob_outcome (now : Z) (j : JobService F) (job : Job) :
  storage j !! ID job = Some job ->
  Status job = "pending" -> AssignedVehicleID job = None ->
  forall j' err, assignJob now j job = (j', err) ->
  exists job', storage j' !! ID job = Some job'
    /\ ID job' = ID job
    /\ attempt_outcome j (ID job) (Region job) (PickupLat job) (PickupLng job)
         (EstimatedDistanceKm job) job' (fleet j').
Proof.
  intros Hin Hp Hv j' err. unfold assignJob, attempt_outcome, UpdateJobStatus.
  destruct (FindNearestVehicle _ _ _ _ _) as [vehicle | e].
  - destruct (AssignJob _ _ _) as [fl [e |]].
    + intros [= <- <-]. exists job. simpl. auto.
    + simpl. rewrite Hin.
      destruct (streamer j) as [sent |] eqn:Hs; simpl.
      * unfold StreamJobEvent; simpl. rewrite Hs. intros [= <- <-]. simpl.
        eexists. rewrite lookup_alter_eq, lookup_insert_eq. simpl.
        split; [reflexivity |]. simpl. auto.
      * intros [= <- <-]. simpl. eexists. rewrite lookup_insert_eq.
        split; [reflexivity |].
        rewrite stamp_Status, stamp_AssignedVehicleID.
        unfold stamp; repeat case_decide; simpl; auto.
  - intros [= <- <-]. exists job. auto.
Qed.

Lemma StreamJobEvent_storage ev job (j : JobService F) :
  storage (StreamJobEvent ev job j) = storage j
  /\ fleet (StreamJobEvent ev job j) = fleet j.
Proof. unfold StreamJobEvent. destruct (streamer j); auto. Qed.

Lemma CalculateFare_frame p job :
  ID (CalculateFare p job) = ID job
  /\ Status (CalculateFare p job) = Status job
  /\ AssignedVehicleID (CalculateFare p job) = AssignedVehicleID job
  /\ Region (CalculateFare p job) = Region job
  /\ PickupLat (CalculateFare p job) = PickupLat job
  /\ PickupLng (CalculateFare p job) = PickupLng job
  /\ EstimatedDistanceKm (CalculateFare p job) = EstimatedDistanceKm job.
Proof. unfold CalculateFare. case_decide; simpl; auto 10. Qed.

(** The steps of [CreateRideJob] and [CreateDeliveryJob] that follow the
    construction of the job object; both functions end in these steps. *)
Lemma created_after_persist (now : Z) (j : JobService F) (job : Job)
    (pickupLat pickupLng destLat destLng : R) :
  storage j !! ID job = None ->
  Status job = "pending" -> AssignedVehicleID job = None ->
  PickupLat job = pickupLat -> PickupLng job = pickupLng ->
  EstimatedDistanceKm job
  = Geo.calculateDistance pickupLat pickupLng destLat destLng ->
  created j (ID job) (Region job) pickupLat pickupLng destLat destLng
    (let job := CalculateFare (pricing j) job in
     match CreateJob now (storage j) job with
     | (_, Some err) => (j, Go.Err err)
     | (m, None) =>
         let j := with_storage m j in
         let job := through m job in
         let j := StreamJobEvent "created" job j in
         let '(j, _) := assignJob now j job in
         (j, Go.Ok (through (storage j) job))
     end).
Proof.
  intros Hfresh Hp Hv Hlat Hlng Hd. cbv zeta.
  destruct (CalculateFare_frame (pricing j) job)
    as (Hid & Hst & Hav & Hreg & Hplat & Hplng & Hed).
  set (priced := CalculateFare (pricing j) job) in *.
  unfold CreateJob. rewrite Hid, Hfresh.
  set (obj := set_CreatedAt now priced).
  assert (Hobj : through (<[ID job:=obj]> (storage j)) priced = obj).
  { apply through_lookup. rewrite Hid. apply lookup_insert_eq. }
  rewrite Hobj.
  set (j2 := StreamJobEvent "created" obj _).
  assert (Hj2 : storage j2 = <[ID job:=obj]> (storage j) /\ fleet j2 = fleet j).
  { unfold j2.
    destruct (StreamJobEvent_storage "created" obj
                (with_storage (<[ID job:=obj]> (storage j)) j)) as [-> ->].
    split; reflexivity. }
  destruct Hj2 as [Hs2 Hf2].
  assert (Hido : ID obj = ID job) by (unfold obj; simpl; exact Hid).
  destruct (assignJob now j2 obj) as [j3 err] eqn:Hassign.
  destruct (assignJob_outcome now j2 obj) with (j' := j3) (err := err)
    as (job' & Hl & Hid' & Hout).
  - rewrite Hs2, Hido. apply lookup_insert_eq.
  - unfold obj; simpl. congruence.
  - unfold obj; simpl. congruence.
  - exact Hassign.
  - exists job'. simpl.
    rewrite (through_lookup (storage j3) obj job' Hl).
    split; [reflexivity |]. split; [congruence |].
    split; [rewrite <- Hido; exact Hl |].
    unfold attempt_outcome in *. rewrite Hf2 in Hout.
    replace (Region obj) with (Region job) in Hout by (unfold obj; simpl; congruence).
    replace (PickupLat obj) with pickupLat in Hout by (unfold obj; simpl; congruence).
    replace (PickupLng obj) with pickupLng in Hout by (unfold obj; simpl; congruence).
    replace (EstimatedDistanceKm obj)
      with (Geo.calculateDistance pickupLat pickupLng destLat destLng) in Hout
      by (unfold obj; simpl; congruence).
    rewrite Hido in Hout. exact Hout.
Qed.

Lemma CreateRideJob_created (now : Z) (j : JobService F)
    (customerID region : string) (pickupLat pickupLng destLat destLng : R) :
  let n := wrap64 (jobCounter j + 1) in
  storage j !! ("ride-" +:+ pretty n)%string = None ->
  created j ("ride-" +:+ pretty n)%string region
    pickupLat pickupLng destLat destLng
    (CreateRideJob now j customerID region pickupLat pickupLng destLat destLng).
Proof.
  cbv zeta. intros Hfresh.
  apply (created_after_persist now (with_jobCounter (wrap64 (jobCounter j + 1)) j)
           (mkJob ("ride-" +:+ pretty (wrap64 (jobCounter j + 1))) "ride" "pending"
              None pickupLat pickupLng destLat destLng
              (Geo.calculateDistance pickupLat pickupLng destLat destLng)
              now None None customerID region None 0 0 0)
           pickupLat pickupLng destLat destLng); auto.
Qed.

Lemma CreateDeliveryJob_created (now : Z) (j : JobService F)
    (customerID region : string) (pickupLat pickupLng destLat destLng : R)
    (details : option DeliveryDetails) :
  let n := wrap64 (jobCounter j + 1) in
  storage j !! ("delivery-" +:+ pretty n)%string = None ->
  created j ("delivery-" +:+ pretty n)%string region
    pickupLat pickupLng destLat destLng
    (CreateDeliveryJob now j customerID region
       pickupLat pickupLng destLat destLng details).
Proof.
  cbv zeta. intros Hfresh.
  apply (created_after_persist now (with_jobCounter (wrap64 (jobCounter j + 1)) j)
           (mkJob ("delivery-" +:+ pretty (wrap64 (jobCounter j + 1))) "delivery"
              "pending" None pickupLat pickupLng destLat destLng
              (Geo.calculateDistance pickupLat pickupLng destLat destLng)
              now None None customerID region details 0 0 0)
           pickupLat pickupLng destLat destLng); auto.
Qed.

End JobFacts.

Section JobFleetFacts.

Import JobStorage JobSvc.




End JobFleetFacts.


(** ** Vehicle simulation: the battery *)

Section BatteryFacts.

Import Simulator.

Lemma battery_step_refl v : battery_step v v.
Proof. split_and!; [reflexivity | left; split; reflexivity | auto]. Qed.

Lemma battery_step_trans v1 v2 v3 :
  battery_step v1 v2 -> battery_step v2 v3 -> battery_step v1 v3.
Proof.
  intros (Hr1 & Hs1 & Hb1) (Hr2 & Hs2 & Hb2). split_and!.
  - congruence.
  - destruct Hs2 as [[Hl Hk] | Hc]; [| right; exact Hc].
    destruct Hs1 as [[Hl1 Hk1] | Hc1].
    + left. split; congruence.
    + right. unfold range_consistent in *. congruence.
  - intros Hpos Hin. apply Hb2; [rewrite Hr1; exact Hpos | auto].
Qed.

Lemma battery_step_frame v v' :
  batteryDrainRate v' = batteryDrainRate v ->
  BatteryLevel v' = BatteryLevel v ->
  BatteryRangeKm v' = BatteryRangeKm v ->
  battery_step v v'.
Proof.
  intros Hr Hl Hk. split_and!; [exact Hr | left; split; assumption |].
  unfold level_in_bounds. rewrite Hl. auto.
Qed.

Lemma battery_step_set v v' (level : R) :
  batteryDrainRate v' = batteryDrainRate v ->
  BatteryLevel v' = level ->
  BatteryRangeKm v' = level * batteryDrainRate v ->
  (0 < batteryDrainRate v -> level_in_bounds v -> 0 <= level <= 100) ->
  battery_step v v'.
Proof.
  intros Hr Hl Hk Hb. split_and!; [exact Hr | right |].
  - unfold range_consistent. rewrite Hk, Hl, Hr. reflexivity.
  - unfold level_in_bounds at 2. rewrite Hl. exact Hb.
Qed.

(** Closing a frame goal: the operation is made of setters of other
    fields. *)
Ltac frame := apply battery_step_frame; reflexivity.

Lemma handleBatteryDepletion_step v : battery_step v (handleBatteryDepletion v).
Proof.
  unfold handleBatteryDepletion. case_decide.
  - apply (battery_step_set _ _ 5); try reflexivity. intros _ _. lra.
  - destruct (currentJob _); frame.
Qed.

Lemma drainBattery_step km v : battery_step v (drainBattery km v).
Proof.
  unfold drainBattery. destruct (Rle_dec km 0) as [Hkm | Hkm].
  - apply battery_step_refl.
  - cbv zeta.
    set (v1 := set_BatteryRangeKm _ (set_BatteryLevel _ v)).
    assert (Hv1 : battery_step v v1).
    { apply (battery_step_set _ _ (Go.Max 0 (BatteryLevel v - km / batteryDrainRate v)));
        try reflexivity.
      intros Hpos [Hlo Hhi]. unfold Go.Max, Rmax.
      assert (0 < km / batteryDrainRate v).
      { apply Rdiv_lt_0_compat; lra. }
      destruct (Rle_dec 0 (BatteryLevel v - km / batteryDrainRate v)); lra. }
    destruct (Req_dec_T (BatteryLevel v1) 0); [| exact Hv1].
    eapply battery_step_trans; [exact Hv1 | apply handleBatteryDepletion_step].
Qed.

Lemma setRouteTarget_step reply lat lng v :
  battery_step v (setRouteTarget reply lat lng v).
Proof. unfold setRouteTarget. cbv zeta. destruct (Routing.GetRoute _ _ _ _ _); frame. Qed.

Lemma goToCharge_step reply v : battery_step v (goToCharge reply v).
Proof.
  unfold goToCharge. cbv zeta.
  apply (battery_step_trans _ (set_Status "charging" v)); [frame |].
  eapply battery_step_trans; [apply setRouteTarget_step | frame].
Qed.

Lemma moveTowardsTarget_step speed v : battery_step v (moveTowardsTarget speed v).
Proof.
  unfold moveTowardsTarget. destruct (Rle_dec _ _).
  - apply handleBatteryDepletion_step.
  - cbv zeta. destruct (Rlt_dec _ _); [frame |].
    eapply battery_step_trans; [| apply drainBattery_step]. frame.
Qed.

Lemma moveAlongRoute_step speed v : battery_step v (moveAlongRoute speed v).
Proof.
  unfold moveAlongRoute. destruct (Rle_dec _ _).
  - apply handleBatteryDepletion_step.
  - destruct (currentRoute v) as [route |]; [| apply moveTowardsTarget_step].
    destruct (Routing.Points route) as [| p ps] eqn:Hps;
      [apply moveTowardsTarget_step |].
    destruct (_ !! _) as [nextPoint |]; [| frame].
    cbv zeta. eapply battery_step_trans; [| apply drainBattery_step].
    destruct (Rlt_dec _ _); frame.
Qed.

Lemma setRandomTarget_step a b radius v :
  battery_step v (setRandomTarget a b radius v).
Proof. unfold setRandomTarget. frame. Qed.

Lemma startJob_step reply job v : battery_step v (startJob reply job v).
Proof.
  unfold startJob. cbv zeta.
  eapply battery_step_trans; [| apply setRouteTarget_step]. frame.
Qed.

Lemma checkForJobs_step polled reply v :
  battery_step v (checkForJobs polled reply v).
Proof.
  unfold checkForJobs. case_decide; [apply battery_step_refl |].
  destruct polled as [jobs | err]; [| apply battery_step_refl].
  destruct (List.find _ jobs); [apply startJob_step | apply battery_step_refl].
Qed.

Lemma simulateIdleBehavior_step chance a b speed v :
  battery_step v (simulateIdleBehavior chance a b speed v).
Proof.
  unfold simulateIdleBehavior. destruct (negb (isMoving v)).
  - destruct (Rlt_dec _ _); [| apply battery_step_refl].
    eapply battery_step_trans; [apply (setRandomTarget_step a b 0.01) | frame].
  - apply moveTowardsTarget_step.
Qed.

Lemma completeCurrentJob_step v : battery_step v (completeCurrentJob v).
Proof. unfold completeCurrentJob. destruct (currentJob v); [frame | apply battery_step_refl]. Qed.

Lemma simulateJobExecution_step reply speed v :
  battery_step v (simulateJobExecution reply speed v).
Proof.
  unfold simulateJobExecution. destruct (currentJob v) as [job |]; [| frame].
  destruct (Rle_dec _ _).
  - cbv zeta. eapply battery_step_trans; [| apply goToCharge_step]. frame.
  - destruct (isMoving v); [| apply battery_step_refl]. cbv zeta.
    eapply battery_step_trans; [apply moveAlongRoute_step |].
    destruct (Rlt_dec _ _); [| apply battery_step_refl].
    repeat case_decide.
    + destruct (currentJob _); [| frame].
      eapply battery_step_trans; [| apply setRouteTarget_step]. frame.
    + apply completeCurrentJob_step.
    + apply battery_step_refl.
Qed.

Lemma simulateMaintenance_step reply v :
  battery_step v (simulateMaintenance reply v).
Proof.
  unfold simulateMaintenance. case_decide; [| apply battery_step_refl]. cbv zeta.
  eapply battery_step_trans; [| apply goToCharge_step].
  apply (battery_step_set _ _ 20); try reflexivity. intros _ _. lra.
Qed.

Lemma simulateCharging_step speed v : battery_step v (simulateCharging speed v).
Proof.
  unfold simulateCharging. case_decide.
  - cbv zeta. eapply battery_step_trans; [apply moveAlongRoute_step |].
    destruct (Rlt_dec _ _); [frame | apply battery_step_refl].
  - case_decide; [| apply battery_step_refl].
    destruct (Rlt_dec (BatteryLevel v) 95) as [Hlow | Hfull]; [| frame].
    apply (battery_step_set _ _ (BatteryLevel v + 2)); try reflexivity.
    intros _ [Hlo Hhi]. lra.
Qed.

Lemma simulationStep_step e v : battery_step v (simulationStep e v).
Proof.
  unfold simulationStep. cbv zeta.
  set (v1 := checkForJobs _ _ v).
  assert (H1 : battery_step v v1) by apply checkForJobs_step.
  set (v2 := if decide (Status v1 = "available") then _ else _).
  assert (H2 : battery_step v1 v2).
  { unfold v2. repeat case_decide.
    - apply simulateIdleBehavior_step.
    - apply simulateJobExecution_step.
    - apply simulateCharging_step.
    - apply simulateMaintenance_step.
    - apply battery_step_refl. }
  apply (battery_step_trans _ v1); [exact H1 |].
  apply (battery_step_trans _ v2); [exact H2 |].
  destruct (Rle_dec _ _); [| apply battery_step_refl].
  case_decide; [apply goToCharge_step | apply battery_step_refl].
Qed.

Lemma simulationLoop_step es v : battery_step v (simulationLoop es v).
Proof.
  unfold simulationLoop. revert v.
  induction es as [| e es IH]; intros v; simpl.
  - apply battery_step_refl.
  - eapply battery_step_trans; [apply simulationStep_step | apply IH].
Qed.

(** C10. [drainBattery] called with a distance that is zero or negative
    returns at once: the vehicle it leaves is the vehicle it was given, in
    every field, so neither level nor range moves and the depletion
    handling does not run, even at level 0. *)
Theorem drainBattery_nonpositive_noop (km : R) (v : Vehicle) :
  km <= 0 -> drainBattery km v = v.
Proof.
  intros Hkm. unfold drainBattery.
  destruct (Rle_dec km 0) as [_ | Hn]; [reflexivity | contradiction].
Qed.

(** C4, as the code has it.  For a distance [km > 0], [drainBattery] brings
    the level to [max(0, b - km / r)], a real number that is not rounded
    (at [r = 4], 0.001 km takes 0.00025 points off a level above that);
    the resulting level is never negative.  A drain that exceeds the
    remaining battery leaves the level at exactly 0, except on a vehicle
    that is on its way to a charging station: there the depletion recovery
    runs inside [drainBattery] and the level it leaves is 5. *)
Theorem drainBattery_level (km : R) (v : Vehicle) :
  0 < km ->
  let drained := Go.Max 0 (BatteryLevel v - km / batteryDrainRate v) in
  (en_route_to_charger v /\ drained = 0 -> BatteryLevel (drainBattery km v) = 5)
  /\ (~ (en_route_to_charger v /\ drained = 0) ->
      BatteryLevel (drainBattery km v) = drained)
  /\ 0 <= BatteryLevel (drainBattery km v)
  /\ (batteryDrainRate v = 4 -> km = 0.001 -> 0.00025 < BatteryLevel v ->
      BatteryLevel (drainBattery km v) = BatteryLevel v - 0.00025)
  /\ (~ en_route_to_charger v -> 0 < batteryDrainRate v ->
      BatteryLevel v * batteryDrainRate v <= km ->
      BatteryLevel (drainBattery km v) = 0).
Proof.
  intros Hkm. cbv zeta. unfold drainBattery.
  destruct (Rle_dec km 0) as [Hn | _]; [lra |]. cbv zeta.
  set (drained := Go.Max 0 (BatteryLevel v - km / batteryDrainRate v)).
  set (v1 := set_BatteryRangeKm _ (set_BatteryLevel drained v)).
  assert (Hl1 : BatteryLevel v1 = drained) by reflexivity.
  assert (Hnn : 0 <= drained).
  { unfold drained, Go.Max, Rmax. destruct (Rle_dec _ _); lra. }
  assert (Hdep : en_route_to_charger v ->
                 BatteryLevel (handleBatteryDepletion v1) = 5).
  { intros [Hs Hp]. unfold handleBatteryDepletion.
    case_decide as Hd; [reflexivity |]. exfalso. apply Hd. split; assumption. }
  assert (Hstr : ~ en_route_to_charger v ->
                 BatteryLevel (handleBatteryDepletion v1) = drained).
  { intros Hne. unfold handleBatteryDepletion.
    case_decide as Hd; [exfalso; apply Hne; exact Hd |].
    destruct (currentJob _); reflexivity. }
  assert (Hcases : (en_route_to_charger v /\ drained = 0
                    /\ BatteryLevel
                         (if Req_dec_T (BatteryLevel v1) 0
                          then handleBatteryDepletion v1 else v1) = 5)
                   \/ (~ (en_route_to_charger v /\ drained = 0)
                       /\ BatteryLevel
                            (if Req_dec_T (BatteryLevel v1) 0
                             then handleBatteryDepletion v1 else v1) = drained)).
  { destruct (Req_dec_T (BatteryLevel v1) 0) as [Hz | Hnz].
    - destruct (decide (en_route_to_charger v)) as [He | Hne].
      + left. rewrite Hl1 in Hz. auto.
      + right. split; [tauto | auto].
    - right. split; [| exact Hl1]. rewrite Hl1 in Hnz. tauto. }
  split_and!.
  - intros Hyes. destruct Hcases as [(_ & _ & H5) | (Hno & _)]; tauto.
  - intros Hno. destruct Hcases as [(He & Hz & _) | (_ & Hd)]; tauto.
  - destruct Hcases as [(_ & _ & ->) | (_ & ->)]; lra.
  - intros Hr -> Hb.
    assert (Hd : drained = BatteryLevel v - 0.00025).
    { unfold drained, Go.Max, Rmax. rewrite Hr.
      destruct (Rle_dec _ _); lra. }
    destruct Hcases as [(_ & Hz & _) | (_ & ->)]; lra.
  - intros Hne Hpos Hover.
    assert (Hd : drained = 0).
    { unfold drained, Go.Max, Rmax.
      assert (BatteryLevel v <= km / batteryDrainRate v).
      { apply Rmult_le_reg_r with (batteryDrainRate v); [exact Hpos |].
        unfold Rdiv. rewrite Rmult_assoc, Rinv_l; lra. }
      destruct (Rle_dec _ _); lra. }
    destruct Hcases as [(He & _) | (_ & ->)]; [contradiction | exact Hd].
Qed.

Lemma Max_0_towed : Go.Max 0 (BatteryLevel towed - 8 / batteryDrainRate towed) = 0.
Proof.
  unfold Go.Max, Rmax. simpl. destruct (Rle_dec _ _); lra.
Qed.

(** C4, the claim as stated fails: draining 8 km from [towed] (rate 4,
    level 1) should leave [max(0, 1 - 8/4) = 0], and the code leaves 5. *)
Lemma drainBattery_clamp_counterexample :
  0 < 8 /\ batteryDrainRate towed = 4
  /\ Go.Max 0 (BatteryLevel towed - 8 / batteryDrainRate towed) = 0
  /\ BatteryLevel (drainBattery 8 towed) = 5
  /\ BatteryLevel (drainBattery 8 towed)
     <> Go.Max 0 (BatteryLevel towed - 8 / batteryDrainRate towed).
Proof.
  assert (H5 : BatteryLevel (drainBattery 8 towed) = 5).
  { unfold drainBattery. destruct (Rle_dec 8 0) as [Hn | _]; [lra |]. cbv zeta.
    rewrite Max_0_towed.
    destruct (Req_dec_T _ 0) as [_ | Hnz]; [| exfalso; apply Hnz; reflexivity].
    unfold handleBatteryDepletion.
    case_decide as Hd; [reflexivity |].
    exfalso. apply Hd. split; reflexivity. }
  split_and!; [lra | reflexivity | apply Max_0_towed | exact H5 |].
  rewrite H5, Max_0_towed. lra.
Qed.

(** The witness of [drainBattery_level]: the same drain on [towed]. *)
Lemma drainBattery_level_witness :
  0 < 8 /\ BatteryLevel (drainBattery 8 towed) = 5.
Proof.
  split; [lra |].
  apply (drainBattery_level 8 towed); [lra |].
  split; [split; reflexivity | apply Max_0_towed].
Defined.

(** The witness of [drainBattery_nonpositive_noop]: no distance, empty
    battery. *)
Lemma drainBattery_nonpositive_noop_witness :
  0 <= 0 /\ drainBattery 0 (set_BatteryLevel 0 towed) = set_BatteryLevel 0 towed.
Proof.
  split; [lra |].
  apply (drainBattery_nonpositive_noop 0 (set_BatteryLevel 0 towed)). lra.
Defined.

Lemma battery_step_follows v v' :
  battery_step v v' -> range_follows_level v v'.
Proof.
  intros (Hr & [[Hl Hk] | Hc] & _); split_and!; auto; try contradiction.
  unfold range_consistent. congruence.
Qed.

(** C5. Every operation of the simulator that touches the battery
    ([drainBattery], the charging step, the depletion recovery, the
    maintenance recovery) and a whole tick of the simulation loop leave
    [BatteryRangeKm = BatteryLevel * batteryDrainRate] whenever they change
    the level or the range: the range is never moved on its own. *)
Theorem range_recomputed_from_level (v : Vehicle) (km : R) (speed : option R)
    (reply : Routing.OSRMReply) (e : Tick) (es : list Tick) :
  (forall r id region fleetURL jobURL lat lng,
     range_consistent (NewVehicle r id region fleetURL jobURL lat lng))
  /\ range_follows_level v (drainBattery km v)
  /\ range_follows_level v (simulateCharging speed v)
  /\ range_follows_level v (handleBatteryDepletion v)
  /\ range_follows_level v (simulateMaintenance reply v)
  /\ range_follows_level v (simulationStep e v)
  /\ range_follows_level v (simulationLoop es v).
Proof.
  split_and!; [intros; reflexivity | apply battery_step_follows ..].
  - apply drainBattery_step.
  - apply simulateCharging_step.
  - apply handleBatteryDepletion_step.
  - apply simulateMaintenance_step.
  - apply simulationStep_step.
  - apply simulationLoop_step.
Qed.

Lemma NewVehicle_level (r : Z) id region fleetURL jobURL lat lng :
  (0 <= r < 40)%Z ->
  60 <= BatteryLevel (NewVehicle r id region fleetURL jobURL lat lng) < 100
  /\ batteryDrainRate (NewVehicle r id region fleetURL jobURL lat lng) = 4.
Proof.
  intros [Hlo Hhi]. simpl. split; [split |].
  - apply (IZR_le 60 (r + 60)). lia.
  - apply (IZR_lt (r + 60) 100). lia.
  - lra.
Qed.

(** C9. The battery level stays a percentage.  A new vehicle starts with
    a level in [60, 100) (for the value [rand.Intn(40)] can return) and
    drain rate 4; from a level within [0, 100] and a positive drain rate,
    [drainBattery], the charging step, the depletion recovery, the
    maintenance recovery, a tick of the simulation loop and any run of it
    lead to a level within [0, 100], so every state a simulated vehicle
    reaches has one.  The charging step adds 2 points only below 95 and so
    never ends above 97; the depletion recovery of a vehicle on its way to
    a charger sets the level to 5; the maintenance recovery of a stranded
    vehicle sets it to 20. *)
Theorem battery_level_within_bounds (v : Vehicle) :
  0 < batteryDrainRate v -> level_in_bounds v ->
  (forall km speed reply e es,
     level_in_bounds (drainBattery km v)
     /\ level_in_bounds (simulateCharging speed v)
     /\ level_in_bounds (handleBatteryDepletion v)
     /\ level_in_bounds (simulateMaintenance reply v)
     /\ level_in_bounds (simulationStep e v)
     /\ level_in_bounds (simulationLoop es v))
  /\ (forall r id region fleetURL jobURL lat lng es,
        (0 <= r < 40)%Z ->
        60 <= BatteryLevel (NewVehicle r id region fleetURL jobURL lat lng) < 100
        /\ level_in_bounds
             (simulationLoop es (NewVehicle r id region fleetURL jobURL lat lng)))
  /\ (forall km, 0 <= BatteryLevel (drainBattery km v))
  /\ (forall speed, jobPhase v = "charging" ->
        (BatteryLevel v < 95 ->
         BatteryLevel (simulateCharging speed v) = BatteryLevel v + 2
         /\ BatteryLevel (simulateCharging speed v) < 97)
        /\ (95 <= BatteryLevel v ->
            BatteryLevel (simulateCharging speed v) = BatteryLevel v))
  /\ (en_route_to_charger v -> BatteryLevel (handleBatteryDepletion v) = 5)
  /\ (forall reply, jobPhase v = "stranded" ->
        BatteryLevel (simulateMaintenance reply v) = 20).
Proof.
  intros Hpos Hin. split_and!.
  - intros km speed reply e es. split_and!.
    + apply (drainBattery_step km v); assumption.
    + apply (simulateCharging_step speed v); assumption.
    + apply (handleBatteryDepletion_step v); assumption.
    + apply (simulateMaintenance_step reply v); assumption.
    + apply (simulationStep_step e v); assumption.
    + apply (simulationLoop_step es v); assumption.
  - intros r id region fleetURL jobURL lat lng es Hr.
    destruct (NewVehicle_level r id region fleetURL jobURL lat lng Hr) as [Hl Hrate].
    split; [exact Hl |].
    apply (simulationLoop_step es (NewVehicle r id region fleetURL jobURL lat lng)).
    + rewrite Hrate. lra.
    + unfold level_in_bounds. lra.
  - intros km. apply (drainBattery_step km v); assumption.
  - intros speed Hph. unfold simulateCharging.
    case_decide as Hmv; [destruct Hmv as [_ Hg]; rewrite Hph in Hg; discriminate |].
    case_decide as Hc; [| contradiction].
    destruct (Rlt_dec (BatteryLevel v) 95) as [Hlow | Hfull]; simpl; split; intros; lra.
  - intros Hen. unfold handleBatteryDepletion.
    case_decide as Hd; [reflexivity | contradiction].
  - intros reply Hph. unfold simulateMaintenance.
    case_decide as Hd; [| contradiction]. cbv zeta.
    match goal with |- BatteryLevel (goToCharge ?r ?w) = _ =>
      destruct (goToCharge_step r w) as (_ & [[Hl _] | Hc] & _) end.
    + rewrite Hl. reflexivity.
    + unfold goToCharge, setRouteTarget. cbv zeta.
      destruct (Routing.GetRoute _ _ _ _ _); reflexivity.
Qed.

(** The witness of [battery_level_within_bounds]: the vehicle [towed]. *)
Lemma battery_level_within_bounds_witness :
  BatteryLevel (handleBatteryDepletion towed) = 5
  /\ level_in_bounds (drainBattery 8 towed).
Proof.
  assert (Hpos : 0 < batteryDrainRate towed) by (simpl; lra).
  assert (Hin : level_in_bounds towed) by (unfold level_in_bounds; simpl; lra).
  pose proof (battery_level_within_bounds towed Hpos Hin) as (Hops & _ & _ & _ & H5 & _).
  split.
  - apply H5. split; reflexivity.
  - apply (Hops 8 None (Routing.NetworkError "down")
             (mkTick (Go.Err "down") (Routing.NetworkError "down")
                (Routing.NetworkError "down") (Routing.NetworkError "down")
                0 0 0 None) []).
Defined.

End BatteryFacts.

(** ** Geo utilities: the distance functions of both services *)

Section DistanceFacts.

(** C8. Both great-circle distance functions, [calculateDistance] of the
    fleet service and [haversineDistance] of the simulator, give 0 for two
    identical points and the same distance in both directions.  (Over the
    real numbers the equalities are exact; the tolerance of the claim is
    the rounding of [float64].) *)
Theorem distance_identity_and_symmetry (lat1 lng1 lat2 lng2 : R) :
  Geo.calculateDistance lat1 lng1 lat1 lng1 = 0
  /\ Geo.calculateDistance lat1 lng1 lat2 lng2
     = Geo.calculateDistance lat2 lng2 lat1 lng1
  /\ Geo.haversineDistance lat1 lng1 lat1 lng1 = 0
  /\ Geo.haversineDistance lat1 lng1 lat2 lng2
     = Geo.haversineDistance lat2 lng2 lat1 lng1.
Proof.
  split_and!.
  - apply calculateDistance_same.
  - apply calculateDistance_sym.
  - apply haversineDistance_same.
  - apply haversineDistance_sym.
Qed.

End DistanceFacts.

(** ** Routing stub: the straight-line fallback *)

Section RoutingFacts.

Import Routing.

Lemma createStraightLineRoute_points startLat startLng endLat endLng (i : nat) :
  (i <= 10)%nat ->
  Points (createStraightLineRoute startLat startLng endLat endLng) !! i
  = Some (interpolated startLat startLng endLat endLng i).
Proof.
  intros Hi. unfold createStraightLineRoute, interpolated. cbv zeta.
  do 11 (destruct i as [| i]; [simpl; do 2 f_equal; lra |]). lia.
Qed.

(** C6. When the routing call fails, [GetRoute] returns, without an
    error, the straight-line route: eleven points, point [i] at ratio
    [i / 10] between start and end, the first being the start and the last
    the end; its distance is the haversine distance in km times 1000 and
    its duration the distance divided by 13.89.  The construction is a
    total function: it cannot fail. *)
Theorem GetRoute_fallback (reply : OSRMReply) (startLat startLng endLat endLng : R) :
  routing_failed reply ->
  exists route,
    GetRoute reply startLat startLng endLat endLng = Go.Ok route
    /\ route = createStraightLineRoute startLat startLng endLat endLng
    /\ length (Points route) = 11%nat
    /\ (forall i, (i <= 10)%nat ->
          Points route !! i = Some (interpolated startLat startLng endLat endLng i))
    /\ Points route !! 0%nat = Some (mkRoutePoint startLat startLng)
    /\ Points route !! 10%nat = Some (mkRoutePoint endLat endLng)
    /\ Distance route
       = Geo.haversineDistance startLat startLng endLat endLng * 1000
    /\ Duration route = Distance route / 13.89.
Proof.
  intros Hfail.
  exists (createStraightLineRoute startLat startLng endLat endLng). split_and!.
  - destruct reply as [err | err | resp]; simpl in *; try reflexivity.
    rewrite Hfail. reflexivity.
  - reflexivity.
  - reflexivity.
  - intros i Hi. apply createStraightLineRoute_points. exact Hi.
  - rewrite createStraightLineRoute_points by lia.
    unfold interpolated. simpl. do 2 f_equal; lra.
  - rewrite createStraightLineRoute_points by lia.
    unfold interpolated. simpl. do 2 f_equal; lra.
  - reflexivity.
  - reflexivity.
Qed.

(** The witness of [GetRoute_fallback]: the routing server is down. *)
Lemma GetRoute_fallback_witness :
  exists route,
    GetRoute (NetworkError "timeout") 45.5152 (-122.6784) 45.5898 (-122.5951)
    = Go.Ok route
    /\ length (Points route) = 11%nat.
Proof.
  destruct (GetRoute_fallback (NetworkError "timeout")
              45.5152 (-122.6784) 45.5898 (-122.5951) I)
    as (route & Hget & _ & Hlen & _).
  exists route. split; assumption.
Defined.

End RoutingFacts.

(** ** Registration: the retry schedule *)

Section RegistrationFacts.

Import Registration.

#[local] Open Scope Z_scope.

Lemma backoff_S (k : nat) : backoff (S k) = nextDelay (backoff k).
Proof. reflexivity. Qed.

Lemma nextDelay_min (d : Z) : nextDelay d = Z.min maxDelay ((d * 3) ÷ 2).
Proof.
  unfold nextDelay. cbv zeta.
  destruct (Z.ltb_spec maxDelay ((d * 3) ÷ 2)); lia.
Qed.

Lemma backoff_le_maxDelay (k : nat) : backoff k <= maxDelay.
Proof.
  destruct k as [| k].
  - vm_compute. discriminate.
  - rewrite backoff_S, nextDelay_min. lia.
Qed.

Lemma retryLoop_spec (calls : nat -> Attempt) (togo attempt : nat)
    (clock : Z) (lastErr : string) (begun : list Z) :
  (togo + attempt = maxRetries)%nat -> (1 <= togo)%nat ->
  clock < deadline -> Forall (fun t => t < deadline) begun ->
  let run := retryLoop calls togo attempt clock (backoff attempt) lastErr begun
               (map backoff (seq 0 attempt)) in
  (attempt < attempts run <= maxRetries)%nat
  /\ slept run = map backoff (seq 0 (attempts run - 1))
  /\ (returned run = None <-> outcome (calls (attempts run - 1)%nat) = None)
  /\ Forall (fun t => t < deadline) (started run).
Proof.
  revert attempt clock lastErr begun.
  induction togo as [| togo IH];
    intros attempt clock lastErr begun Hsum Hpos Hclock Hbegun; [lia |].
  cbv zeta. cbn [retryLoop].
  assert (Hlast : (S attempt - 1 = attempt)%nat) by lia.
  assert (Hb : (attempt < S attempt <= maxRetries)%nat)
    by (clear IH; unfold maxRetries in *; lia).
  assert (Hnext : attempt <> (maxRetries - 1)%nat ->
                  (togo + S attempt = maxRetries)%nat /\ (1 <= togo)%nat)
    by (clear IH; unfold maxRetries in *; lia).
  assert (Hbegun' : Forall (fun t => t < deadline) (begun ++ [clock])).
  { apply Forall_app. split; [exact Hbegun |]. constructor; [exact Hclock | constructor]. }
  destruct (outcome (calls attempt)) as [err |] eqn:Hout.
  - match goal with |- context [(attempt =? ?n)%nat] =>
      destruct (Nat.eqb_spec attempt n) as [Heq | Hne] end.
    + cbn [attempts slept returned started]. rewrite Hlast, Hout.
      split; [exact Hb |]. split; [reflexivity |].
      split; [split; discriminate | exact Hbegun'].
    + destruct (Z.ltb_spec (clock + took (calls attempt) + backoff attempt) deadline)
        as [Hin | Hout'].
      * replace (map backoff (seq 0 attempt) ++ [backoff attempt])
          with (map backoff (seq 0 (S attempt)))
          by (rewrite seq_S, map_app; reflexivity).
        rewrite <- backoff_S.
        destruct (IH (S attempt) (clock + took (calls attempt) + backoff attempt) err
                    (begun ++ [clock]))
          as (Hatt & Hslept & Hret & Hst).
        -- apply Hnext, Hne.
        -- apply Hnext, Hne.
        -- exact Hin.
        -- exact Hbegun'.
        -- split; [lia |]. split; [assumption |]. split; assumption.
      * cbn [attempts slept returned started]. rewrite Hlast, Hout.
        split; [exact Hb |]. split; [reflexivity |].
        split; [split; discriminate | exact Hbegun'].
  - cbn [attempts slept returned started]. rewrite Hlast, Hout.
    split; [exact Hb |]. split; [reflexivity |].
    split; [split; reflexivity | exact Hbegun'].
Qed.

(** C7, what the code does.  Whatever the calls of [registerWithFleet]
    answer and however long they take, [registerWithFleetRetry] makes at
    least one and at most 10 attempts; the delays it sleeps through are
    the first ones of one fixed list, 1 s, then each time one and a half
    times the previous delay capped at 30 s, so the delay before a retry
    depends on nothing but its number: there is no jitter; every attempt
    starts before the 5-minute deadline; it returns nil exactly when its
    last attempt succeeded, and an error otherwise (after the tenth
    failure, or when the deadline cuts a wait short), which [Start] hands
    on to its caller. *)
Theorem registerWithFleetRetry_schedule (calls : nat -> Attempt) :
  let run := registerWithFleetRetry calls in
  (1 <= attempts run <= 10)%nat
  /\ slept run = map backoff (seq 0 (attempts run - 1))
  /\ backoff 0 = 1 * Second
  /\ (forall k, backoff (S k) = Z.min (30 * Second) ((backoff k * 3) ÷ 2))
  /\ (forall k, backoff k <= 30 * Second)
  /\ Forall (fun t => t < 5 * Minute) (started run)
  /\ (returned run = None <-> outcome (calls (attempts run - 1)%nat) = None)
  /\ (Start calls = None <-> returned run = None)
  /\ slept (registerWithFleetRetry always_refused)
     = [1000000000; 1500000000; 2250000000; 3375000000; 5062500000;
        7593750000; 11390625000; 17085937500; 25628906250]
  /\ returned (registerWithFleetRetry always_refused)
     = Some "registration failed after 10 attempts: connection refused"%string.
Proof.
  cbv zeta.
  destruct (retryLoop_spec calls maxRetries 0 0 "<nil>"%string [])
    as (Hatt & Hslept & Hret & Hst);
    [reflexivity | unfold maxRetries; lia | reflexivity | constructor |].
  change (retryLoop calls maxRetries 0 0 (backoff 0) "<nil>"%string []
            (map backoff (seq 0 0)))
    with (registerWithFleetRetry calls) in *.
  destruct Hatt as [Hmin Hmax]. unfold maxRetries in Hmax.
  split_and!.
  - exact Hmin.
  - exact Hmax.
  - exact Hslept.
  - reflexivity.
  - intros k. rewrite backoff_S. apply nextDelay_min.
  - apply backoff_le_maxDelay.
  - exact Hst.
  - exact Hret.
  - unfold Start. destruct (returned (registerWithFleetRetry calls));
      split; intros; [discriminate | discriminate | reflexivity | reflexivity].
  - vm_compute. reflexivity.
  - vm_compute. reflexivity.
Qed.

(** A first call that hangs past the deadline and fails ends the loop at
    the first wait, with the timeout error. *)
Example registerWithFleetRetry_timeout :
  registerWithFleetRetry (fun _ => mkAttempt (6 * Minute) (Some "reset"%string))
  = mkRun (Some "registration timeout: context deadline exceeded"%string)
      1 [0] [] (6 * Minute).
Proof. vm_compute. reflexivity. Qed.

End RegistrationFacts.

(** ** Worked instances *)

Section Instances.

Import FleetStorage.

Lemma listing_order_spec : range_of_spec listing_order.
Proof. intros m. reflexivity. Qed.

(** The witness of [FindNearestAvailableVehicle_spec]: the fleet of one
    vehicle, listed in the order of the finite map. *)
Lemma FindNearestAvailableVehicle_spec_witness :
  range_of_spec listing_order
  /\ match FleetSvc.FindNearestAvailableVehicle listing_order fleet1 "us-west-2"
             37.7649 (-122.4294) 50 with
     | Go.Ok best =>
         stored fleet1 best
         /\ qualifies "us-west-2" 37.7649 (-122.4294) 50 best
         /\ forall w, stored fleet1 w ->
              qualifies "us-west-2" 37.7649 (-122.4294) 50 w ->
              distanceToPickup 37.7649 (-122.4294) best
              <= distanceToPickup 37.7649 (-122.4294) w
     | Go.Err _ =>
         forall w, stored fleet1 w ->
           ~ qualifies "us-west-2" 37.7649 (-122.4294) 50 w
     end.
Proof.
  split; [exact listing_order_spec |].
  apply (FindNearestAvailableVehicle_spec listing_order listing_order_spec
           fleet1 "us-west-2" 37.7649 (-122.4294) 50).
Defined.

Lemma keyed_fleet1 : keyed fleet1.
Proof.
  intros id v Hv. unfold fleet1 in Hv.
  apply lookup_singleton_Some in Hv as [<- <-]. reflexivity.
Qed.

(** With the pickup at the vehicle itself the distance to it is 0, the
    range of 200 km covers (0 + 50) * 1.2, and the dispatcher returns it. *)
Example FindNearestAvailableVehicle_at_vehicle :
  FleetSvc.FindNearestAvailableVehicle listing_order fleet1 "us-west-2"
    37.7749 (-122.4194) 50
  = Go.Ok v1.
Proof.
  unfold FleetSvc.FindNearestAvailableVehicle, GetVehiclesByRegionAndStatus,
    listing_order, fleet1.
  rewrite map_to_list_singleton. simpl.
  unfold FleetSvc.nearest_step, v1. simpl.
  rewrite calculateDistance_same.
  destruct (Rlt_dec 200 ((0 + 50) * 1.2)) as [Hlow | _]; [lra |].
  destruct (Rlt_dec 0 Go.MaxFloat64) as [_ | Hn]; [reflexivity |].
  exfalso. apply Hn. pose proof MaxFloat64_large. lra.
Qed.

(** The precision test of the simulator: at 50% and rate 4, one metre
    takes 0.00025 points off the level and leaves the range at the level
    times 4. *)
Example drainBattery_precision :
  let v := Simulator.set_BatteryLevel 50
             (Simulator.NewVehicle 0 "test-vehicle" "us-west-2" "http://fleet"
                "http://job" 45.5 (-122.6)) in
  Simulator.BatteryLevel (Simulator.drainBattery 0.001 v) = 49.99975
  /\ Simulator.BatteryRangeKm (Simulator.drainBattery 0.001 v) = 199.999.
Proof.
  cbv zeta. unfold Simulator.drainBattery.
  destruct (Rle_dec 0.001 0) as [Hn | _]; [lra |]. cbv zeta. simpl.
  assert (Hmax : Go.Max 0 (50 - 0.001 / 4.0) = 49.99975).
  { unfold Go.Max, Rmax. destruct (Rle_dec _ _); lra. }
  rewrite Hmax.
  destruct (Req_dec_T 49.99975 0) as [Hz | _]; [lra |]. simpl. split; lra.
Qed.

(** A vehicle whose range of 50 km does not cover (0 + 50) * 1.2 is
    rejected, and with no other candidate the dispatcher fails. *)
Example FindNearestAvailableVehicle_low_range :
  FleetSvc.FindNearestAvailableVehicle listing_order
    {["v2" := mkVehicle "v2" "us-west-2" "available" 30 50 37.7749 (-122.4194)
               None 0 "sedan"]}
    "us-west-2" 37.7749 (-122.4194) 50
  = Go.Err "no available vehicle found with sufficient battery for trip".
Proof.
  unfold FleetSvc.FindNearestAvailableVehicle, GetVehiclesByRegionAndStatus,
    listing_order.
  rewrite map_to_list_singleton. simpl.
  unfold FleetSvc.nearest_step. simpl.
  rewrite calculateDistance_same.
  destruct (Rlt_dec 50 ((0 + 50) * 1.2)) as [_ | Hn]; [reflexivity | lra].
Qed.


(** The generated id of that first ride. *)
Example first_ride_id :
  ("ride-" +:+ pretty (JobSvc.wrap64 (JobSvc.jobCounter jobService1 + 1)))%string
  = "ride-1"%string.
Proof. vm_compute. reflexivity. Qed.

(** A pending job cannot be completed, and the ledger stays as it was. *)
Example CompleteJob_pending_rejected :
  let job :=
    JobStorage.mkJob "ride-1" "ride" "pending" None 37.7749 (-122.4194)
      37.7849 (-122.4094) 1.42 0 None None "c1" "us-west-2" None 5 2.5 2.5 in
  let j := JobSvc.NewJobService {["ride-1" := job]} fleet1 1 in
  JobSvc.CompleteJob 7 j "ride-1"
  = (j, Some "job ride-1 is not in progress, current status: pending"%string).
Proof. reflexivity. Qed.

End Instances.

(** * Further properties of the code *)

(** ** Geo utilities: range of the distance *)

Section DistanceRange.


Lemma Atan2_first_quadrant (y x : R) :
  0 <= y -> 0 <= x -> 0 <= Go.Atan2 y x <= PI / 2.
Proof.
  intros Hy Hx. pose proof PI_RGT_0 as Hpi. unfold Go.Atan2.
  destruct (Req_dec_T y 0) as [Hy0 | Hy0].
  - destruct (Rle_dec 0 x); [lra | contradiction].
  - destruct (Req_dec_T x 0) as [Hx0 | Hx0].
    + destruct (Rlt_dec 0 y); lra.
    + cbv zeta. destruct (Rlt_dec x 0) as [Hneg | _]; [lra |].
      pose proof (atan_bound (y / x)) as [_ Hhi].
      assert (Hq : 0 < y / x) by (apply Rdiv_lt_0_compat; lra).
      pose proof (atan_increasing 0 (y / x) Hq) as Hinc.
      rewrite atan_0 in Hinc. lra.
Qed.


End DistanceRange.

(** ** Fleet directory: the in-memory storage *)

Section FleetStorageFacts.

Import FleetStorage.

(** X2. Registration and lookup.  [CreateVehicle] fails exactly on an id that
    is already registered and then leaves the storage as it was; when it
    succeeds, [GetVehicle] returns the vehicle registered, stamped with
    the time of the call, and every other id is answered as before. *)
Theorem CreateVehicle_GetVehicle (now : Z) (m : gmap string Vehicle) (vehicle : Vehicle) :
  let '(m', err) := CreateVehicle now m vehicle in
  (is_Some err <-> is_Some (m !! ID vehicle))
  /\ (is_Some err -> m' = m)
  /\ (err = None ->
      GetVehicle m' (ID vehicle) = Go.Ok (set_LastUpdated now vehicle)
      /\ forall id, id <> ID vehicle -> GetVehicle m' id = GetVehicle m id).
Proof.
  unfold CreateVehicle, GetVehicle.
  destruct (m !! ID vehicle) as [old |] eqn:Hold.
  - split_and!; [split; eauto | reflexivity | discriminate].
  - split_and!.
    + split; intros [x Hx]; discriminate.
    + intros [x Hx]; discriminate.
    + intros _. rewrite lookup_insert_eq. split; [reflexivity |].
      intros id Hne. rewrite lookup_insert_ne by congruence. reflexivity.
Qed.

(** X3. Every call either succeeds or leaves the storage exactly as it was;
    an update or report fails exactly on an unknown id, a registration
    exactly on a known one. *)
Theorem call_fails_cleanly (now : Z) (c : FleetCall) (m : gmap string Vehicle) :
  ((call now c m).2 <> None -> (call now c m).1 = m)
  /\ ((call now c m).2 <> None <->
      match c with
      | CallCreate _ => is_Some (m !! call_id c)
      | _ => m !! call_id c = None
      end).
Proof.
  destruct c as [v | v | id lat lng | id lat lng st | id st jid]; simpl;
    unfold CreateVehicle, UpdateVehicle, UpdateVehicleLocation,
      UpdateVehicleLocationAndStatus, UpdateVehicleStatus;
    match goal with |- context [m !! ?k] => destruct (m !! k) eqn:Hk end;
    simpl; (split; [| split]); try tauto; try congruence; eauto;
    try (intros [x Hx]; discriminate).
Qed.

Lemma call_keyed (now : Z) (c : FleetCall) (m : gmap string Vehicle) :
  keyed m -> keyed (call now c m).1.
Proof.
  intros Hk.
  destruct c as [v | v | id lat lng | id lat lng st | id st jid]; simpl;
    unfold CreateVehicle, UpdateVehicle, UpdateVehicleLocation,
      UpdateVehicleLocationAndStatus, UpdateVehicleStatus;
    match goal with |- context [m !! ?k] => destruct (m !! k) as [old |] eqn:Hold end;
    simpl; try exact Hk;
    intros id' v' Hv'; apply lookup_insert_Some in Hv' as [[<- <-] | [Hne Hv']];
    eauto; simpl; eauto.
Qed.

Lemma call_keeps_ids (now : Z) (c : FleetCall) (m : gmap string Vehicle) (id : string) :
  is_Some (m !! id) -> is_Some ((call now c m).1 !! id).
Proof.
  intros Hid.
  destruct c as [v | v | id' lat lng | id' lat lng st | id' st jid]; simpl;
    unfold CreateVehicle, UpdateVehicle, UpdateVehicleLocation,
      UpdateVehicleLocationAndStatus, UpdateVehicleStatus;
    match goal with |- context [m !! ?k] => destruct (m !! k) as [old |] eqn:Hold end;
    simpl; try exact Hid;
    apply lookup_insert_is_Some'; auto.
Qed.

Lemma calls_keyed (cs : list (Z * FleetCall)) (m : gmap string Vehicle) :
  keyed m -> keyed (calls cs m).
Proof.
  unfold calls. revert m. induction cs as [| [now c] cs IH]; intros m Hk; simpl.
  - exact Hk.
  - apply IH. apply call_keyed. exact Hk.
Qed.

Lemma calls_keep_ids (cs : list (Z * FleetCall)) (m : gmap string Vehicle)
    (id : string) :
  is_Some (m !! id) -> is_Some (calls cs m !! id).
Proof.
  unfold calls. revert m. induction cs as [| [now c] cs IH]; intros m Hid; simpl.
  - exact Hid.
  - apply IH. apply call_keeps_ids. exact Hid.
Qed.

(** X4. Whatever sequence of calls the storage has answered since it was
    created, every vehicle it holds sits under its own id; and no call
    ever removes a vehicle. *)
Theorem calls_keyed_and_keep (cs : list (Z * FleetCall)) (m : gmap string Vehicle) :
  keyed (calls cs NewMemoryVehicleStorage)
  /\ (keyed m -> keyed (calls cs m))
  /\ (forall id, is_Some (m !! id) -> is_Some (calls cs m !! id)).
Proof.
  split_and!.
  - apply calls_keyed. intros id v Hv. unfold NewMemoryVehicleStorage in Hv.
    rewrite lookup_empty in Hv. discriminate.
  - apply calls_keyed.
  - intros id. apply calls_keep_ids.
Qed.

End FleetStorageFacts.

(** ** Fleet directory: reports, assignment and dispatch *)

Section FleetServiceFacts.

Import FleetStorage FleetSvc.

Lemma same_registration_refl v : same_registration v v.
Proof. repeat split. Qed.

Lemma same_registration_trans v1 v2 v3 :
  same_registration v1 v2 -> same_registration v2 v3 -> same_registration v1 v3.
Proof.
  unfold same_registration. intros (? & ? & ? & ? & ?) (? & ? & ? & ? & ?).
  repeat split; congruence.
Qed.

Lemma report_same_registration (now : Z) (c : FleetCall) (m : gmap string Vehicle)
    (id : string) (v : Vehicle) :
  is_report c -> m !! id = Some v ->
  exists v', (call now c m).1 !! id = Some v' /\ same_registration v v'
             /\ ((forall vid st jid, c <> CallStatus vid st jid) ->
                   CurrentJobID v' = CurrentJobID v).
Proof.
  intros Hrep Hv.
  destruct c as [w | w | id' lat lng | id' lat lng st | id' st jid]; simpl in *;
    try contradiction;
    unfold UpdateVehicleLocation, UpdateVehicleLocationAndStatus, UpdateVehicleStatus;
    (destruct (m !! id') as [old |] eqn:Hold; simpl;
     [| exists v; split; [exact Hv | split; [apply same_registration_refl | reflexivity]]]);
    (destruct (decide (id' = id)) as [-> | Hne];
     [ rewrite Hv in Hold; injection Hold as <-;
       eexists; rewrite lookup_insert_eq; split; [reflexivity |];
       split; [repeat split |]
     | exists v; rewrite lookup_insert_ne by exact Hne;
       split; [exact Hv | split; [apply same_registration_refl | reflexivity]] ]).
  - reflexivity.
  - reflexivity.
  - intros Hc. exfalso. apply (Hc id st jid). reflexivity.
Qed.

Lemma report_no_new_id (now : Z) (c : FleetCall) (m : gmap string Vehicle)
    (id : string) :
  is_report c -> m !! id = None -> (call now c m).1 !! id = None.
Proof.
  intros Hrep Hid.
  destruct c as [w | w | id' lat lng | id' lat lng st | id' st jid]; simpl in *;
    try contradiction;
    unfold UpdateVehicleLocation, UpdateVehicleLocationAndStatus, UpdateVehicleStatus;
    (destruct (m !! id') as [old |] eqn:Hold; simpl; [| exact Hid]);
    (rewrite lookup_insert_ne; [exact Hid | intros ->; congruence]).
Qed.

(** X5. Reports never touch what a vehicle registered with.  Through any
    sequence of location, location-and-status and status reports, a stored
    vehicle keeps its id, region, battery level, battery range and type,
    and no vehicle appears: the range the dispatcher compares against is
    the one given at registration.  A location report, with or without a
    status, also leaves the vehicle's job id alone. *)
Theorem reports_keep_registration (cs : list (Z * FleetCall))
    (m : gmap string Vehicle) :
  Forall (fun nc => is_report nc.2) cs ->
  (forall id v, m !! id = Some v ->
     exists v', calls cs m !! id = Some v' /\ same_registration v v')
  /\ (forall id, m !! id = None -> calls cs m !! id = None)
  /\ (forall now vehicleID lat lng status id v, m !! id = Some v ->
        exists v',
          (UpdateVehicleLocationAndStatus now m vehicleID lat lng status).1 !! id
          = Some v'
          /\ CurrentJobID v' = CurrentJobID v).
Proof.
  intros Hcs. split_and!.
  - unfold calls. revert m. induction Hcs as [| [now c] cs Hc _ IH];
      intros m id v Hv; simpl.
    + exists v. split; [exact Hv | apply same_registration_refl].
    + destruct (report_same_registration now c m id v Hc Hv) as (v1 & Hv1 & Hs1 & _).
      destruct (IH _ id v1 Hv1) as (v2 & Hv2 & Hs2).
      exists v2. split; [exact Hv2 |].
      eapply same_registration_trans; eassumption.
  - unfold calls. revert m. induction Hcs as [| [now c] cs Hc _ IH];
      intros m id Hid; simpl.
    + exact Hid.
    + apply IH. apply report_no_new_id; assumption.
  - intros now vehicleID lat lng status id v Hv.
    destruct (report_same_registration now
                (CallLocationAndStatus vehicleID lat lng status) m id v I Hv)
      as (v' & Hv' & _ & Hjob).
    exists v'. split; [exact Hv' |].
    apply Hjob. discriminate.
Qed.

(** The witness of [reports_keep_registration]: a location report and an
    assignment on the fleet of one vehicle. *)
Lemma reports_keep_registration_witness :
  exists v', calls [(1%Z, CallLocation "v1" 45.5 (-122.6));
                    (2%Z, CallStatus "v1" "busy" (Some "ride-1"%string))] fleet1
             !! "v1" = Some v'
             /\ same_registration v1 v'.
Proof.
  apply (reports_keep_registration
           [(1%Z, CallLocation "v1" 45.5 (-122.6));
            (2%Z, CallStatus "v1" "busy" (Some "ride-1"%string))] fleet1).
  - repeat constructor.
  - reflexivity.
Defined.

(** X6. Assignment and completion in the directory.  [AssignJob] and
    [CompleteJob] fail exactly on an unknown vehicle and then change
    nothing.  On a known vehicle, [AssignJob] leaves it busy with the job;
    a [CompleteJob] after it leaves it available without a job, and apart
    from the time stamp the vehicle is then what it was before the
    assignment with status "available" and no job; no other vehicle is
    touched on the way. *)
Theorem AssignJob_CompleteJob (t1 t2 : Z) (m : gmap string Vehicle)
    (vehicleID jobID : string) :
  match m !! vehicleID with
  | None =>
      AssignJob t1 m vehicleID jobID
      = (m, Some ("vehicle " +:+ vehicleID +:+ " not found")%string)
      /\ CompleteJob t2 m vehicleID
         = (m, Some ("vehicle " +:+ vehicleID +:+ " not found")%string)
  | Some v =>
      exists m1 m2 busy,
        AssignJob t1 m vehicleID jobID = (m1, None)
        /\ m1 !! vehicleID = Some busy
        /\ Status busy = "busy" /\ CurrentJobID busy = Some jobID
        /\ CompleteJob t2 m1 vehicleID = (m2, None)
        /\ m2 !! vehicleID
           = Some (set_LastUpdated t2 (set_CurrentJobID None (set_Status "available" v)))
        /\ forall id, id <> vehicleID -> m2 !! id = m !! id
  end.
Proof.
  unfold AssignJob, CompleteJob, UpdateVehicleStatus.
  destruct (m !! vehicleID) as [v |] eqn:Hv.
  - eexists _, _, _. split; [reflexivity |].
    rewrite !lookup_insert_eq. split; [reflexivity |].
    split; [reflexivity |]. split; [reflexivity |]. split; [reflexivity |].
    split; [reflexivity |].
    intros id Hne. rewrite !lookup_insert_ne by congruence. reflexivity.
  - split; reflexivity.
Qed.

(** X7. No double dispatch in sequence.  The vehicle the dispatcher found
    can be assigned in the directory (the assignment does not fail), and
    once it has been, no later search - for any region, pickup and trip -
    returns a vehicle with that id, as long as nothing reports the vehicle
    available again. *)
Theorem assigned_vehicle_not_found_again range_of (t : Z)
    (m : gmap string Vehicle) (region jobID : string)
    (pickupLat pickupLng tripDistanceKm : R) (v : Vehicle) :
  range_of_spec range_of -> keyed m ->
  FindNearestAvailableVehicle range_of m region pickupLat pickupLng tripDistanceKm
  = Go.Ok v ->
  (AssignJob t m (ID v) jobID).2 = None
  /\ forall region' pickupLat' pickupLng' tripDistanceKm',
       match FindNearestAvailableVehicle range_of (AssignJob t m (ID v) jobID).1
               region' pickupLat' pickupLng' tripDistanceKm' with
       | Go.Ok w => ID w <> ID v
       | Go.Err _ => True
       end.
Proof.
  intros Hrange Hkeyed Hfind.
  assert (Hkeyed' : keyed (AssignJob t m (ID v) jobID).1).
  { exact (call_keyed t (CallStatus (ID v) "busy" (Some jobID)) m Hkeyed). }
  pose proof Hfind as Hstored.
  apply (FindNearestAvailableVehicle_found range_of Hrange) in Hstored as [id Hid].
  pose proof (Hkeyed id v Hid) as Hidv. subst id.
  revert Hkeyed'. unfold AssignJob, UpdateVehicleStatus. rewrite Hid. simpl.
  intros Hkeyed'. split; [reflexivity |].
  intros region' pickupLat' pickupLng' tripDistanceKm'.
  destruct (FindNearestAvailableVehicle _ _ region' _ _ _) as [w | e] eqn:Hfind';
    [| exact I].
  intros Heq.
  pose proof Hfind' as Hstored.
  apply (FindNearestAvailableVehicle_found range_of Hrange) in Hstored as [id Hw].
  pose proof (Hkeyed' id w Hw) as Hidw. subst id. rewrite Heq in Hw.
  rewrite lookup_insert_eq in Hw. injection Hw as Hw.
  (* the vehicle found is the busy one, and the dispatcher only returns
     available vehicles *)
  revert Hfind'. unfold FindNearestAvailableVehicle, GetVehiclesByRegionAndStatus.
  set (cands := filter _ (range_of _)).
  pose proof (nearest_inv_fold pickupLat' pickupLng' tripDistanceKm' cands []
                (None, Go.MaxFloat64)
                (nearest_inv_init pickupLat' pickupLng' tripDistanceKm')) as Hinv.
  rewrite app_nil_l in Hinv.
  destruct (fold_left _ cands _) as [[best |] d]; unfold nearest_inv in Hinv;
    simpl in Hinv; [| discriminate].
  intros [= ->]. destruct Hinv as (_ & Hin & _).
  apply (considered_iff range_of Hrange) in Hin as (_ & _ & Hav).
  rewrite <- Hw in Hav. simpl in Hav. discriminate.
Qed.

(** The witness of [assigned_vehicle_not_found_again]: the fleet of one
    vehicle, found at its own position and assigned. *)
Lemma assigned_vehicle_not_found_again_witness :
  (AssignJob 1 fleet1 (ID v1) "ride-1").2 = None
  /\ forall region' pickupLat' pickupLng' tripDistanceKm',
       match FindNearestAvailableVehicle listing_order
               (AssignJob 1 fleet1 (ID v1) "ride-1").1
               region' pickupLat' pickupLng' tripDistanceKm' with
       | Go.Ok w => ID w <> ID v1
       | Go.Err _ => True
       end.
Proof.
  apply (assigned_vehicle_not_found_again listing_order 1 fleet1
           "us-west-2" "ride-1" 37.7749 (-122.4194) 50 v1).
  - exact listing_order_spec.
  - exact keyed_fleet1.
  - exact FindNearestAvailableVehicle_at_vehicle.
Defined.

End FleetServiceFacts.

(** ** Job ledger: storage *)

Section JobStorageFacts.

Import JobStorage.

(** X9. The job storage by key.  [CreateJob] fails exactly on an id already
    stored, [UpdateJob] and [UpdateJobStatus] exactly on an id not stored,
    and a failing call leaves the storage as it was.  After a successful
    [CreateJob], [GetJob] returns the job with [CreatedAt] overwritten by
    the storage's own clock, and every other id reads as before. *)
Theorem CreateJob_GetJob (now : Z) (m : MemoryJobStorage) (job : Job)
    (jobID status : string) (vehicleID : option string) :
  ((CreateJob now m job).2 = None <-> m !! ID job = None)
  /\ ((UpdateJob m job).2 = None <-> is_Some (m !! ID job))
  /\ ((UpdateJobStatus now m jobID status vehicleID).2 = None
      <-> is_Some (m !! jobID))
  /\ (is_Some (CreateJob now m job).2 -> (CreateJob now m job).1 = m)
  /\ (is_Some (UpdateJob m job).2 -> (UpdateJob m job).1 = m)
  /\ (is_Some (UpdateJobStatus now m jobID status vehicleID).2 ->
        (UpdateJobStatus now m jobID status vehicleID).1 = m)
  /\ ((CreateJob now m job).2 = None ->
        GetJob (CreateJob now m job).1 (ID job) = Go.Ok (set_CreatedAt now job)
        /\ forall other, other <> ID job ->
             GetJob (CreateJob now m job).1 other = GetJob m other).
Proof.
  unfold CreateJob, UpdateJob, UpdateJobStatus, GetJob.
  destruct (m !! ID job) as [old |] eqn:Hjob;
    destruct (m !! jobID) as [old' |] eqn:Hid; simpl; split_and!;
    try (split; intros H; try discriminate; try reflexivity; eauto;
         destruct H; discriminate);
    try (intros [? ?]; discriminate); try reflexivity; try discriminate.
  all: intros _; split;
    [ rewrite lookup_insert_eq; reflexivity
    | intros other Hne; rewrite lookup_insert_ne by congruence; reflexivity ].
Qed.

End JobStorageFacts.

(** ** Job ledger: one call *)

Section LedgerFacts.

Import JobStorage JobSvc.

Context {F : Type} {client : FleetClient F}.

Lemma same_order_refl job : same_order job job.
Proof. repeat split. Qed.

Lemma same_order_trans job1 job2 job3 :
  same_order job1 job2 -> same_order job2 job3 -> same_order job1 job3.
Proof.
  unfold same_order. intros H12 H23.
  repeat match goal with H : _ /\ _ |- _ => destruct H end.
  repeat split; congruence.
Qed.

Lemma same_order_assigned now vehicleID job :
  same_order job
    (stamp now "assigned"
       (set_AssignedVehicleID vehicleID (set_Status "assigned" job))).
Proof. unfold stamp. repeat case_decide; repeat split. Qed.

(** The storage after one assignment attempt for a stored job: as before,
    or with that job assigned to a vehicle. *)
Lemma assignJob_storage (now : Z) (j : JobService F) (job : Job) :
  storage j !! ID job = Some job ->
  jobCounter (assignJob now j job).1 = jobCounter j
  /\ pricing (assignJob now j job).1 = pricing j
  /\ (storage (assignJob now j job).1 = storage j
      \/ exists job',
           storage (assignJob now j job).1 = <[ID job := job']> (storage j)
           /\ same_order job job' /\ Status job' = "assigned"
           /\ is_Some (AssignedVehicleID job')).
Proof.
  intros Hin. unfold assignJob, UpdateJobStatus.
  destruct (FindNearestVehicle _ _ _ _ _) as [vehicle | e]; [| simpl; auto].
  destruct (AssignJob _ _ _) as [fl [e |]]; [simpl; auto |].
  simpl. rewrite Hin.
  destruct (streamer j) as [sent |] eqn:Hs; simpl.
  - unfold StreamJobEvent; simpl. rewrite Hs. simpl.
    split; [reflexivity |]. split; [reflexivity |]. right.
    eexists. split.
    + apply map_eq. intros i. destruct (decide (i = ID job)) as [-> | Hne].
      * rewrite lookup_alter_eq, !lookup_insert_eq. reflexivity.
      * rewrite lookup_alter_ne, !lookup_insert_ne by congruence. reflexivity.
    + unfold stamp. repeat case_decide; try congruence; simpl;
        split; [repeat split | split; [reflexivity | eauto]].
  - split; [reflexivity |]. split; [reflexivity |]. right.
    eexists. split; [reflexivity |].
    split; [apply same_order_assigned |].
    rewrite stamp_Status, stamp_AssignedVehicleID. simpl. eauto.
Qed.

Lemma ledger_step_refl m : ledger_step m m.
Proof.
  intros id. destruct (m !! id) as [job |]; [| auto].
  exists job. split; [reflexivity |]. split; [apply same_order_refl | left; reflexivity].
Qed.

(** Replacing a stored job by a later stage of its life cycle. *)
Lemma ledger_step_insert m id job job' :
  m !! id = Some job -> same_order job job' -> life_cycle job job' ->
  ledger_step m (<[id := job']> m).
Proof.
  intros Hin Hso Hlc i. destruct (decide (i = id)) as [-> | Hne].
  - rewrite Hin. exists job'. rewrite lookup_insert_eq. auto.
  - rewrite lookup_insert_ne by congruence.
    destruct (m !! i) as [x |]; [| auto].
    exists x. split; [reflexivity |].
    split; [apply same_order_refl | left; reflexivity].
Qed.

Lemma assignJob_step (now : Z) (j : JobService F) (job : Job) :
  storage j !! ID job = Some job -> Status job = "pending" ->
  ledger_step (storage j) (storage (assignJob now j job).1).
Proof.
  intros Hin Hp.
  destruct (assignJob_storage now j job Hin) as (_ & _ & [-> | (job' & -> & Hso & Hst & Hv)]).
  - apply ledger_step_refl.
  - apply (ledger_step_insert _ _ job); [exact Hin | exact Hso |].
    right; left. auto.
Qed.

(** The storage after [CompleteJob]. *)
Lemma CompleteJob_storage (now : Z) (j : JobService F) (jobID : string) :
  jobCounter (CompleteJob now j jobID).1 = jobCounter j
  /\ pricing (CompleteJob now j jobID).1 = pricing j
  /\ fleet (CompleteJob now j jobID).1 = fleet j
  /\ (storage (CompleteJob now j jobID).1 = storage j
      /\ ((CompleteJob now j jobID).2 = None ->
            exists job, storage j !! jobID = Some job /\ completed now job = job)
      \/ exists job,
           storage j !! jobID = Some job
           /\ (Status job = "assigned" \/ Status job = "in_progress")
           /\ (CompleteJob now j jobID).2 = None
           /\ storage (CompleteJob now j jobID).1
              = <[jobID := completed now job]> (storage j)).
Proof.
  unfold CompleteJob, GetJob, UpdateJobStatus.
  destruct (storage j !! jobID) as [job |] eqn:Hjob; cbv zeta.
  - case_decide as Hst.
    + simpl. split_and!; try reflexivity. left. split; [reflexivity | discriminate].
    + rewrite completed_eq.
      assert (Hok : Status job = "assigned" \/ Status job = "in_progress").
      { destruct (decide (Status job = "assigned")); [auto |].
        destruct (decide (Status job = "in_progress")); [auto |].
        exfalso. apply Hst. auto. }
      destruct (streamer (with_storage _ j)) as [sent |] eqn:Hs; simpl in *.
      * unfold StreamJobEvent; simpl. rewrite Hs. simpl.
        split_and!; try reflexivity. right. exists job.
        split_and!; auto.
        apply map_eq. intros i. destruct (decide (i = jobID)) as [-> | Hne].
        -- rewrite lookup_alter_eq, !lookup_insert_eq. simpl.
           rewrite set_Status_completed. reflexivity.
        -- rewrite lookup_alter_ne, !lookup_insert_ne by congruence. reflexivity.
      * split_and!; try reflexivity. right. exists job. split_and!; auto.
  - simpl. split_and!; try reflexivity. left. split; [reflexivity | discriminate].
Qed.

Lemma same_order_completed now job : same_order job (completed now job).
Proof. repeat split. Qed.

Lemma CompleteJob_step (now : Z) (j : JobService F) (jobID : string) :
  ledger_step (storage j) (storage (CompleteJob now j jobID).1).
Proof.
  destruct (CompleteJob_storage now j jobID)
    as (_ & _ & _ & [[-> _] | (job & Hin & Hst & _ & ->)]).
  - apply ledger_step_refl.
  - apply (ledger_step_insert _ _ job); [exact Hin | apply same_order_completed |].
    right; right. split; [exact Hst |]. split; reflexivity.
Qed.


Lemma ledger_step_insert_new m id job' :
  m !! id = None -> ID job' = id ->
  Status job' = "pending" \/ Status job' = "assigned" ->
  ledger_step m (<[id := job']> m).
Proof.
  intros Hfree Hid Hst i. destruct (decide (i = id)) as [-> | Hne].
  - rewrite Hfree. right. exists job'. rewrite lookup_insert_eq. auto.
  - rewrite lookup_insert_ne by congruence.
    destruct (m !! i) as [x |]; [| auto].
    exists x. split; [reflexivity |].
    split; [apply same_order_refl | left; reflexivity].
Qed.

(** The steps of [CreateRideJob] and [CreateDeliveryJob] that follow the
    construction of the job object, by what they leave in the storage. *)
Lemma create_storage (now : Z) (j : JobService F) (job : Job) :
  Status job = "pending" ->
  let res :=
    (let job := CalculateFare (pricing j) job in
     match CreateJob now (storage j) job with
     | (_, Some err) => (j, Go.Err err)
     | (m, None) =>
         let j := with_storage m j in
         let job := through m job in
         let j := StreamJobEvent "created" job j in
         let '(j, _) := assignJob now j job in
         (j, Go.Ok (through (storage j) job))
     end) in
  jobCounter res.1 = jobCounter j /\ pricing res.1 = pricing j
  /\ match storage j !! ID job with
     | Some _ => storage res.1 = storage j /\ exists err, res.2 = Go.Err err
     | None =>
         exists job', storage res.1 = <[ID job := job']> (storage j)
           /\ res.2 = Go.Ok job'
           /\ same_order (set_CreatedAt now (CalculateFare (pricing j) job)) job'
           /\ (Status job' = "pending" /\ AssignedVehicleID job' = AssignedVehicleID job
               \/ Status job' = "assigned" /\ is_Some (AssignedVehicleID job'))
     end.
Proof.
  intros Hp. cbv zeta.
  destruct (CalculateFare_frame (pricing j) job)
    as (Hid & Hst & Hav & _).
  set (priced := CalculateFare (pricing j) job) in *.
  unfold CreateJob. rewrite Hid.
  destruct (storage j !! ID job) as [old |] eqn:Hold; simpl.
  { split; [reflexivity |]. split; [reflexivity |]. split; [reflexivity |]. eauto. }
  set (obj := set_CreatedAt now priced).
  assert (Hobj : through (<[ID job:=obj]> (storage j)) priced = obj).
  { apply through_lookup. rewrite Hid. apply lookup_insert_eq. }
  rewrite Hobj.
  set (j2 := StreamJobEvent "created" obj _).
  assert (Hj2 : storage j2 = <[ID job:=obj]> (storage j)
                /\ jobCounter j2 = jobCounter j /\ pricing j2 = pricing j).
  { unfold j2, StreamJobEvent. simpl. destruct (streamer j); simpl; auto. }
  destruct Hj2 as (Hs2 & Hc2 & Hp2).
  assert (Hido : ID obj = ID job) by (unfold obj; simpl; exact Hid).
  assert (Hin2 : storage j2 !! ID obj = Some obj).
  { rewrite Hs2, Hido. apply lookup_insert_eq. }
  destruct (assignJob_storage now j2 obj Hin2) as (Hc3 & Hp3 & Hs3).
  destruct (assignJob now j2 obj) as [j3 err]. simpl in *.
  split; [congruence |]. split; [congruence |].
  destruct Hs3 as [Hs3 | (job' & Hs3 & Hso & Hst' & Hv')].
  - exists obj.
    split; [rewrite Hs3, Hs2; reflexivity |].
    split; [f_equal; apply through_lookup; rewrite Hs3; exact Hin2 |].
    split; [apply same_order_refl |].
    left. unfold obj; simpl. split; congruence.
  - exists job'.
    split; [rewrite Hs3, Hs2, Hido, insert_insert_eq; reflexivity |].
    split; [f_equal; apply through_lookup; rewrite Hs3; apply lookup_insert_eq |].
    split; [exact Hso |]. right. auto.
Qed.

Lemma create_step (now : Z) (j : JobService F) (job : Job) :
  Status job = "pending" ->
  ledger_step (storage j)
    (storage
       (let job := CalculateFare (pricing j) job in
        match CreateJob now (storage j) job with
        | (_, Some err) => (j, Go.Err err)
        | (m, None) =>
            let j := with_storage m j in
            let job := through m job in
            let j := StreamJobEvent "created" job j in
            let '(j, _) := assignJob now j job in
            (j, Go.Ok (through (storage j) job))
        end).1).
Proof.
  intros Hp. destruct (create_storage now j job Hp) as (_ & _ & Hs).
  cbv zeta in *.
  destruct (storage j !! ID job) as [old |] eqn:Hold.
  - destruct Hs as [Hs _]. rewrite Hs. apply ledger_step_refl.
  - destruct Hs as (job' & Hs & _ & Hso & Hst). rewrite Hs.
    apply ledger_step_insert_new; [exact Hold | | tauto].
    destruct Hso as (-> & _). simpl.
    destruct (CalculateFare_frame (pricing j) job) as (-> & _). reflexivity.
Qed.

Lemma sweep_step_refl m : sweep_step m m.
Proof. intros id. left. reflexivity. Qed.

Lemma sweep_step_trans m1 m2 m3 :
  sweep_step m1 m2 -> sweep_step m2 m3 -> sweep_step m1 m3.
Proof.
  intros H12 H23 id.
  destruct (H12 id) as [E12 | (a & b & Ha & Hb & Hso & Hp & Has & Hv)];
    destruct (H23 id) as [E23 | (b' & c & Hb' & Hc & Hso' & Hp' & Has' & Hv')].
  - left. congruence.
  - right. exists b', c. rewrite <- E12. auto 10.
  - right. exists a, b. rewrite E23. auto 10.
  - exfalso. rewrite Hb in Hb'. injection Hb' as <-. rewrite Has in Hp'. discriminate.
Qed.

Lemma sweep_step_ledger_step m m' : sweep_step m m' -> ledger_step m m'.
Proof.
  intros H id. destruct (H id) as [E | (a & b & Ha & Hb & Hso & Hp & Has & Hv)].
  - rewrite E. destruct (m !! id) as [x |]; [| auto].
    exists x. split; [reflexivity |].
    split; [apply same_order_refl | left; reflexivity].
  - rewrite Ha. exists b. split; [exact Hb |]. split; [exact Hso |].
    right; left. auto.
Qed.

Lemma sweep_step_keyed m m' : sweep_step m m' -> job_keyed m -> job_keyed m'.
Proof.
  intros H Hk id job' Hjob'.
  destruct (H id) as [E | (a & b & Ha & Hb & Hso & _)].
  - apply Hk. congruence.
  - rewrite Hb in Hjob'. injection Hjob' as <-.
    destruct Hso as (-> & _). apply (Hk id a Ha).
Qed.

(** The loop of [ProcessPendingJobs] over a list of stored pending jobs
    with distinct ids. *)
Lemma sweep_fold (now : Z) (l : list Job) (j : JobService F) :
  job_keyed (storage j) -> NoDup (ID <$> l) ->
  (forall job, job ∈ l ->
     exists cur, storage j !! ID job = Some cur /\ Status cur = "pending") ->
  let j' := fold_left
              (fun (j : JobService F) (job : Job) =>
                 fst (assignJob now j (through (storage j) job))) l j in
  sweep_step (storage j) (storage j')
  /\ jobCounter j' = jobCounter j /\ pricing j' = pricing j.
Proof.
  revert j. induction l as [| job l IH]; intros j Hk Hnd Hl; cbv zeta.
  - simpl. split; [apply sweep_step_refl | auto].
  - destruct (Hl job) as (cur & Hcur & Hp); [left |].
    apply NoDup_cons in Hnd as [Hnotin Hnd].
    assert (Hidc : ID cur = ID job) by (apply (Hk _ _ Hcur)).
    simpl fold_left. rewrite (through_lookup _ _ _ Hcur).
    assert (Hin : storage j !! ID cur = Some cur) by (rewrite Hidc; exact Hcur).
    destruct (assignJob_storage now j cur Hin) as (Hc1 & Hp1 & Hs1).
    set (j1 := fst (assignJob now j cur)) in *.
    assert (Hstep : sweep_step (storage j) (storage j1)).
    { destruct Hs1 as [-> | (job' & -> & Hso & Hst & Hv)];
        [apply sweep_step_refl |].
      intros id. destruct (decide (id = ID cur)) as [-> | Hne].
      - right. exists cur, job'. rewrite lookup_insert_eq. auto 10.
      - left. apply lookup_insert_ne. congruence. }
    destruct (IH j1) as (Hsw & Hc & Hpr).
    + exact (sweep_step_keyed _ _ Hstep Hk).
    + exact Hnd.
    + intros job0 Hjob0.
      destruct (Hl job0) as (cur0 & Hcur0 & Hp0); [right; exact Hjob0 |].
      exists cur0. split; [| exact Hp0].
      assert (Hne : ID job0 <> ID cur).
      { rewrite Hidc. intros Heq. apply Hnotin. rewrite <- Heq.
        apply list_elem_of_fmap. eauto. }
      destruct Hs1 as [-> | (job' & -> & _)]; [exact Hcur0 |].
      rewrite lookup_insert_ne by congruence. exact Hcur0.
    + split; [eapply sweep_step_trans; eassumption |]. split; congruence.
Qed.


Lemma listed_ids (l : list (string * Job)) :
  (forall kv, kv ∈ l -> ID kv.2 = kv.1) -> ID <$> l.*2 = l.*1.
Proof.
  induction l as [| kv l IH]; intros H; [reflexivity |].
  simpl. rewrite (H kv) by left. f_equal. apply IH.
  intros kv' Hin. apply H. right. exact Hin.
Qed.

(** What a listing of a keyed storage holds: stored jobs, each once. *)
Lemma range_of_listing range_of (Hrange : JobStorage.range_of_spec range_of)
    (m : MemoryJobStorage) :
  job_keyed m ->
  NoDup (ID <$> range_of m)
  /\ forall job, job ∈ range_of m <-> m !! ID job = Some job.
Proof.
  intros Hk. split.
  - rewrite (Hrange m). rewrite listed_ids.
    + apply NoDup_fst_map_to_list.
    + intros [k v] Hin. apply elem_of_map_to_list in Hin. exact (Hk k v Hin).
  - intros job. rewrite (Hrange m). rewrite list_elem_of_fmap. split.
    + intros ([k v] & -> & Hin). apply elem_of_map_to_list in Hin. simpl.
      rewrite (Hk k v Hin). exact Hin.
    + intros Hin. exists (ID job, job). split; [reflexivity |].
      apply elem_of_map_to_list. exact Hin.
Qed.

Lemma ProcessPendingJobs_sweep range_of (now : Z) (j : JobService F) :
  JobStorage.range_of_spec range_of -> job_keyed (storage j) ->
  (ProcessPendingJobs range_of now j).2 = None
  /\ sweep_step (storage j) (storage (ProcessPendingJobs range_of now j).1)
  /\ jobCounter (ProcessPendingJobs range_of now j).1 = jobCounter j
  /\ pricing (ProcessPendingJobs range_of now j).1 = pricing j.
Proof.
  intros Hrange Hk.
  destruct (range_of_listing range_of Hrange (storage j) Hk) as [Hnd Hmem].
  unfold ProcessPendingJobs, GetJobsByStatus. simpl.
  set (pendingJobs := filter _ (range_of (storage j))).
  destruct (sweep_fold now pendingJobs j Hk) as (Hsw & Hc & Hp).
  - eapply sublist_NoDup; [exact Hnd |].
    apply fmap_sublist. apply sublist_filter.
  - intros job Hin. apply list_elem_of_filter in Hin as [Hst Hin].
    exists job. split; [apply Hmem; exact Hin | exact Hst].
  - auto.
Qed.

(** X10. The sweep over the pending jobs.  On a keyed storage
    [ProcessPendingJobs] never returns an error, whatever the assignment
    attempts do.  It adds and removes no job; every job that was not
    pending is left exactly as it was, and a job that was pending is
    either left as it was or ends assigned to a vehicle, with its order
    and fare unchanged.  The id counter and the prices are not touched. *)
Theorem ProcessPendingJobs_spec range_of (now : Z) (j : JobService F) :
  JobStorage.range_of_spec range_of -> job_keyed (storage j) ->
  (ProcessPendingJobs range_of now j).2 = None
  /\ sweep_step (storage j) (storage (ProcessPendingJobs range_of now j).1)
  /\ (forall id job, storage j !! id = Some job -> Status job <> "pending" ->
        storage (ProcessPendingJobs range_of now j).1 !! id = Some job)
  /\ (forall id, storage j !! id = None ->
        storage (ProcessPendingJobs range_of now j).1 !! id = None)
  /\ jobCounter (ProcessPendingJobs range_of now j).1 = jobCounter j
  /\ pricing (ProcessPendingJobs range_of now j).1 = pricing j.
Proof.
  intros Hrange Hk.
  destruct (ProcessPendingJobs_sweep range_of now j Hrange Hk)
    as (Herr & Hsw & Hc & Hp).
  split; [exact Herr |]. split; [exact Hsw |].
  split; [| split; [| split; [exact Hc | exact Hp]]].
  - intros id job Hjob Hnp.
    destruct (Hsw id) as [-> | (a & b & Ha & _ & _ & Hpa & _)]; [exact Hjob |].
    rewrite Hjob in Ha. injection Ha as <-. contradiction.
  - intros id Hfree.
    destruct (Hsw id) as [-> | (a & b & Ha & _)]; [exact Hfree |].
    rewrite Hfree in Ha. discriminate.
Qed.

(** ** Job ledger: any number of calls *)

Lemma job_call_step range_of (now : Z) (c : JobCall) (j : JobService F) :
  JobStorage.range_of_spec range_of -> job_keyed (storage j) ->
  ledger_step (storage j) (storage (job_call range_of now c j)).
Proof.
  intros Hrange Hk. destruct c; simpl.
  - apply (create_step now (with_jobCounter (wrap64 (jobCounter j + 1)) j)
             (mkJob ("ride-" +:+ pretty (wrap64 (jobCounter j + 1))) "ride" "pending"
                None pickupLat pickupLng destLat destLng
                (Geo.calculateDistance pickupLat pickupLng destLat destLng)
                now None None customerID region None 0 0 0)).
    reflexivity.
  - apply (create_step now (with_jobCounter (wrap64 (jobCounter j + 1)) j)
             (mkJob ("delivery-" +:+ pretty (wrap64 (jobCounter j + 1))) "delivery"
                "pending" None pickupLat pickupLng destLat destLng
                (Geo.calculateDistance pickupLat pickupLng destLat destLng)
                now None None customerID region details 0 0 0)).
    reflexivity.
  - apply CompleteJob_step.
  - apply sweep_step_ledger_step.
    apply (ProcessPendingJobs_sweep range_of now j Hrange Hk).
Qed.

Lemma ledger_step_keyed m m' : ledger_step m m' -> job_keyed m -> job_keyed m'.
Proof.
  intros H Hk id job' Hjob'. specialize (H id).
  destruct (m !! id) as [job |] eqn:Hjob.
  - destruct H as (x & Hx & Hso & _). rewrite Hx in Hjob'. injection Hjob' as <-.
    destruct Hso as (-> & _). apply (Hk id job Hjob).
  - destruct H as [H | (x & Hx & Hid & _)]; [congruence |].
    rewrite Hx in Hjob'. injection Hjob' as <-. exact Hid.
Qed.

Lemma ledger_step_statuses m m' :
  ledger_step m m' -> statuses_known m -> statuses_known m'.
Proof.
  intros H Hs id job' Hjob'. specialize (H id).
  destruct (m !! id) as [job |] eqn:Hjob.
  - destruct H as (x & Hx & _ & Hlc). rewrite Hx in Hjob'. injection Hjob' as <-.
    destruct Hlc as [-> | [(_ & -> & _) | (_ & -> & _)]]; auto.
    apply (Hs id job Hjob).
  - destruct H as [H | (x & Hx & _ & Hst)]; [congruence |].
    rewrite Hx in Hjob'. injection Hjob' as <-. tauto.
Qed.

Lemma ledger_step_history m m' : ledger_step m m' -> history m m'.
Proof.
  intros H id job Hjob. specialize (H id). rewrite Hjob in H.
  destruct H as (job' & Hjob' & Hso & Hlc).
  exists job'. split; [exact Hjob' |]. split; [exact Hso |].
  intros Hc. destruct Hlc as [-> | [(Hp & _) | ([Ha | Hi] & _)]];
    [reflexivity | | |]; rewrite Hc in *; discriminate.
Qed.

Lemma history_refl m : history m m.
Proof.
  intros id job Hjob. exists job. split; [exact Hjob |].
  split; [apply same_order_refl | reflexivity].
Qed.

Lemma history_trans m1 m2 m3 : history m1 m2 -> history m2 m3 -> history m1 m3.
Proof.
  intros H12 H23 id job Hjob.
  destruct (H12 id job Hjob) as (job2 & Hjob2 & Hso2 & Hc2).
  destruct (H23 id job2 Hjob2) as (job3 & Hjob3 & Hso3 & Hc3).
  exists job3. split; [exact Hjob3 |].
  split; [eapply same_order_trans; eassumption |].
  intros Hc. specialize (Hc2 Hc). subst job2. apply Hc3. exact Hc.
Qed.

(** X11. One call of the job service moves the ledger by one step of the life
    cycle.  Whatever the call and whatever the fleet answers, a stored
    job stays stored with its order and fare, and it either stays as it
    is, goes from pending to assigned, or goes from assigned or
    in-progress to completed; an id that was free is still free or holds
    a new job that is pending or assigned; and the storage stays keyed.
    No call deletes a job, reopens a completed one, or unassigns one. *)
Theorem job_call_life_cycle range_of (now : Z) (c : JobCall) (j : JobService F) :
  JobStorage.range_of_spec range_of -> job_keyed (storage j) ->
  ledger_step (storage j) (storage (job_call range_of now c j))
  /\ job_keyed (storage (job_call range_of now c j)).
Proof.
  intros Hrange Hk.
  pose proof (job_call_step range_of now c j Hrange Hk) as Hstep.
  split; [exact Hstep | exact (ledger_step_keyed _ _ Hstep Hk)].
Qed.

(** X12. Across any sequence of calls, every job that was stored is still
    stored with the same order and the same fare, and a job that was
    completed is unchanged in every field: what the revenue is computed
    from is never revised.  The storage stays keyed, and if every status
    was one of "pending", "assigned" and "completed", that is still so;
    the service itself never writes "in_progress". *)
Theorem ledger_history range_of (cs : list (Z * JobCall)) (j : JobService F) :
  JobStorage.range_of_spec range_of -> job_keyed (storage j) ->
  job_keyed (storage (job_calls range_of cs j))
  /\ history (storage j) (storage (job_calls range_of cs j))
  /\ (statuses_known (storage j) ->
      statuses_known (storage (job_calls range_of cs j))).
Proof.
  intros Hrange. unfold job_calls. revert j.
  induction cs as [| [now c] cs IH]; intros j Hk; simpl.
  - split; [exact Hk |]. split; [apply history_refl | auto].
  - pose proof (job_call_step range_of now c j Hrange Hk) as Hstep.
    destruct (IH (job_call range_of now c j)) as (Hk' & Hh & Hs).
    + exact (ledger_step_keyed _ _ Hstep Hk).
    + split; [exact Hk' |].
      split; [eapply history_trans; [apply ledger_step_history; exact Hstep | exact Hh] |].
      intros Hst. apply Hs. exact (ledger_step_statuses _ _ Hstep Hst).
Qed.


(** ** Job ledger: the ids issued *)

Lemma wrap64_succ (c : Z) :
  (0 <= c < 2 ^ 63 - 1)%Z -> wrap64 (c + 1) = (c + 1)%Z.
Proof. intros H. unfold wrap64. rewrite Z.mod_small; lia. Qed.

Lemma ride_id_inj (a b : Z) :
  ("ride-" +:+ pretty a)%string = ("ride-" +:+ pretty b)%string -> a = b.
Proof.
  intros H. apply (inj (String.app "ride-")) in H. apply (inj pretty) in H. exact H.
Qed.

Lemma delivery_id_inj (a b : Z) :
  ("delivery-" +:+ pretty a)%string = ("delivery-" +:+ pretty b)%string -> a = b.
Proof.
  intros H. apply (inj (String.app "delivery-")) in H. apply (inj pretty) in H.
  exact H.
Qed.

Lemma ride_id_not_delivery (a b : string) :
  ("ride-" +:+ a)%string <> ("delivery-" +:+ b)%string.
Proof. intros H. cbn in H. discriminate. Qed.

(** The next id of either kind is free. *)
Lemma next_id_free (j : JobService F) :
  ids_issued j ->
  storage j !! ("ride-" +:+ pretty (jobCounter j + 1)%Z)%string = None
  /\ storage j !! ("delivery-" +:+ pretty (jobCounter j + 1)%Z)%string = None.
Proof.
  intros Hids. split.
  - destruct (storage j !! _) as [x |] eqn:Hx; [| reflexivity]. exfalso.
    destruct (Hids _ (ex_intro _ x Hx)) as (n & Hn & [Hid | Hid]).
    + apply ride_id_inj in Hid. lia.
    + exact (ride_id_not_delivery _ _ Hid).
  - destruct (storage j !! _) as [x |] eqn:Hx; [| reflexivity]. exfalso.
    destruct (Hids _ (ex_intro _ x Hx)) as (n & Hn & [Hid | Hid]).
    + symmetry in Hid. exact (ride_id_not_delivery _ _ Hid).
    + apply delivery_id_inj in Hid. lia.
Qed.

Lemma ids_issued_same (j j' : JobService F) :
  (forall id, is_Some (storage j' !! id) -> is_Some (storage j !! id)) ->
  (jobCounter j <= jobCounter j')%Z ->
  ids_issued j -> ids_issued j'.
Proof.
  intros Hdom Hc Hids id Hid.
  destruct (Hids id (Hdom id Hid)) as (n & Hn & Hor).
  exists n. split; [lia | exact Hor].
Qed.

Lemma create_ids (now : Z) (j : JobService F) (job : Job) (n : Z) :
  Status job = "pending" ->
  (0 < n <= jobCounter j)%Z ->
  ID job = ("ride-" +:+ pretty n)%string
  \/ ID job = ("delivery-" +:+ pretty n)%string ->
  (forall id, is_Some (storage j !! id) ->
     exists k : Z, (0 < k <= jobCounter j)%Z
       /\ (id = ("ride-" +:+ pretty k)%string
           \/ id = ("delivery-" +:+ pretty k)%string)) ->
  let j' :=
    (let job := CalculateFare (pricing j) job in
     match CreateJob now (storage j) job with
     | (_, Some err) => (j, Go.Err err)
     | (m, None) =>
         let j := with_storage m j in
         let job := through m job in
         let j := StreamJobEvent "created" job j in
         let '(j, _) := assignJob now j job in
         (j, Go.Ok (through (storage j) job))
     end).1 in
  ids_issued j' /\ jobCounter j' = jobCounter j.
Proof.
  intros Hp Hn Hid Hids.
  destruct (create_storage now j job Hp) as (Hc & _ & Hs). cbv zeta in *.
  split; [| exact Hc].
  intros id Hsome. rewrite Hc.
  destruct (storage j !! ID job) as [old |] eqn:Hold.
  - destruct Hs as [Hs _]. rewrite Hs in Hsome. apply Hids. exact Hsome.
  - destruct Hs as (job' & Hs & _). rewrite Hs in Hsome.
    destruct (decide (id = ID job)) as [-> | Hne].
    + exists n. auto.
    + rewrite lookup_insert_ne in Hsome by congruence. apply Hids. exact Hsome.
Qed.

Lemma job_call_ids range_of (now : Z) (c : JobCall) (j : JobService F) :
  JobStorage.range_of_spec range_of -> job_keyed (storage j) ->
  ids_issued j -> (0 <= jobCounter j < 2 ^ 63 - 1)%Z ->
  ids_issued (job_call range_of now c j)
  /\ (jobCounter j <= jobCounter (job_call range_of now c j) <= jobCounter j + 1)%Z.
Proof.
  intros Hrange Hk Hids Hc.
  assert (Hbump : forall id,
            is_Some (storage (with_jobCounter (wrap64 (jobCounter j + 1)) j) !! id) ->
            exists k : Z,
              (0 < k <= jobCounter (with_jobCounter (wrap64 (jobCounter j + 1)) j))%Z
              /\ (id = ("ride-" +:+ pretty k)%string
                  \/ id = ("delivery-" +:+ pretty k)%string)).
  { intros id Hid. simpl in *. rewrite wrap64_succ by exact Hc.
    destruct (Hids id Hid) as (k & Hk' & Hor). exists k. split; [lia | exact Hor]. }
  destruct c; unfold job_call.
  - destruct (create_ids now (with_jobCounter (wrap64 (jobCounter j + 1)) j)
                (mkJob ("ride-" +:+ pretty (wrap64 (jobCounter j + 1))) "ride" "pending"
                   None pickupLat pickupLng destLat destLng
                   (Geo.calculateDistance pickupLat pickupLng destLat destLng)
                   now None None customerID region None 0 0 0)
                (wrap64 (jobCounter j + 1)))
      as [Hi Hcnt]; [reflexivity | | left; reflexivity | exact Hbump |].
    + simpl. rewrite wrap64_succ by exact Hc. lia.
    + split; [exact Hi |].
      assert (E : jobCounter
                    (CreateRideJob now j customerID region
                       pickupLat pickupLng destLat destLng).1
                  = wrap64 (jobCounter j + 1)) by exact Hcnt.
      rewrite E, wrap64_succ by exact Hc. lia.
  - destruct (create_ids now (with_jobCounter (wrap64 (jobCounter j + 1)) j)
                (mkJob ("delivery-" +:+ pretty (wrap64 (jobCounter j + 1))) "delivery"
                   "pending" None pickupLat pickupLng destLat destLng
                   (Geo.calculateDistance pickupLat pickupLng destLat destLng)
                   now None None customerID region details 0 0 0)
                (wrap64 (jobCounter j + 1)))
      as [Hi Hcnt]; [reflexivity | | right; reflexivity | exact Hbump |].
    + simpl. rewrite wrap64_succ by exact Hc. lia.
    + split; [exact Hi |].
      assert (E : jobCounter
                    (CreateDeliveryJob now j customerID region
                       pickupLat pickupLng destLat destLng details).1
                  = wrap64 (jobCounter j + 1)) by exact Hcnt.
      rewrite E, wrap64_succ by exact Hc. lia.
  - destruct (CompleteJob_storage now j jobID)
      as (Hcnt & _ & _ & [[Hs _] | (job & Hin & _ & _ & Hs)]).
    + split; [| lia].
      apply (ids_issued_same j); [rewrite Hs; auto | lia | exact Hids].
    + split; [| lia].
      apply (ids_issued_same j); [| lia | exact Hids].
      intros id. rewrite Hs. destruct (decide (id = jobID)) as [-> | Hne].
      * rewrite Hin. eauto.
      * rewrite lookup_insert_ne by congruence. auto.
  - destruct (ProcessPendingJobs_sweep range_of now j Hrange Hk)
      as (_ & Hsw & Hcnt & _).
    split; [| lia].
    apply (ids_issued_same j); [| lia | exact Hids].
    intros id Hsome.
    destruct (Hsw id) as [E | (a & b & Ha & _)]; [rewrite <- E; exact Hsome |].
    rewrite Ha. eauto.
Qed.

Lemma job_calls_ids range_of (cs : list (Z * JobCall)) (j : JobService F) :
  JobStorage.range_of_spec range_of -> job_keyed (storage j) ->
  ids_issued j -> (0 <= jobCounter j)%Z ->
  (jobCounter j + Z.of_nat (length cs) < 2 ^ 63)%Z ->
  ids_issued (job_calls range_of cs j)
  /\ job_keyed (storage (job_calls range_of cs j))
  /\ (jobCounter j <= jobCounter (job_calls range_of cs j)
      <= jobCounter j + Z.of_nat (length cs))%Z.
Proof.
  intros Hrange. unfold job_calls. revert j.
  induction cs as [| [now c] cs IH]; intros j Hk Hids H0 Hlen.
  - simpl. split; [exact Hids |]. split; [exact Hk | lia].
  - simpl fold_left. simpl length in Hlen.
    destruct (job_call_ids range_of now c j Hrange Hk Hids) as [Hids1 Hc1]; [lia |].
    pose proof (job_call_step range_of now c j Hrange Hk) as Hstep.
    destruct (IH (job_call range_of now c j)) as (Hi & Hk' & Hc');
      [exact (ledger_step_keyed _ _ Hstep Hk) | exact Hids1 | lia | lia |].
    split; [exact Hi |]. split; [exact Hk' |]. simpl in *. simpl length. lia.
Qed.

(** X13. Job creation succeeds in every state the service can reach.  From a
    ledger whose ids were all issued from the counter (an empty one, for
    instance), after any sequence of calls that keeps the counter from
    wrapping around, the ids are still all issued from the counter, the
    counter has grown by at most the number of calls, and the next
    [CreateRideJob] and [CreateDeliveryJob] return a job and no error: the
    id they generate is free, and the job returned is stored under it. *)
Theorem creation_succeeds range_of (cs : list (Z * JobCall)) (j : JobService F)
    (now : Z) (customerID region : string)
    (pickupLat pickupLng destLat destLng : R) (details : option DeliveryDetails) :
  JobStorage.range_of_spec range_of -> job_keyed (storage j) ->
  ids_issued j -> (0 <= jobCounter j)%Z ->
  (jobCounter j + Z.of_nat (length cs) < 2 ^ 63 - 1)%Z ->
  let j' := job_calls range_of cs j in
  ids_issued j'
  /\ (jobCounter j <= jobCounter j' <= jobCounter j + Z.of_nat (length cs))%Z
  /\ (exists job,
        (CreateRideJob now j' customerID region pickupLat pickupLng destLat destLng).2
        = Go.Ok job
        /\ ID job = ("ride-" +:+ pretty (jobCounter j' + 1)%Z)%string
        /\ storage
             (CreateRideJob now j' customerID region
                pickupLat pickupLng destLat destLng).1 !! ID job = Some job)
  /\ (exists job,
        (CreateDeliveryJob now j' customerID region
           pickupLat pickupLng destLat destLng details).2
        = Go.Ok job
        /\ ID job = ("delivery-" +:+ pretty (jobCounter j' + 1)%Z)%string
        /\ storage
             (CreateDeliveryJob now j' customerID region
                pickupLat pickupLng destLat destLng details).1 !! ID job = Some job).
Proof.
  intros Hrange Hk Hids H0 Hlen. cbv zeta.
  destruct (job_calls_ids range_of cs j Hrange Hk Hids H0) as (Hi & _ & Hc); [lia |].
  set (j' := job_calls range_of cs j) in *.
  split; [exact Hi |]. split; [exact Hc |].
  destruct (next_id_free j' Hi) as [Hride Hdelivery].
  assert (Hw : wrap64 (jobCounter j' + 1) = (jobCounter j' + 1)%Z)
    by (apply wrap64_succ; lia).
  split.
  - destruct (CreateRideJob_created now j' customerID region
                pickupLat pickupLng destLat destLng) as (job & Hres & Hid & Hst & _).
    + cbv zeta. rewrite Hw. exact Hride.
    + exists job. rewrite Hw in *. rewrite Hid. auto.
  - destruct (CreateDeliveryJob_created now j' customerID region
                pickupLat pickupLng destLat destLng details)
      as (job & Hres & Hid & Hst & _).
    + cbv zeta. rewrite Hw. exact Hdelivery.
    + exists job. rewrite Hw in *. rewrite Hid. auto.
Qed.


(** ** Job ledger: fares *)

Lemma calculateDistance_bounds (lat1 lng1 lat2 lng2 : R) :
  0 <= Geo.calculateDistance lat1 lng1 lat2 lng2 <= 6371 * PI.
Proof.
  unfold Geo.calculateDistance. cbv zeta.
  match goal with
  | |- _ <= _ * (2 * Go.Atan2 (sqrt ?a) (sqrt ?b)) <= _ =>
      pose proof (Atan2_first_quadrant (sqrt a) (sqrt b) (sqrt_pos a) (sqrt_pos b))
        as [Hlo Hhi]
  end.
  split; nra.
Qed.

(** X14. The fare of a created job.  The ride that [CreateRideJob] returns is
    priced by the great-circle distance between pickup and destination:
    base fare plus distance times the rate per km, the total being the
    sum of the two parts; with a rate that is not negative the fare lies
    between the base fare and the base fare plus the rate for half the
    circumference of the Earth.  The delivery that [CreateDeliveryJob]
    returns costs the flat rate, whatever the distance.  The assignment
    attempt that follows the pricing does not touch the fare, and neither
    call changes the prices. *)
Theorem created_job_fare (now : Z) (j : JobService F) (customerID region : string)
    (pickupLat pickupLng destLat destLng : R) (details : option DeliveryDetails) :
  let p := pricing j in
  let d := Geo.calculateDistance pickupLat pickupLng destLat destLng in
  match (CreateRideJob now j customerID region
           pickupLat pickupLng destLat destLng).2 with
  | Go.Ok job =>
      JobType job = "ride" /\ EstimatedDistanceKm job = d
      /\ BaseFare job = RideBaseFare p
      /\ DistanceFare job = d * RidePerKm p
      /\ FareAmount job = BaseFare job + DistanceFare job
      /\ (0 <= RidePerKm p ->
          RideBaseFare p <= FareAmount job
          <= RideBaseFare p + 6371 * PI * RidePerKm p)
  | Go.Err _ => True
  end
  /\ match (CreateDeliveryJob now j customerID region
              pickupLat pickupLng destLat destLng details).2 with
     | Go.Ok job =>
         JobType job = "delivery" /\ EstimatedDistanceKm job = d
         /\ BaseFare job = DeliveryFlatRate p
         /\ DistanceFare job = 0
         /\ FareAmount job = DeliveryFlatRate p
     | Go.Err _ => True
     end
  /\ pricing (CreateRideJob now j customerID region
                pickupLat pickupLng destLat destLng).1 = p
  /\ pricing (CreateDeliveryJob now j customerID region
                pickupLat pickupLng destLat destLng details).1 = p.
Proof.
  cbv zeta.
  pose proof (calculateDistance_bounds pickupLat pickupLng destLat destLng) as Hd.
  set (d := Geo.calculateDistance pickupLat pickupLng destLat destLng) in *.
  pose proof (create_storage now (with_jobCounter (wrap64 (jobCounter j + 1)) j)
                (mkJob ("ride-" +:+ pretty (wrap64 (jobCounter j + 1))) "ride" "pending"
                   None pickupLat pickupLng destLat destLng d
                   now None None customerID region None 0 0 0) eq_refl) as Hride.
  pose proof (create_storage now (with_jobCounter (wrap64 (jobCounter j + 1)) j)
                (mkJob ("delivery-" +:+ pretty (wrap64 (jobCounter j + 1))) "delivery"
                   "pending" None pickupLat pickupLng destLat destLng d
                   now None None customerID region details 0 0 0) eq_refl)
    as Hdelivery.
  cbv zeta in Hride, Hdelivery.
  destruct Hride as (_ & Hpr & Hr). destruct Hdelivery as (_ & Hpd & Hdl).
  split_and!.
  - clear Hdl.
    change (CreateRideJob now j customerID region
              pickupLat pickupLng destLat destLng)
      with (let job := CalculateFare (pricing (with_jobCounter (wrap64 (jobCounter j + 1)) j))
                         (mkJob ("ride-" +:+ pretty (wrap64 (jobCounter j + 1))) "ride"
                            "pending" None pickupLat pickupLng destLat destLng d
                            now None None customerID region None 0 0 0) in
            match CreateJob now (storage (with_jobCounter (wrap64 (jobCounter j + 1)) j)) job with
            | (_, Some err) => (with_jobCounter (wrap64 (jobCounter j + 1)) j, Go.Err err)
            | (m, None) =>
                let j := with_storage m (with_jobCounter (wrap64 (jobCounter j + 1)) j) in
                let job := through m job in
                let j := StreamJobEvent "created" job j in
                let '(j, _) := assignJob now j job in
                (j, Go.Ok (through (storage j) job))
            end).
    cbv zeta.
    destruct (storage (with_jobCounter (wrap64 (jobCounter j + 1)) j) !! _)
      as [old |]; [destruct Hr as (_ & err & ->); exact I |].
    destruct Hr as (job' & _ & -> & Hso & _).
    unfold CalculateFare in Hso. simpl in Hso.
    destruct Hso as (_ & Hjt & _ & _ & _ & _ & Hed & _ & _ & _ & _ & Hfa & Hbf & Hdf).
    simpl in *. rewrite Hjt, Hed, Hfa, Hbf, Hdf.
    split; [reflexivity |]. split; [reflexivity |]. split; [reflexivity |].
    split; [reflexivity |]. split; [reflexivity |].
    intros Hrate. destruct Hd as [Hd0 Hd1]. split; nra.
  - clear Hr.
    change (CreateDeliveryJob now j customerID region
              pickupLat pickupLng destLat destLng details)
      with (let job := CalculateFare (pricing (with_jobCounter (wrap64 (jobCounter j + 1)) j))
                         (mkJob ("delivery-" +:+ pretty (wrap64 (jobCounter j + 1)))
                            "delivery" "pending" None pickupLat pickupLng destLat destLng d
                            now None None customerID region details 0 0 0) in
            match CreateJob now (storage (with_jobCounter (wrap64 (jobCounter j + 1)) j)) job with
            | (_, Some err) => (with_jobCounter (wrap64 (jobCounter j + 1)) j, Go.Err err)
            | (m, None) =>
                let j := with_storage m (with_jobCounter (wrap64 (jobCounter j + 1)) j) in
                let job := through m job in
                let j := StreamJobEvent "created" job j in
                let '(j, _) := assignJob now j job in
                (j, Go.Ok (through (storage j) job))
            end).
    cbv zeta.
    destruct (storage (with_jobCounter (wrap64 (jobCounter j + 1)) j) !! _)
      as [old |]; [destruct Hdl as (_ & err & ->); exact I |].
    destruct Hdl as (job' & _ & -> & Hso & _).
    unfold CalculateFare in Hso. simpl in Hso.
    destruct Hso as (_ & Hjt & _ & _ & _ & _ & Hed & _ & _ & _ & _ & Hfa & Hbf & Hdf).
    simpl in *. rewrite Hjt, Hed, Hfa, Hbf, Hdf.
    split; [reflexivity |]. split; [reflexivity |]. split; [reflexivity |].
    split; reflexivity.
  - exact Hpr.
  - exact Hpd.
Qed.


(** ** Job ledger: the counters of the dashboard *)

Lemma fold_active_step (l : list Job) (a : Z) :
  fold_left active_step l a
  = (a + Z.of_nat (length (filter (fun job => Status job = "pending"
                                              \/ Status job = "assigned") l)))%Z.
Proof.
  revert a. induction l as [| job l IH]; intros a; simpl; [lia |].
  rewrite IH, filter_cons. unfold active_step.
  destruct (decide (Status job = "pending" \/ Status job = "assigned")); simpl length; lia.
Qed.

Lemma fold_revenue_step (l : list Job) (acc : Sums) :
  completedJobs (fold_left revenue_step l acc)
  = (completedJobs acc
     + Z.of_nat (length (filter (fun job => Status job = "completed") l)))%Z
  /\ rideCount (fold_left revenue_step l acc)
     = (rideCount acc
        + Z.of_nat (length (filter (fun job => Status job = "completed"
                                               /\ JobType job = "ride") l)))%Z
  /\ deliveryCount (fold_left revenue_step l acc)
     = (deliveryCount acc
        + Z.of_nat (length (filter (fun job => Status job = "completed"
                                               /\ JobType job <> "ride") l)))%Z.
Proof.
  revert acc. induction l as [| job l IH]; intros acc; simpl; [lia |].
  destruct (IH (revenue_step acc job)) as (-> & -> & ->).
  rewrite !filter_cons. unfold revenue_step.
  destruct (decide (Status job = "completed")) as [Hc | Hc];
    destruct (decide (JobType job = "ride")) as [Hr | Hr];
    repeat case_decide; try tauto; simpl; lia.
Qed.

Lemma count_partition (l : list Job) :
  (forall job, job ∈ l ->
     Status job = "pending" \/ Status job = "assigned" \/ Status job = "completed") ->
  (length (filter (fun job => Status job = "pending" \/ Status job = "assigned") l)
   + length (filter (fun job => Status job = "completed") l))%nat
  = length l.
Proof.
  induction l as [| job l IH]; intros H; [reflexivity |].
  specialize (IH (fun x Hx => H x (list_elem_of_further _ _ _ Hx))).
  pose proof (H job (list_elem_of_here _ _)) as Hjob.
  rewrite !filter_cons.
  destruct (decide (Status job = "pending" \/ Status job = "assigned")) as [Ha | Ha];
    destruct (decide (Status job = "completed")) as [Hc | Hc]; simpl length.
  - exfalso. rewrite Hc in Ha. destruct Ha; discriminate.
  - lia.
  - lia.
  - tauto.
Qed.

(** X15. The counters of the dashboard count stored jobs, each once, whatever
    order the storage lists them in.  [GetActiveJobCount] returns the
    number of jobs that are pending or assigned; [GetRevenue] reports as
    completed jobs the number of jobs with status "completed", as rides
    those of them of type "ride" and as deliveries all the others, so
    that completed jobs are rides plus deliveries; neither returns an
    error.  When every status is one the service writes, active and
    completed jobs together are all the jobs of the ledger. *)
Theorem dashboard_counts range_of (j : JobService F) :
  JobStorage.range_of_spec range_of ->
  GetActiveJobCount range_of j
  = Go.Ok (count_jobs (fun job => Status job = "pending" \/ Status job = "assigned")
             (storage j))
  /\ exists rev,
       GetRevenue range_of j = Go.Ok rev
       /\ completed_jobs rev
          = count_jobs (fun job => Status job = "completed") (storage j)
       /\ ride_count rev
          = count_jobs (fun job => Status job = "completed" /\ JobType job = "ride")
              (storage j)
       /\ delivery_count rev
          = count_jobs (fun job => Status job = "completed" /\ JobType job <> "ride")
              (storage j)
       /\ completed_jobs rev = (ride_count rev + delivery_count rev)%Z
       /\ (statuses_known (storage j) ->
           (count_jobs (fun job => Status job = "pending" \/ Status job = "assigned")
              (storage j)
            + completed_jobs rev)%Z
           = Z.of_nat (size (storage j))).
Proof.
  intros Hrange. unfold GetActiveJobCount, GetRevenue, JobStorage.GetAllJobs, count_jobs.
  split.
  - rewrite fold_active_step, (Hrange (storage j)). reflexivity.
  - eexists. split; [reflexivity |]. simpl.
    destruct (fold_revenue_step (range_of (storage j)) (mkSums 0 0 0 0 0 0))
      as (Hc & Hr & Hd).
    rewrite Hc, Hr, Hd. simpl. rewrite !(Hrange (storage j)).
    split; [reflexivity |]. split; [reflexivity |]. split; [reflexivity |].
    split.
    + induction ((map_to_list (storage j)).*2) as [| job l IH]; [reflexivity |].
      rewrite !filter_cons.
      destruct (decide (Status job = "completed")) as [Hcj | Hcj];
        destruct (decide (JobType job = "ride")) as [Hrj | Hrj];
        repeat case_decide; try tauto; simpl length; lia.
    + intros Hknown.
      assert (Hpart : forall job, job ∈ (map_to_list (storage j)).*2 ->
                Status job = "pending" \/ Status job = "assigned"
                \/ Status job = "completed").
      { intros job Hin. apply list_elem_of_fmap in Hin as ([k v] & -> & Hkv).
        apply elem_of_map_to_list in Hkv. exact (Hknown k v Hkv). }
      apply count_partition in Hpart.
      rewrite length_fmap, length_map_to_list in Hpart. lia.
Qed.

End LedgerFacts.

(** ** Job ledger: the walkthrough *)

Section LedgerInstances.

Import JobStorage JobSvc.

Lemma job_listing_order_spec : JobStorage.range_of_spec job_listing_order.
Proof. intros m. reflexivity. Qed.

Lemma job_keyed_jobService2 : job_keyed (storage jobService2).
Proof.
  intros id job Hjob. unfold jobService2 in Hjob. simpl in Hjob.
  apply lookup_singleton_Some in Hjob as [<- <-]. reflexivity.
Qed.

Lemma ids_issued_jobService2 : ids_issued jobService2.
Proof.
  intros id [job Hjob]. unfold jobService2 in Hjob. simpl in Hjob.
  apply lookup_singleton_Some in Hjob as [<- <-].
  exists 1%Z. split; [simpl; lia | left; reflexivity].
Qed.

(** The witness of [ProcessPendingJobs_spec]: the sweep over the ledger
    with the one pending ride. *)
Lemma ProcessPendingJobs_spec_witness :
  JobStorage.range_of_spec job_listing_order /\ job_keyed (storage jobService2)
  /\ (@ProcessPendingJobs _ fleetClient1 job_listing_order 5 jobService2).2 = None.
Proof.
  split; [exact job_listing_order_spec |]. split; [exact job_keyed_jobService2 |].
  apply (@ProcessPendingJobs_spec _ fleetClient1 job_listing_order 5 jobService2
           job_listing_order_spec job_keyed_jobService2).
Defined.

(** The witness of [job_call_life_cycle]: completing the pending ride. *)
Lemma job_call_life_cycle_witness :
  JobStorage.range_of_spec job_listing_order /\ job_keyed (storage jobService2)
  /\ ledger_step (storage jobService2)
       (storage (@job_call _ fleetClient1 job_listing_order 5
                   (CallCompleteJob "ride-1") jobService2)).
Proof.
  split; [exact job_listing_order_spec |]. split; [exact job_keyed_jobService2 |].
  apply (@job_call_life_cycle _ fleetClient1 job_listing_order 5
           (CallCompleteJob "ride-1") jobService2
           job_listing_order_spec job_keyed_jobService2).
Defined.

(** The witness of [ledger_history]: a sweep, a new delivery and a
    completion on the ledger with the one pending ride. *)
Lemma ledger_history_witness :
  JobStorage.range_of_spec job_listing_order /\ job_keyed (storage jobService2)
  /\ history (storage jobService2)
       (storage (@job_calls _ fleetClient1 job_listing_order
                   [(5%Z, CallProcessPendingJobs);
                    (6%Z, CallCreateDeliveryJob "customer-2" "us-west-2"
                            37.7749 (-122.4194) 37.8 (-122.4) None);
                    (7%Z, CallCompleteJob "ride-1")] jobService2)).
Proof.
  split; [exact job_listing_order_spec |]. split; [exact job_keyed_jobService2 |].
  apply (@ledger_history _ fleetClient1 job_listing_order
           [(5%Z, CallProcessPendingJobs);
            (6%Z, CallCreateDeliveryJob "customer-2" "us-west-2"
                    37.7749 (-122.4194) 37.8 (-122.4) None);
            (7%Z, CallCompleteJob "ride-1")] jobService2
           job_listing_order_spec job_keyed_jobService2).
Defined.

(** The witness of [creation_succeeds]: after a sweep and a completion on
    the ledger with the one pending ride, the next ride is created. *)
Lemma creation_succeeds_witness :
  JobStorage.range_of_spec job_listing_order /\ job_keyed (storage jobService2)
  /\ ids_issued jobService2 /\ (0 <= jobCounter jobService2)%Z
  /\ (jobCounter jobService2 + 2 < 2 ^ 63 - 1)%Z
  /\ ids_issued (@job_calls _ fleetClient1 job_listing_order
                   [(5%Z, CallProcessPendingJobs); (7%Z, CallCompleteJob "ride-1")]
                   jobService2).
Proof.
  split; [exact job_listing_order_spec |]. split; [exact job_keyed_jobService2 |].
  split; [exact ids_issued_jobService2 |].
  split; [simpl; lia |]. split; [simpl; lia |].
  apply (@creation_succeeds _ fleetClient1 job_listing_order
           [(5%Z, CallProcessPendingJobs); (7%Z, CallCompleteJob "ride-1")]
           jobService2 8 "customer-2" "us-west-2" 37.7749 (-122.4194) 37.8 (-122.4) None
           job_listing_order_spec job_keyed_jobService2 ids_issued_jobService2).
  - simpl. lia.
  - simpl. lia.
Defined.

(** The witness of [dashboard_counts]: the counters of the ledger with
    the one pending ride. *)
Lemma dashboard_counts_witness :
  JobStorage.range_of_spec job_listing_order
  /\ @GetActiveJobCount (gmap string FleetStorage.Vehicle) job_listing_order jobService2
     = Go.Ok (count_jobs (fun job => Status job = "pending" \/ Status job = "assigned")
                (storage jobService2)).
Proof.
  split; [exact job_listing_order_spec |].
  apply (@dashboard_counts (gmap string FleetStorage.Vehicle) job_listing_order
           jobService2 job_listing_order_spec).
Defined.

End LedgerInstances.

(** ** Charging stations *)

Section ChargingFacts.

Import Charging.

(** The loop of [FindNearestChargingStation] keeps a station of the list
    seen so far at the least distance, with its distance. *)
Lemma nearest_station_fold (vehicleLat vehicleLng : R)
    (rest seen : list ChargingStation) (acc : ChargingStation * R) :
  acc.1 ∈ seen -> acc.2 = stationDistance vehicleLat vehicleLng acc.1 ->
  (forall s, s ∈ seen -> acc.2 <= stationDistance vehicleLat vehicleLng s) ->
  let res :=
    fold_left
      (fun (acc : ChargingStation * R) (station : ChargingStation) =>
         let distance :=
           Geo.haversineDistance vehicleLat vehicleLng (Lat station) (Lng station) in
         if Rlt_dec distance (snd acc) then (station, distance) else acc)
      rest acc in
  res.1 ∈ seen ++ rest
  /\ res.2 = stationDistance vehicleLat vehicleLng res.1
  /\ forall s, s ∈ seen ++ rest -> res.2 <= stationDistance vehicleLat vehicleLng s.
Proof.
  revert seen acc. induction rest as [| station rest IH]; intros seen acc Hin Hd Hmin.
  - cbv zeta. simpl. rewrite app_nil_r. auto.
  - cbv zeta. simpl fold_left.
    replace (seen ++ station :: rest) with ((seen ++ [station]) ++ rest)
      by (rewrite <- app_assoc; reflexivity).
    apply IH.
    + destruct (Rlt_dec _ _); simpl.
      * apply elem_of_app. right. left.
      * apply elem_of_app. left. exact Hin.
    + destruct (Rlt_dec _ _); simpl; [reflexivity | exact Hd].
    + intros s Hs. apply elem_of_app in Hs as [Hs | Hs].
      * specialize (Hmin s Hs).
        destruct (Rlt_dec _ _) as [Hlt | Hge]; simpl in *; lra.
      * apply list_elem_of_singleton in Hs as ->.
        fold (stationDistance vehicleLat vehicleLng station).
        destruct (Rlt_dec _ _) as [Hlt | Hge]; simpl in *;
          unfold stationDistance in *; lra.
Qed.

(** X16. [FindNearestChargingStation] returns a station of the region's list,
    and no station of that list is nearer to the vehicle.  No region has
    an empty list - an unknown region gets the two default stations - so
    the "emergency-station" at the vehicle's own position, which the code
    provides for an empty list, is never returned. *)
Theorem FindNearestChargingStation_nearest (vehicleLat vehicleLng : R)
    (region : string) :
  let nearest := FindNearestChargingStation vehicleLat vehicleLng region in
  nearest ∈ GetChargingStations region
  /\ (forall s, s ∈ GetChargingStations region ->
        stationDistance vehicleLat vehicleLng nearest
        <= stationDistance vehicleLat vehicleLng s)
  /\ ID nearest <> "emergency-station"
  /\ (region <> "us-west-2" ->
      ID nearest = "default-station-1" \/ ID nearest = "default-station-2").
Proof.
  cbv zeta.
  assert (Hspec : FindNearestChargingStation vehicleLat vehicleLng region
                  ∈ GetChargingStations region
                  /\ forall s, s ∈ GetChargingStations region ->
                       stationDistance vehicleLat vehicleLng
                         (FindNearestChargingStation vehicleLat vehicleLng region)
                       <= stationDistance vehicleLat vehicleLng s).
  { unfold FindNearestChargingStation.
    destruct (GetChargingStations region) as [| first rest] eqn:Hlist.
    - unfold GetChargingStations in Hlist. case_decide; discriminate.
    - destruct (nearest_station_fold vehicleLat vehicleLng rest [first]
                  (first, Geo.haversineDistance vehicleLat vehicleLng
                            (Lat first) (Lng first)))
        as (Hin & Hd & Hmin).
      + left.
      + reflexivity.
      + intros s Hs. apply list_elem_of_singleton in Hs as ->. simpl.
        unfold stationDistance. lra.
      + cbv zeta in Hin, Hd, Hmin. simpl app in Hin, Hmin.
        split; [exact Hin |]. intros s Hs. rewrite <- Hd. apply Hmin. exact Hs. }
  destruct Hspec as [Hin Hmin].
  split; [exact Hin |]. split; [exact Hmin |].
  unfold GetChargingStations in Hin. split.
  - case_decide;
      repeat (apply elem_of_cons in Hin as [Heq | Hin];
              [rewrite Heq; simpl; discriminate |]);
      inversion Hin.
  - intros Hr. case_decide; [contradiction |].
    apply elem_of_cons in Hin as [Heq | Hin]; [rewrite Heq; left; reflexivity |].
    apply elem_of_cons in Hin as [Heq | Hin]; [rewrite Heq; right; reflexivity |].
    inversion Hin.
Qed.

End ChargingFacts.

(** ** Vehicle simulation: the modes of a vehicle *)

Section ModeFacts.

Import Simulator.

Lemma same_mode_refl v : same_mode v v.
Proof. repeat split. Qed.

Lemma depleted_same_mode v1 v2 v' :
  same_mode v1 v2 -> depleted v2 v' -> depleted v1 v'.
Proof.
  unfold same_mode, depleted. intros (Hs & Hp & Hj & Hc) H.
  rewrite Hs, Hp, Hj, Hc in H. exact H.
Qed.

Lemma handleBatteryDepletion_depleted v : depleted v (handleBatteryDepletion v).
Proof.
  unfold handleBatteryDepletion, depleted.
  case_decide as Hc.
  - left. destruct Hc as [Hs Hp]. simpl. auto 10.
  - right. split; [exact Hc |].
    destruct (currentJob v) as [job |] eqn:Hjob; simpl; rewrite ?Hjob; auto 10.
Qed.

Lemma drainBattery_outcome km v :
  same_mode v (drainBattery km v)
  /\ isMoving (drainBattery km v) = isMoving v
  /\ LocationLat (drainBattery km v) = LocationLat v
  /\ LocationLng (drainBattery km v) = LocationLng v
  /\ targetLat (drainBattery km v) = targetLat v
  /\ targetLng (drainBattery km v) = targetLng v
  \/ depleted v (drainBattery km v).
Proof.
  unfold drainBattery.
  destruct (Rle_dec km 0); [left; repeat split |]. cbv zeta.
  destruct (Req_dec_T _ 0); [| left; repeat split].
  right. eapply depleted_same_mode; [| apply handleBatteryDepletion_depleted].
  repeat split.
Qed.

Lemma distanceToTarget_at_target v :
  LocationLat v = targetLat v -> LocationLng v = targetLng v ->
  distanceToTarget v = 0.
Proof.
  intros Hlat Hlng. unfold distanceToTarget. cbv zeta. rewrite Hlat, Hlng.
  replace ((targetLat v - targetLat v) * (targetLat v - targetLat v)
           + (targetLng v - targetLng v) * (targetLng v - targetLng v))
    with 0 by ring.
  apply sqrt_0.
Qed.

Lemma moveTowardsTarget_outcome speed v : move_outcome v (moveTowardsTarget speed v).
Proof.
  unfold moveTowardsTarget, move_outcome.
  destruct (Rle_dec (BatteryLevel v) 0);
    [right; apply handleBatteryDepletion_depleted |].
  cbv zeta. destruct (Rlt_dec (distanceToTarget v) 0.001).
  - left. split; [repeat split |]. right. split; [reflexivity |].
    apply distanceToTarget_at_target; reflexivity.
  - match goal with |- context [drainBattery ?km ?w] =>
      destruct (drainBattery_outcome km w) as [(Hm & Hmv & _) | Hd] end.
    + left. split; [exact Hm | left; exact Hmv].
    + right. eapply depleted_same_mode; [| exact Hd]. repeat split.
Qed.

Lemma moveAlongRoute_outcome speed v : move_outcome v (moveAlongRoute speed v).
Proof.
  unfold moveAlongRoute.
  destruct (Rle_dec (BatteryLevel v) 0);
    [right; apply handleBatteryDepletion_depleted |].
  destruct (currentRoute v) as [route |]; [| apply moveTowardsTarget_outcome].
  destruct (Routing.Points route) as [| p0 points] eqn:Hpts;
    [apply moveTowardsTarget_outcome |].
  destruct ((p0 :: points) !! S (routeIndex v)) as [nextPoint |].
  - cbv zeta.
    match goal with |- context [drainBattery ?km ?w] =>
      destruct (drainBattery_outcome km w) as [(Hm & Hmv & _) | Hd] end.
    + left. destruct (Rlt_dec _ _); (split; [exact Hm | left; exact Hmv]).
    + right. eapply depleted_same_mode; [| exact Hd].
      destruct (Rlt_dec _ _); repeat split.
  - left. split; [repeat split |]. right. split; [reflexivity |].
    apply distanceToTarget_at_target; reflexivity.
Qed.

Lemma setRouteTarget_mode reply lat lng v :
  same_mode v (setRouteTarget reply lat lng v)
  /\ isMoving (setRouteTarget reply lat lng v) = true
  /\ BatteryLevel (setRouteTarget reply lat lng v) = BatteryLevel v
  /\ BatteryRangeKm (setRouteTarget reply lat lng v) = BatteryRangeKm v
  /\ batteryDrainRate (setRouteTarget reply lat lng v) = batteryDrainRate v.
Proof.
  unfold setRouteTarget. cbv zeta.
  destruct (Routing.GetRoute _ _ _ _ _); repeat split.
Qed.

Lemma goToCharge_mode reply v :
  Status (goToCharge reply v) = "charging"
  /\ jobPhase (goToCharge reply v) = "going_to_charge"
  /\ isMoving (goToCharge reply v) = true
  /\ currentJob (goToCharge reply v) = currentJob v
  /\ CurrentJobID (goToCharge reply v) = CurrentJobID v
  /\ BatteryLevel (goToCharge reply v) = BatteryLevel v
  /\ BatteryRangeKm (goToCharge reply v) = BatteryRangeKm v
  /\ batteryDrainRate (goToCharge reply v) = batteryDrainRate v.
Proof.
  unfold goToCharge. cbv zeta.
  match goal with |- context [setRouteTarget ?r ?a ?b ?w] =>
    destruct (setRouteTarget_mode r a b w) as ((Hs & Hp & Hj & Hc) & Hmv & Hb & Hr & Hd)
  end.
  simpl in *. auto 10.
Qed.


Lemma mode_available v :
  mode_consistent v -> Status v = "available" ->
  CurrentJobID v = None /\ jobPhase v = "idle" /\ currentJob v = None.
Proof.
  intros (Hid & [(_ & H) | [(Hs & _) | [(Hs & _) | (Hs & _)]]]) Hst;
    [tauto | | |]; rewrite Hst in Hs; discriminate.
Qed.

Lemma mode_busy v :
  mode_consistent v -> Status v = "busy" ->
  CurrentJobID v = None /\ (jobPhase v = "pickup" \/ jobPhase v = "delivery")
  /\ is_Some (currentJob v) /\ isMoving v = true.
Proof.
  intros (Hid & [(Hs & _) | [(_ & H) | [(Hs & _) | (Hs & _)]]]) Hst;
    [| tauto | |]; rewrite Hst in Hs; discriminate.
Qed.

Lemma mode_charging v :
  mode_consistent v -> Status v = "charging" ->
  CurrentJobID v = None /\ currentJob v = None
  /\ (jobPhase v = "going_to_charge" /\ isMoving v = true
      \/ jobPhase v = "charging" /\ isMoving v = false).
Proof.
  intros (Hid & [(Hs & _) | [(Hs & _) | [(_ & H) | (Hs & _)]]]) Hst;
    [| | tauto |]; rewrite Hst in Hs; discriminate.
Qed.

Lemma mode_maintenance v :
  mode_consistent v -> Status v = "maintenance" ->
  CurrentJobID v = None /\ jobPhase v = "stranded" /\ currentJob v = None
  /\ isMoving v = false.
Proof.
  intros (Hid & [(Hs & _) | [(Hs & _) | [(Hs & _) | (_ & H)]]]) Hst;
    [| | | tauto]; rewrite Hst in Hs; discriminate.
Qed.

Lemma mode_statuses v :
  mode_consistent v ->
  Status v = "available" \/ Status v = "busy" \/ Status v = "charging"
  \/ Status v = "maintenance".
Proof. intros (_ & [(Hs & _) | [(Hs & _) | [(Hs & _) | (Hs & _)]]]); auto. Qed.

Lemma stranded_mode v :
  CurrentJobID v = None -> Status v = "maintenance" -> jobPhase v = "stranded" ->
  currentJob v = None -> isMoving v = false -> mode_consistent v.
Proof. intros. split; [assumption |]. right; right; right. auto. Qed.

Lemma checkForJobs_mode polled reply v :
  mode_consistent v ->
  mode_consistent (checkForJobs polled reply v)
  /\ BatteryLevel (checkForJobs polled reply v) = BatteryLevel v
  /\ BatteryRangeKm (checkForJobs polled reply v) = BatteryRangeKm v
  /\ batteryDrainRate (checkForJobs polled reply v) = batteryDrainRate v
  /\ (checkForJobs polled reply v = v
      \/ Status v = "available" /\ Status (checkForJobs polled reply v) = "busy"
         /\ exists jobs job, polled = Go.Ok jobs /\ job ∈ jobs
              /\ jStatus job = "assigned"
              /\ currentJob (checkForJobs polled reply v) = Some job).
Proof.
  intros Hm. unfold checkForJobs.
  case_decide as Hgate; [auto 10 |].
  destruct polled as [jobs | err]; [| auto 10].
  destruct (find _ jobs) as [job |] eqn:Hfind; [| auto 10].
  apply find_some in Hfind as [Hin Hst].
  apply bool_decide_eq_true in Hst. apply list_elem_of_In in Hin.
  assert (Hav : Status v = "available").
  { destruct (decide (Status v = "available")); [assumption |]. exfalso. auto. }
  destruct (mode_available v Hm Hav) as (Hid & _ & _).
  unfold startJob. cbv zeta.
  match goal with |- context [setRouteTarget ?r ?a ?b ?w] =>
    destruct (setRouteTarget_mode r a b w) as ((Hs & Hp & Hj & Hc) & Hmv & Hb & Hr & Hd);
    set (v' := setRouteTarget r a b w) in *
  end.
  simpl in *. split.
  - split; [congruence |]. right; left. rewrite Hs, Hp, Hj. eauto.
  - split; [exact Hb |]. split; [exact Hr |]. split; [exact Hd |].
    right. split; [exact Hav |]. split; [exact Hs |]. eauto 10.
Qed.

Lemma simulateIdleBehavior_mode chance a b speed v :
  mode_consistent v -> Status v = "available" ->
  mode_consistent (simulateIdleBehavior chance a b speed v)
  /\ (Status (simulateIdleBehavior chance a b speed v) = "available"
      \/ Status (simulateIdleBehavior chance a b speed v) = "maintenance")
  /\ currentJob (simulateIdleBehavior chance a b speed v) = None.
Proof.
  intros Hm Hav. destruct (mode_available v Hm Hav) as (Hid & Hp & Hj).
  unfold simulateIdleBehavior.
  destruct (isMoving v); simpl negb; cbv iota.
  - destruct (moveTowardsTarget_outcome speed v)
      as [((Hs & Hp' & Hj' & Hc) & _) | [(Hs & _) | (_ & Hs & Hp' & Hmv & Hj' & Hc)]].
    + split; [| split; [left; congruence | congruence]].
      split; [congruence |]. left. split; [congruence |]. split; congruence.
    + rewrite Hav in Hs. discriminate.
    + split; [| split; [right; exact Hs | exact Hj']].
      apply stranded_mode; auto.
  - destruct (Rlt_dec chance 0.1); simpl; [| auto].
    split; [| auto]. split; [exact Hid |]. left. auto.
Qed.

Ltac setters :=
  unfold mode_consistent;
  cbn [ID Region Status BatteryLevel BatteryRangeKm LocationLat LocationLng
       CurrentJobID VehicleType targetLat targetLng isMoving batteryDrainRate
       currentJob jobPhase currentRoute routeIndex
       set_Status set_BatteryLevel set_BatteryRangeKm set_LocationLat
       set_LocationLng set_CurrentJobID set_targetLat set_targetLng set_isMoving
       set_currentJob set_jobPhase set_currentRoute set_routeIndex] in *.

Tactic Notation "name_goToCharge" ident(v') ident(H) :=
  match goal with
  | |- context [goToCharge ?r ?w] =>
      pose proof (goToCharge_mode r w) as H;
      set (v' := goToCharge r w) in *; clearbody v'; unfold same_mode in H; setters
  end.

Tactic Notation "name_setRouteTarget" ident(v') ident(H) :=
  match goal with
  | |- context [setRouteTarget ?r ?a ?b ?w] =>
      pose proof (setRouteTarget_mode r a b w) as H;
      set (v' := setRouteTarget r a b w) in *; clearbody v'; unfold same_mode in H; setters
  end.

Tactic Notation "name_moveAlongRoute" ident(v') ident(H) :=
  match goal with
  | |- context [moveAlongRoute ?s ?w] =>
      pose proof (moveAlongRoute_outcome s w) as H;
      set (v' := moveAlongRoute s w) in *; clearbody v'
  end.

Lemma simulateJobExecution_mode reply speed v :
  mode_consistent v -> Status v = "busy" ->
  mode_consistent (simulateJobExecution reply speed v)
  /\ (currentJob (simulateJobExecution reply speed v) = currentJob v
      \/ currentJob (simulateJobExecution reply speed v) = None).
Proof.
  intros Hm Hbusy. destruct (mode_busy v Hm Hbusy) as (Hid & Hphase & [job Hjob] & Hmv).
  unfold simulateJobExecution. rewrite Hjob.
  destruct (Rle_dec (BatteryLevel v) 15).
  - cbv zeta. name_goToCharge v' H.
    destruct H as (Hs & Hp & Hmv' & Hj & Hc & _).
    split; [| right; exact Hj].
    split; [exact Hc |]. right; right; left. auto.
  - rewrite Hmv. cbv zeta. name_moveAlongRoute v1 H.
    destruct H
      as [((Hs & Hp & Hj & Hc) & Harr) | [(Hs & _) | (_ & Hs & Hp & Hmv' & Hj & Hc)]].
    + destruct (Rlt_dec (distanceToTarget v1) 0.001) as [Hnear | Hfar].
      * destruct (decide (jobPhase v1 = "pickup")) as [Hpick | Hnp].
        -- simpl currentJob. rewrite Hj, Hjob.
           name_setRouteTarget v2 H.
           destruct H as ((Hs2 & Hp2 & Hj2 & Hc2) & Hmv2 & _).
           split; [| left; congruence].
           split; [congruence |]. right; left.
           split; [congruence |]. split; [right; exact Hp2 |].
           split; [rewrite Hj2, Hj; eauto | exact Hmv2].
        -- destruct (decide (jobPhase v1 = "delivery")) as [Hdel | Hnd].
           ++ unfold completeCurrentJob. rewrite Hj, Hjob. setters.
              split; [| right; reflexivity].
              split; [reflexivity |]. left. auto.
           ++ exfalso. rewrite Hp in Hnp, Hnd. tauto.
      * split; [| left; congruence].
        destruct Harr as [Hsame | [_ Hzero]]; [| exfalso; apply Hfar; rewrite Hzero; lra].
        split; [congruence |]. right; left.
        split; [congruence |]. split; [rewrite Hp; exact Hphase |].
        split; [rewrite Hj; eauto | congruence].
    + rewrite Hbusy in Hs. discriminate.
    + assert (Hres : mode_consistent v1) by (apply stranded_mode; auto).
      destruct (Rlt_dec (distanceToTarget v1) 0.001); [| auto].
      destruct (decide (jobPhase v1 = "pickup")) as [Hpick | _];
        [rewrite Hp in Hpick; discriminate |].
      destruct (decide (jobPhase v1 = "delivery")) as [Hdel | _];
        [rewrite Hp in Hdel; discriminate |].
      auto.
Qed.

Lemma simulateCharging_mode speed v :
  mode_consistent v -> Status v = "charging" ->
  mode_consistent (simulateCharging speed v)
  /\ (Status (simulateCharging speed v) = "charging"
      \/ Status (simulateCharging speed v) = "available"
         /\ 95 <= BatteryLevel (simulateCharging speed v))
  /\ currentJob (simulateCharging speed v) = None.
Proof.
  intros Hm Hch. destruct (mode_charging v Hm Hch) as (Hid & Hjob & Hphase).
  unfold simulateCharging.
  case_decide as Hgo.
  - destruct Hgo as [Hmv Hp]. cbv zeta. name_moveAlongRoute v1 H.
    destruct H
      as [((Hs & Hp' & Hj & Hc) & Harr)
         | [(_ & _ & Hs & Hp' & Hmv' & Hj & Hc) | (Hnot & _)]];
      [| | exfalso; apply Hnot; auto].
    + destruct (Rlt_dec (distanceToTarget v1) 0.001) as [Hnear | Hfar]; setters.
      * split; [| split; [left; congruence | congruence]].
        split; [congruence |]. right; right; left.
        split; [congruence |]. split; [congruence |]. right. auto.
      * destruct Harr as [Hsame | [_ Hzero]]; [| exfalso; apply Hfar; rewrite Hzero; lra].
        split; [| split; [left; congruence | congruence]].
        split; [congruence |]. right; right; left.
        split; [congruence |]. split; [congruence |]. left. split; congruence.
    + destruct (Rlt_dec (distanceToTarget v1) 0.001); setters.
      * split; [| split; [left; congruence | congruence]].
        split; [congruence |]. right; right; left.
        split; [congruence |]. split; [congruence |]. right. auto.
      * split; [| split; [left; congruence | congruence]].
        split; [congruence |]. right; right; left.
        split; [congruence |]. split; [congruence |]. right. auto.
  - case_decide as Hp.
    + destruct (Rlt_dec (BatteryLevel v) 95) as [Hlow | Hfull]; setters.
      * split; [| split; [left; exact Hch | exact Hjob]].
        split; [exact Hid |]. right; right; left.
        split; [exact Hch |]. split; [exact Hjob |]. right.
        destruct Hphase as [[Hp' _] | [_ Hmv]]; [congruence | auto].
      * split; [| split; [right; split; [reflexivity | lra] | exact Hjob]].
        split; [exact Hid |]. left. auto.
    + split; [exact Hm |]. split; [left; exact Hch | exact Hjob].
Qed.

Lemma simulateMaintenance_mode reply v :
  mode_consistent v -> Status v = "maintenance" ->
  mode_consistent (simulateMaintenance reply v)
  /\ Status (simulateMaintenance reply v) = "charging"
  /\ jobPhase (simulateMaintenance reply v) = "going_to_charge"
  /\ BatteryLevel (simulateMaintenance reply v) = 20
  /\ BatteryRangeKm (simulateMaintenance reply v) = 20 * batteryDrainRate v
  /\ batteryDrainRate (simulateMaintenance reply v) = batteryDrainRate v
  /\ currentJob (simulateMaintenance reply v) = None.
Proof.
  intros Hm Hmt. destruct (mode_maintenance v Hm Hmt) as (Hid & Hp & Hjob & Hmv).
  unfold simulateMaintenance. rewrite decide_True by exact Hp. cbv zeta.
  name_goToCharge v' H.
  destruct H as (Hs & Hp' & Hmv' & Hj & Hc & Hb & Hr & Hd).
  split; [| split; [exact Hs |]].
  - split; [congruence |]. right; right; left.
    split; [exact Hs |]. split; [congruence |]. left. auto.
  - split; [exact Hp' |]. split; [exact Hb |]. split; [exact Hr |].
    split; [exact Hd | congruence].
Qed.


(** The low-battery check that ends a tick. *)
Lemma low_battery_mode reply v :
  mode_consistent v ->
  let v' :=
    if Rle_dec (BatteryLevel v) 30 then
      if decide (Status v = "available") then goToCharge reply v else v
    else v in
  mode_consistent v' /\ currentJob v' = currentJob v
  /\ BatteryLevel v' = BatteryLevel v /\ BatteryRangeKm v' = BatteryRangeKm v
  /\ (v' = v
      \/ Status v = "available" /\ BatteryLevel v <= 30
         /\ Status v' = "charging" /\ jobPhase v' = "going_to_charge").
Proof.
  intros Hm. cbv zeta.
  destruct (Rle_dec (BatteryLevel v) 30) as [Hlow | _]; [| auto 10].
  destruct (decide (Status v = "available")) as [Hav | _]; [| auto 10].
  destruct (mode_available v Hm Hav) as (Hid & _ & Hjob).
  name_goToCharge v' H. destruct H as (Hs & Hp & Hmv & Hj & Hc & Hb & Hr & _).
  split; [| auto 10].
  split; [congruence |]. right; right; left.
  split; [exact Hs |]. split; [congruence |]. left. auto.
Qed.

(** One tick, by the status the vehicle begins it with. *)
Lemma simulationStep_cases (e : Tick) (v : Vehicle) :
  mode_consistent v ->
  mode_consistent (simulationStep e v)
  /\ (Status v = "available"
      /\ (currentJob (simulationStep e v) = None
          \/ exists jobs job, polled e = Go.Ok jobs /\ job ∈ jobs
               /\ jStatus job = "assigned"
               /\ currentJob (simulationStep e v) = Some job)
      \/ Status v = "busy"
         /\ (currentJob (simulationStep e v) = currentJob v
             \/ currentJob (simulationStep e v) = None)
      \/ Status v = "charging" /\ currentJob (simulationStep e v) = None
         /\ (Status (simulationStep e v) = "charging"
             \/ Status (simulationStep e v) = "available"
                /\ 95 <= BatteryLevel (simulationStep e v))
      \/ Status v = "maintenance" /\ currentJob (simulationStep e v) = None
         /\ Status (simulationStep e v) = "charging"
         /\ jobPhase (simulationStep e v) = "going_to_charge"
         /\ BatteryLevel (simulationStep e v) = 20
         /\ BatteryRangeKm (simulationStep e v) = 20 * batteryDrainRate v).
Proof.
  intros Hm. unfold simulationStep. cbv zeta.
  destruct (checkForJobs_mode (polled e) (replyJob e) v Hm)
    as (Hm1 & _ & _ & Hd1 & Hcheck).
  set (v1 := checkForJobs (polled e) (replyJob e) v) in *. clearbody v1.
  destruct (mode_statuses v1 Hm1) as [Hst | [Hst | [Hst | Hst]]].
  - (* still available: nothing was polled *)
    destruct Hcheck as [-> | (_ & Hb & _)]; [| rewrite Hst in Hb; discriminate].
    rewrite decide_True by exact Hst.
    destruct (simulateIdleBehavior_mode (chance e) (rndAngle e) (rndRadius e)
                (DEMO_SPEED e) v Hm Hst) as (Hm2 & _ & Hj2).
    set (v2 := simulateIdleBehavior _ _ _ _ v) in *. clearbody v2.
    destruct (low_battery_mode (replyLow e) v2 Hm2) as (Hm3 & Hj3 & _).
    cbv zeta in Hm3, Hj3.
    split; [exact Hm3 |]. left. split; [exact Hst |]. left. congruence.
  - (* busy: with the job it had, or with the job just polled *)
    rewrite decide_False by (rewrite Hst; discriminate).
    rewrite decide_True by exact Hst.
    destruct (simulateJobExecution_mode (replyStep e) (DEMO_SPEED e) v1 Hm1 Hst)
      as (Hm2 & Hj2).
    set (v2 := simulateJobExecution _ _ v1) in *. clearbody v2.
    destruct (low_battery_mode (replyLow e) v2 Hm2) as (Hm3 & Hj3 & _).
    cbv zeta in Hm3, Hj3.
    split; [exact Hm3 |]. rewrite Hj3.
    destruct Hcheck as [-> | (Hav & _ & jobs & job & Hpoll & Hin & Hjs & Hcur)].
    + right; left. auto.
    + left. split; [exact Hav |].
      destruct Hj2 as [Hj2 | Hj2]; [| left; exact Hj2].
      right. exists jobs, job. rewrite Hj2. auto.
  - destruct Hcheck as [-> | (_ & Hb & _)]; [| rewrite Hst in Hb; discriminate].
    rewrite decide_False by (rewrite Hst; discriminate).
    rewrite decide_False by (rewrite Hst; discriminate).
    rewrite decide_True by exact Hst.
    destruct (simulateCharging_mode (DEMO_SPEED e) v Hm Hst) as (Hm2 & Hs2 & Hj2).
    set (v2 := simulateCharging _ v) in *. clearbody v2.
    destruct (low_battery_mode (replyLow e) v2 Hm2) as (Hm3 & Hj3 & Hb3 & _ & Hlow).
    cbv zeta in Hm3, Hj3, Hb3, Hlow.
    split; [exact Hm3 |]. right; right; left.
    split; [exact Hst |]. split; [congruence |].
    destruct Hlow as [-> | (Hav & Hle & Hs3 & _)]; [exact Hs2 |].
    left. exact Hs3.
  - destruct Hcheck as [-> | (_ & Hb & _)]; [| rewrite Hst in Hb; discriminate].
    rewrite decide_False by (rewrite Hst; discriminate).
    rewrite decide_False by (rewrite Hst; discriminate).
    rewrite decide_False by (rewrite Hst; discriminate).
    rewrite decide_True by exact Hst.
    destruct (simulateMaintenance_mode (replyStep e) v Hm Hst)
      as (Hm2 & Hs2 & Hp2 & Hb2 & Hr2 & _ & Hj2).
    set (v2 := simulateMaintenance _ v) in *. clearbody v2.
    destruct (low_battery_mode (replyLow e) v2 Hm2) as (Hm3 & Hj3 & _ & _ & Hlow).
    cbv zeta in Hm3, Hj3, Hlow.
    split; [exact Hm3 |]. right; right; right.
    destruct Hlow as [-> | (Hav & _)]; [auto 10 |].
    rewrite Hs2 in Hav. discriminate.
Qed.

Lemma NewVehicle_mode (r : Z) (id region fleetURL jobURL : string) (lat lng : R) :
  mode_consistent (NewVehicle r id region fleetURL jobURL lat lng).
Proof. split; [reflexivity |]. left. repeat split. Qed.

Lemma simulationLoop_mode (es : list Tick) (v : Vehicle) :
  mode_consistent v -> mode_consistent (simulationLoop es v).
Proof.
  unfold simulationLoop. revert v. induction es as [| e es IH]; intros v Hm; simpl.
  - exact Hm.
  - apply IH. apply (simulationStep_cases e v Hm).
Qed.

(** X17. The state machine of a simulated vehicle.  At every tick of every
    run from [NewVehicle], whatever the job service, the routing server,
    the random numbers and the battery do, the vehicle is in one of the
    four modes with the fields that go with it: its status is
    "available", "busy", "charging" or "maintenance"; it has a job
    exactly when it is busy, and then it is moving towards the pickup or
    the destination; a charging vehicle is moving to the charger or
    standing at it; a vehicle in maintenance is stranded.  The job id of
    the vehicle record itself is nil throughout. *)
Theorem simulation_modes (es : list Tick) (r : Z)
    (id region fleetURL jobURL : string) (lat lng : R) :
  let v := simulationLoop es (NewVehicle r id region fleetURL jobURL lat lng) in
  mode_consistent v
  /\ (Status v = "available" \/ Status v = "busy" \/ Status v = "charging"
      \/ Status v = "maintenance")
  /\ (is_Some (currentJob v) <-> Status v = "busy")
  /\ (Status v = "busy" -> isMoving v = true)
  /\ CurrentJobID v = None.
Proof.
  cbv zeta.
  pose proof (simulationLoop_mode es _ (NewVehicle_mode r id region fleetURL jobURL lat lng))
    as Hm.
  set (v := simulationLoop es _) in *. clearbody v.
  split; [exact Hm |]. split; [exact (mode_statuses v Hm) |].
  split; [| split; [intros Hb; apply (mode_busy v Hm Hb) | apply Hm]].
  split.
  - intros [job Hjob].
    destruct Hm as (_ & [(_ & _ & Hj) | [(Hs & _) | [(_ & Hj & _) | (_ & _ & Hj & _)]]]);
      [| exact Hs | |]; rewrite Hjob in Hj; discriminate.
  - intros Hb. apply (mode_busy v Hm Hb).
Qed.

(** X18. The changes of mode in one tick.  From a consistent mode, one tick
    leads to a consistent mode, and: a vehicle in maintenance is on its
    way to a charger after the tick, with its battery at 20 and the range
    that goes with it; a charging vehicle is still charging or has become
    available with a battery of at least 95, so it is never handed a job
    and never strands; a vehicle is busy after the tick only if it was
    busy or available before; and the job it has after the tick is the
    one it had, or one the job service listed for it as "assigned" while
    it was available. *)
Theorem simulationStep_transitions (e : Tick) (v : Vehicle) :
  mode_consistent v ->
  mode_consistent (simulationStep e v) /\ mode_transition e v (simulationStep e v).
Proof.
  intros Hm. destruct (simulationStep_cases e v Hm) as (Hm' & Hcases).
  split; [exact Hm' |]. unfold mode_transition.
  set (v' := simulationStep e v) in *. clearbody v'.
  destruct Hcases
    as [(Hs & Hj) | [(Hs & Hj) | [(Hs & Hj & Hs') | (Hs & Hj & Hs' & Hp' & Hb' & Hr')]]].
  - split; [intros H; rewrite Hs in H; discriminate |].
    split; [intros H; rewrite Hs in H; discriminate |].
    split; [auto |].
    intros job Hjob. right. split; [exact Hs |].
    destruct Hj as [Hj | (jobs & job' & Hpoll & Hin & Hjs & Hcur)];
      [rewrite Hjob in Hj; discriminate |].
    rewrite Hjob in Hcur. injection Hcur as ->. eauto.
  - split; [intros H; rewrite Hs in H; discriminate |].
    split; [intros H; rewrite Hs in H; discriminate |].
    split; [auto |].
    intros job Hjob. left.
    destruct Hj as [Hj | Hj]; rewrite Hjob in Hj; [auto | discriminate].
  - split; [intros H; rewrite Hs in H; discriminate |].
    split; [intros _; exact Hs' |].
    split.
    + intros Hb. destruct Hs' as [Hs' | [Hs' _]]; rewrite Hb in Hs'; discriminate.
    + intros job Hjob. rewrite Hjob in Hj. discriminate.
  - split; [intros _; auto |].
    split; [intros H; rewrite Hs in H; discriminate |].
    split.
    + intros Hb. rewrite Hb in Hs'. discriminate.
    + intros job Hjob. rewrite Hjob in Hj. discriminate.
Qed.

(** The witness of [simulationStep_transitions]: the first tick of a new
    vehicle, with the job service down. *)
Lemma simulationStep_transitions_witness :
  mode_consistent (NewVehicle 20 "v1" "us-west-2" "http://fleet" "http://jobs" 45.52 (-122.68))
  /\ mode_consistent
       (simulationStep
          (mkTick (Go.Err "connection refused") (Routing.NetworkError "down")
             (Routing.NetworkError "down") (Routing.NetworkError "down")
             0.5 0.25 0.75 None)
          (NewVehicle 20 "v1" "us-west-2" "http://fleet" "http://jobs" 45.52 (-122.68))).
Proof.
  split; [apply NewVehicle_mode |].
  apply (simulationStep_transitions
           (mkTick (Go.Err "connection refused") (Routing.NetworkError "down")
              (Routing.NetworkError "down") (Routing.NetworkError "down")
              0.5 0.25 0.75 None)
           (NewVehicle 20 "v1" "us-west-2" "http://fleet" "http://jobs" 45.52 (-122.68))).
  apply NewVehicle_mode.
Defined.

End ModeFacts.

(** ** Vehicle simulation: charging and polling *)

Section TickFacts.

Import Simulator.

(** One tick of a vehicle standing at the charger. *)
Lemma simulationStep_at_charger (e : Tick) (v : Vehicle) :
  Status v = "charging" -> jobPhase v = "charging" ->
  simulationStep e v
  = if Rlt_dec (BatteryLevel v) 95 then
      set_BatteryRangeKm ((BatteryLevel v + 2) * batteryDrainRate v)
        (set_BatteryLevel (BatteryLevel v + 2) v)
    else set_jobPhase "idle" (set_isMoving false (set_Status "available" v)).
Proof.
  intros Hs Hp.
  assert (Hcheck : checkForJobs (polled e) (replyJob e) v = v).
  { unfold checkForJobs. apply decide_True. left. rewrite Hs. discriminate. }
  assert (Hcharge :
            simulateCharging (DEMO_SPEED e) v
            = if Rlt_dec (BatteryLevel v) 95 then
                set_BatteryRangeKm ((BatteryLevel v + 2) * batteryDrainRate v)
                  (set_BatteryLevel (BatteryLevel v + 2) v)
              else set_jobPhase "idle" (set_isMoving false (set_Status "available" v))).
  { unfold simulateCharging.
    rewrite (decide_False (P := isMoving v = true /\ jobPhase v = "going_to_charge"))
      by (intros [_ H]; rewrite Hp in H; discriminate).
    rewrite (decide_True (P := jobPhase v = "charging")) by exact Hp.
    reflexivity. }
  unfold simulationStep. cbv zeta. rewrite Hcheck.
  rewrite (decide_False (P := Status v = "available")) by (rewrite Hs; discriminate).
  rewrite (decide_False (P := Status v = "busy")) by (rewrite Hs; discriminate).
  rewrite (decide_True (P := Status v = "charging")) by exact Hs.
  rewrite Hcharge.
  destruct (Rlt_dec (BatteryLevel v) 95) as [Hlow | Hfull].
  - destruct (Rle_dec _ 30); [| reflexivity].
    apply decide_False. simpl. rewrite Hs. discriminate.
  - destruct (Rle_dec _ 30) as [Hle | _]; [| reflexivity].
    simpl in Hle. lra.
Qed.

(** X19. Charging ends.  A vehicle standing at the charger gains 2 points of
    battery per tick as long as its level is below 95, its range
    following the level, and turns available at the first tick that
    finds the level at 95 or more: with [k] the number of charging ticks
    needed, after exactly [k + 1] ticks the vehicle is available, idle
    and standing, where it was, with its level raised by [2 * k].  No
    answer of the job service or the routing server and no random number
    changes this. *)
Theorem charging_completes (k : nat) (es : list Tick) (v : Vehicle) :
  Status v = "charging" -> jobPhase v = "charging" -> length es = S k ->
  (forall i, (i < k)%nat -> BatteryLevel v + 2 * INR i < 95) ->
  95 <= BatteryLevel v + 2 * INR k ->
  let v' := simulationLoop es v in
  Status v' = "available" /\ jobPhase v' = "idle" /\ isMoving v' = false
  /\ BatteryLevel v' = BatteryLevel v + 2 * INR k
  /\ ((0 < k)%nat -> BatteryRangeKm v' = BatteryLevel v' * batteryDrainRate v)
  /\ LocationLat v' = LocationLat v /\ LocationLng v' = LocationLng v
  /\ currentJob v' = currentJob v.
Proof.
  revert es v. induction k as [| k IH]; intros es v Hs Hp Hlen Hbelow Hfull.
  - destruct es as [| e [| e' es]]; try discriminate. cbv zeta.
    unfold simulationLoop. simpl fold_left.
    rewrite simulationStep_at_charger by assumption.
    simpl in Hfull.
    destruct (Rlt_dec (BatteryLevel v) 95); [lra |]. simpl.
    split_and!; try reflexivity; try lra. intros H. lia.
  - destruct es as [| e es]; [discriminate |]. cbv zeta.
    unfold simulationLoop. simpl fold_left.
    rewrite simulationStep_at_charger by assumption.
    pose proof (Hbelow 0%nat ltac:(lia)) as H0. simpl in H0.
    destruct (Rlt_dec (BatteryLevel v) 95); [| lra].
    set (v1 := set_BatteryRangeKm _ _).
    destruct (IH es v1) as (Hs' & Hp' & Hmv' & Hb' & Hr' & Hlat' & Hlng' & Hj').
    + exact Hs.
    + exact Hp.
    + simpl in Hlen. lia.
    + intros i Hi. specialize (Hbelow (S i) ltac:(lia)).
      rewrite S_INR in Hbelow. unfold v1. simpl. lra.
    + rewrite S_INR in Hfull. unfold v1. simpl. lra.
    + cbv zeta in *. unfold simulationLoop in *.
      split; [exact Hs' |]. split; [exact Hp' |]. split; [exact Hmv' |].
      split; [rewrite Hb', S_INR; unfold v1; simpl; lra |].
      split.
      * intros _. destruct k as [| k'].
        -- destruct es as [| e1 [| e2 es]]; try discriminate.
           simpl fold_left. rewrite simulationStep_at_charger by assumption.
           simpl in Hfull.
           destruct (Rlt_dec (BatteryLevel v1) 95) as [Hlt | _];
             [unfold v1 in Hlt; simpl in Hlt; lra |].
           unfold v1. simpl. reflexivity.
        -- apply Hr'. lia.
      * split; [exact Hlat' |]. split; [exact Hlng' | exact Hj'].
Qed.


(** The witness of [charging_completes]: from a level of 93, one charging
    tick and one more tick. *)
Lemma charging_completes_witness :
  Status (simulationLoop [offline; offline] at_charger) = "available"
  /\ BatteryLevel (simulationLoop [offline; offline] at_charger)
     = BatteryLevel at_charger + 2 * INR 1.
Proof.
  destruct (charging_completes 1 [offline; offline] at_charger)
    as (Hs & _ & _ & Hb & _).
  - reflexivity.
  - reflexivity.
  - reflexivity.
  - intros i Hi. assert (i = 0%nat) as -> by lia. simpl. lra.
  - simpl. lra.
  - split; [exact Hs | exact Hb].
Defined.

Lemma find_filter {A} (f : A -> bool) (P : A -> Prop) `{!forall x, Decision (P x)}
    (l : list A) :
  find f (filter P l) = find (fun x => bool_decide (P x) && f x) l.
Proof.
  induction l as [| x l IH]; [reflexivity |].
  rewrite filter_cons. simpl.
  destruct (decide (P x)) as [HP | HP].
  - rewrite (bool_decide_eq_true_2 _ HP). simpl. rewrite IH. reflexivity.
  - rewrite (bool_decide_eq_false_2 _ HP). simpl. exact IH.
Qed.

Lemma find_first {A} (f : A -> bool) (l : list A) :
  match find f l with
  | Some x =>
      exists before after, l = before ++ x :: after /\ f x = true
        /\ forall y, y ∈ before -> f y = false
  | None => forall y, y ∈ l -> f y = false
  end.
Proof.
  induction l as [| x l IH]; simpl.
  - intros y Hy. inversion Hy.
  - destruct (f x) eqn:Hfx.
    + exists [], l. split; [reflexivity |]. split; [exact Hfx |].
      intros y Hy. inversion Hy.
    + destruct (find f l) as [z |].
      * destruct IH as (before & after & -> & Hfz & Hbefore).
        exists (x :: before), after. split; [reflexivity |]. split; [exact Hfz |].
        intros y Hy. apply elem_of_cons in Hy as [-> | Hy]; auto.
      * intros y Hy. apply elem_of_cons in Hy as [-> | Hy]; auto.
Qed.

(** X20. Job polling.  The poll leaves the vehicle as it is unless the vehicle
    is available without a job and the job service answered 200 with a
    decodable list; then the vehicle starts the first job of that list
    that is assigned to it and has status "assigned" - it becomes busy
    with that job, on its way to the pickup - and if the list has no such
    job it stays as it is.  A vehicle never starts a job assigned to
    another vehicle, nor one whose status is not "assigned". *)
Theorem job_polling (reply : HTTPReply (list Job)) (route : Routing.OSRMReply)
    (v : Vehicle) :
  let v' := checkForJobs (GetAssignedJobs reply (ID v)) route v in
  (Status v <> "available" \/ currentJob v <> None -> v' = v)
  /\ ((forall allJobs, reply <> Response 200 (Go.Ok allJobs)) -> v' = v)
  /\ (forall allJobs, reply = Response 200 (Go.Ok allJobs) ->
        Status v = "available" -> currentJob v = None ->
        (forall job, job ∈ allJobs -> ~ startable (ID v) job) /\ v' = v
        \/ exists before job after,
             allJobs = before ++ job :: after /\ startable (ID v) job
             /\ (forall other, other ∈ before -> ~ startable (ID v) other)
             /\ v' = startJob route job v
             /\ Status v' = "busy" /\ currentJob v' = Some job
             /\ jobPhase v' = "pickup"
             /\ targetLat v' = jPickupLat job /\ targetLng v' = jPickupLng job).
Proof.
  cbv zeta. unfold checkForJobs. split_and!.
  - intros Hgate. rewrite decide_True by exact Hgate. reflexivity.
  - intros Hbad. case_decide; [reflexivity |].
    destruct reply as [err | status [allJobs | err]]; simpl; try reflexivity.
    + case_decide as Hst; [reflexivity |]. exfalso.
      assert (status = 200%Z) as -> by (destruct (decide (status = 200%Z)); tauto).
      exact (Hbad allJobs eq_refl).
    + case_decide; reflexivity.
  - intros allJobs -> Hav Hjob.
    rewrite decide_False by (intros [H | H]; auto).
    unfold GetAssignedJobs. rewrite decide_False by (intros H; apply H; reflexivity).
    rewrite find_filter.
    pose proof (find_first
                  (fun x => bool_decide (jAssignedVehicleID x = Some (ID v))
                            && bool_decide (jStatus x = "assigned")) allJobs) as Hfind.
    destruct (find _ allJobs) as [job |].
    + right. destruct Hfind as (before & after & -> & Hjobok & Hbefore).
      apply andb_true_iff in Hjobok as [Ha Hs].
      apply bool_decide_eq_true in Ha, Hs.
      exists before, job, after. split; [reflexivity |].
      split; [split; assumption |].
      split.
      * intros other Hin [Ha' Hs']. specialize (Hbefore other Hin).
        rewrite (bool_decide_eq_true_2 _ Ha'), (bool_decide_eq_true_2 _ Hs') in Hbefore.
        discriminate.
      * split; [reflexivity |]. unfold startJob, setRouteTarget. cbv zeta.
        destruct (Routing.GetRoute _ _ _ _ _); simpl; auto 10.
    + left. split; [| reflexivity].
      intros job Hin [Ha Hs]. specialize (Hfind job Hin).
      rewrite (bool_decide_eq_true_2 _ Ha), (bool_decide_eq_true_2 _ Hs) in Hfind.
      discriminate.
Qed.

End TickFacts.

(** ** Registration: fast calls *)

Section FastRegistrationFacts.

Import Registration.

#[local] Open Scope Z_scope.

Lemma backoff_nonneg (k : nat) : 0 <= backoff k.
Proof.
  induction k as [| k IH].
  - vm_compute. discriminate.
  - rewrite backoff_S, nextDelay_min.
    assert (0 <= (backoff k * 3) ÷ 2) by (apply Z.quot_pos; lia).
    unfold maxDelay, Second. lia.
Qed.

Lemma latest_start_mono (a b : nat) :
  (a <= b)%nat -> latest_start a <= latest_start b.
Proof.
  induction 1 as [| b _ IH]; [lia |].
  simpl. pose proof (backoff_nonneg b). unfold call_limit, Second. lia.
Qed.

Lemma latest_start_9 : latest_start 9 + call_limit < deadline.
Proof. vm_compute. reflexivity. Qed.

Lemma retryLoop_fast (calls : nat -> Attempt) (togo attempt : nat)
    (clock : Z) (lastErr : string) (begun naps : list Z) :
  (forall k, 0 <= took (calls k) <= call_limit) ->
  (togo + attempt = maxRetries)%nat -> (1 <= togo)%nat ->
  0 <= clock <= latest_start attempt ->
  let run := retryLoop calls togo attempt clock (backoff attempt) lastErr begun naps in
  (forall n, (attempt <= n < 10)%nat -> outcome (calls n) = None ->
     (forall k, (attempt <= k < n)%nat -> outcome (calls k) <> None) ->
     returned run = None /\ attempts run = S n
     /\ slept run = naps ++ map backoff (seq attempt (n - attempt)))
  /\ ((forall k, (attempt <= k < 10)%nat -> outcome (calls k) <> None) ->
      attempts run = 10%nat
      /\ exists err, outcome (calls 9%nat) = Some err
           /\ returned run
              = Some ("registration failed after 10 attempts: " +:+ err)%string)
  /\ finished run <= latest_start 9 + call_limit.
Proof.
  intros Hfast. revert attempt clock lastErr begun naps.
  induction togo as [| togo IH];
    intros attempt clock lastErr begun naps Hsum Hpos Hclock; [lia |].
  cbv zeta. cbn [retryLoop].
  assert (Hatt : (attempt <= 9)%nat) by (unfold maxRetries in Hsum; lia).
  pose proof (Hfast attempt) as Htook.
  pose proof (latest_start_mono attempt 9 Hatt) as Hmono.
  destruct (outcome (calls attempt)) as [err |] eqn:Hout.
  - match goal with |- context [(attempt =? ?n)%nat] =>
      destruct (Nat.eqb_spec attempt n) as [Heq | Hne] end.
    + cbn [attempts slept returned finished].
      unfold maxRetries in Heq. simpl in Heq. subst attempt.
      split; [| split; [| lia]].
      * intros n Hn Hnone _. assert (n = 9%nat) as -> by lia. congruence.
      * intros _. split; [reflexivity |]. exists err. auto.
    + unfold maxRetries in Hne. simpl in Hne.
      pose proof (latest_start_mono (S attempt) 9 ltac:(lia)) as Hnext.
      pose proof latest_start_9 as H9. pose proof (backoff_nonneg attempt) as Hb.
      assert (Hlim : 0 <= call_limit) by (vm_compute; discriminate).
      change (latest_start (S attempt))
        with (latest_start attempt + call_limit + backoff attempt) in Hnext.
      destruct (Z.ltb_spec (clock + took (calls attempt) + backoff attempt) deadline)
        as [_ | Hlate]; [| lia].
      rewrite <- backoff_S.
      destruct (IH (S attempt) (clock + took (calls attempt) + backoff attempt) err
                  (begun ++ [clock]) (naps ++ [backoff attempt]))
        as (Hfirst & Hnone & Hfin).
      * lia.
      * unfold maxRetries in Hsum. lia.
      * change (latest_start (S attempt))
          with (latest_start attempt + call_limit + backoff attempt). lia.
      * cbv zeta in Hfirst, Hnone, Hfin. split; [| split; [| exact Hfin]].
        -- intros n Hn Hok Hbefore.
           assert (Hn' : (S attempt <= n < 10)%nat).
           { destruct (Nat.eq_dec n attempt) as [-> | ?]; [congruence | lia]. }
           destruct (Hfirst n Hn' Hok) as (Hr & Ha & Hs).
           { intros k Hk. apply Hbefore. lia. }
           split; [exact Hr |]. split; [exact Ha |].
           rewrite Hs, <- app_assoc. f_equal.
           replace (n - attempt)%nat with (S (n - S attempt)) by lia.
           reflexivity.
        -- intros Hall. apply Hnone. intros k Hk. apply Hall. lia.
  - cbn [attempts slept returned finished].
    split; [| split; [| lia]].
    + intros n Hn Hok Hbefore.
      destruct (Nat.eq_dec n attempt) as [-> | Hne].
      * rewrite Nat.sub_diag. simpl. rewrite app_nil_r. auto.
      * exfalso. apply (Hbefore attempt); [lia | exact Hout].
    + intros Hall. exfalso. apply (Hall attempt); [lia | exact Hout].
Qed.

(** X22. Registration with a fleet service that answers fast.  When no call
    of [registerWithFleet] takes longer than 22 seconds, the five-minute
    deadline never cuts the loop short: the loop returns before it, it
    returns nil as soon as an attempt succeeds - after the waits that
    precede that attempt - and it fails only after all ten attempts have
    failed, with the error of the tenth.  So registration succeeds
    exactly when one of the first ten attempts does. *)
Theorem registration_completes (calls : nat -> Attempt) :
  (forall k, 0 <= took (calls k) <= 22 * Second) ->
  let run := registerWithFleetRetry calls in
  (forall n, (n < 10)%nat -> outcome (calls n) = None ->
     (forall k, (k < n)%nat -> outcome (calls k) <> None) ->
     returned run = None /\ attempts run = S n
     /\ slept run = map backoff (seq 0 n) /\ Start calls = None)
  /\ ((forall k, (k < 10)%nat -> outcome (calls k) <> None) ->
      attempts run = 10%nat
      /\ exists err, outcome (calls 9%nat) = Some err
           /\ returned run
              = Some ("registration failed after 10 attempts: " +:+ err)%string)
  /\ finished run < 5 * Minute.
Proof.
  intros Hfast. cbv zeta.
  destruct (retryLoop_fast calls maxRetries 0 0 "<nil>"%string [] [] Hfast)
    as (Hfirst & Hnone & Hfin);
    [reflexivity | unfold maxRetries; lia | simpl; lia |].
  cbv zeta in Hfirst, Hnone, Hfin.
  change (retryLoop calls maxRetries 0 0 (backoff 0) "<nil>"%string [] [])
    with (registerWithFleetRetry calls) in *.
  split; [| split].
  - intros n Hn Hok Hbefore.
    destruct (Hfirst n) as (Hr & Ha & Hs); [lia | exact Hok | |].
    + intros k Hk. apply Hbefore. lia.
    + rewrite Nat.sub_0_r in Hs. simpl in Hs.
      split; [exact Hr |]. split; [exact Ha |]. split; [exact Hs |].
      unfold Start. rewrite Hr. reflexivity.
  - intros Hall. apply Hnone. intros k Hk. apply Hall. lia.
  - pose proof latest_start_9 as H9. fold deadline. lia.
Qed.

(** The witness of [registration_completes]: three refusals, then
    success at the fourth attempt. *)
Lemma registration_completes_witness :
  returned (registerWithFleetRetry refused_thrice) = None
  /\ attempts (registerWithFleetRetry refused_thrice) = 4%nat.
Proof.
  destruct (registration_completes refused_thrice) as (Hfirst & _).
  - intros k. unfold refused_thrice, Second. simpl. lia.
  - destruct (Hfirst 3%nat) as (Hr & Ha & _).
    + lia.
    + reflexivity.
    + intros k Hk. destruct k as [| [| [| k]]]; simpl; try discriminate. lia.
    + split; [exact Hr | exact Ha].
Defined.

End FastRegistrationFacts.

(** ** Fleet directory: a report after an assignment *)

Section ReportFacts.

Import FleetStorage FleetSvc.

Lemma FindNearestAvailableVehicle_qualifies range_of
    (Hrange : range_of_spec range_of) (m : gmap string Vehicle) (region : string)
    (pickupLat pickupLng tripDistanceKm : R) (best : Vehicle) :
  FindNearestAvailableVehicle range_of m region pickupLat pickupLng tripDistanceKm
  = Go.Ok best ->
  stored m best /\ qualifies region pickupLat pickupLng tripDistanceKm best.
Proof.
  unfold FindNearestAvailableVehicle, GetVehiclesByRegionAndStatus.
  set (cands := filter _ (range_of m)).
  pose proof (nearest_inv_fold pickupLat pickupLng tripDistanceKm cands []
                (None, Go.MaxFloat64)
                (nearest_inv_init pickupLat pickupLng tripDistanceKm)) as Hinv.
  rewrite app_nil_l in Hinv.
  destruct (fold_left _ cands _) as [[x |] d]; unfold nearest_inv in Hinv;
    simpl in Hinv; [| discriminate].
  intros [= ->]. destruct Hinv as (_ & Hin & Hen & _).
  apply (considered_iff range_of Hrange) in Hin as (Hst & Hreg & Hav).
  split; [exact Hst |]. repeat split; assumption.
Qed.

Lemma FindNearestAvailableVehicle_complete range_of
    (Hrange : range_of_spec range_of) (m : gmap string Vehicle) (region : string)
    (pickupLat pickupLng tripDistanceKm : R) (w : Vehicle) :
  stored m w -> qualifies region pickupLat pickupLng tripDistanceKm w ->
  exists best,
    FindNearestAvailableVehicle range_of m region pickupLat pickupLng tripDistanceKm
    = Go.Ok best
    /\ distanceToPickup pickupLat pickupLng best
       <= distanceToPickup pickupLat pickupLng w.
Proof.
  intros Hst (Hreg & Hav & Hen).
  unfold FindNearestAvailableVehicle, GetVehiclesByRegionAndStatus.
  set (cands := filter _ (range_of m)).
  assert (Hin : w ∈ cands).
  { apply (considered_iff range_of Hrange). repeat split; assumption. }
  pose proof (nearest_inv_fold pickupLat pickupLng tripDistanceKm cands []
                (None, Go.MaxFloat64)
                (nearest_inv_init pickupLat pickupLng tripDistanceKm)) as Hinv.
  rewrite app_nil_l in Hinv.
  destruct (fold_left _ cands _) as [[x |] d]; unfold nearest_inv in Hinv;
    simpl in Hinv.
  - destruct Hinv as (_ & _ & _ & Hmin). exists x. split; [reflexivity |].
    apply Hmin; assumption.
  - destruct Hinv as (_ & Hnone). exfalso. exact (Hnone w Hin Hen).
Qed.

(** X8. A report can reopen an assigned vehicle.  The dispatcher looks at
    the status of a vehicle only, never at its job id, and a location
    report overwrites the status with whatever the vehicle says.  So when
    the vehicle the dispatcher found has been assigned a job and then
    reports "available" from where it stood - as a simulated vehicle does
    until it has polled the job - the directory holds it as available
    while it still carries the job id, and the same search finds a
    vehicle again, no farther from the pickup than that one. *)
Theorem report_reopens_vehicle range_of (t1 t2 : Z) (m : gmap string Vehicle)
    (region jobID : string) (pickupLat pickupLng tripDistanceKm : R) (v : Vehicle) :
  range_of_spec range_of -> keyed m ->
  FindNearestAvailableVehicle range_of m region pickupLat pickupLng tripDistanceKm
  = Go.Ok v ->
  let m1 := (AssignJob t1 m (ID v) jobID).1 in
  let m2 := (UpdateVehicleLocationAndStatus t2 m1 (ID v)
               (LocationLat v) (LocationLng v) "available").1 in
  exists v',
    m2 !! ID v = Some v'
    /\ Status v' = "available" /\ CurrentJobID v' = Some jobID
    /\ exists w,
         FindNearestAvailableVehicle range_of m2 region
           pickupLat pickupLng tripDistanceKm = Go.Ok w
         /\ distanceToPickup pickupLat pickupLng w
            <= distanceToPickup pickupLat pickupLng v'.
Proof.
  intros Hrange Hkeyed Hfind. cbv zeta.
  destruct (FindNearestAvailableVehicle_qualifies range_of Hrange _ _ _ _ _ _ Hfind)
    as ([id Hid] & Hreg & Hav & Hen).
  pose proof (Hkeyed id v Hid) as Hidv. subst id.
  unfold AssignJob, UpdateVehicleStatus. rewrite Hid. simpl.
  unfold UpdateVehicleLocationAndStatus. rewrite lookup_insert_eq. simpl.
  eexists. rewrite lookup_insert_eq. split; [reflexivity |].
  split; [reflexivity |]. split; [reflexivity |].
  apply (FindNearestAvailableVehicle_complete range_of Hrange).
  - exists (ID v). apply lookup_insert_eq.
  - split; [exact Hreg |]. split; [reflexivity |]. exact Hen.
Qed.

(** The witness of [report_reopens_vehicle]: the fleet of one vehicle,
    found at its own position, assigned, and reporting. *)
Lemma report_reopens_vehicle_witness :
  exists v',
    (UpdateVehicleLocationAndStatus 2 (AssignJob 1 fleet1 (ID v1) "ride-1").1 (ID v1)
       (LocationLat v1) (LocationLng v1) "available").1 !! ID v1 = Some v'
    /\ Status v' = "available" /\ CurrentJobID v' = Some "ride-1"%string.
Proof.
  destruct (report_reopens_vehicle listing_order 1 2 fleet1 "us-west-2" "ride-1"
              37.7749 (-122.4194) 50 v1 listing_order_spec keyed_fleet1
              FindNearestAvailableVehicle_at_vehicle)
    as (v' & Hv' & Hs & Hj & _).
  exists v'. split; [exact Hv' |]. split; [exact Hs | exact Hj].
Defined.

End ReportFacts.

(** ** Vehicle simulation: direct movement *)

Section MovementFacts.

Import Simulator.

Lemma step_distance (tx ty x y s d : R) :
  d = sqrt ((tx - x) * (tx - x) + (ty - y) * (ty - y)) -> 0 < d ->
  sqrt ((tx - (x + (tx - x) * (s / d))) * (tx - (x + (tx - x) * (s / d)))
        + (ty - (y + (ty - y) * (s / d))) * (ty - (y + (ty - y) * (s / d))))
  = Rabs (d - s).
Proof.
  intros Hd Hpos.
  assert (Hq : 0 <= (tx - x) * (tx - x) + (ty - y) * (ty - y)).
  { pose proof (Rle_0_sqr (tx - x)) as Hx. pose proof (Rle_0_sqr (ty - y)) as Hy.
    unfold Rsqr in Hx, Hy. lra. }
  assert (Hdd : d * d = (tx - x) * (tx - x) + (ty - y) * (ty - y)).
  { rewrite Hd. apply sqrt_def. exact Hq. }
  replace ((tx - (x + (tx - x) * (s / d))) * (tx - (x + (tx - x) * (s / d)))
           + (ty - (y + (ty - y) * (s / d))) * (ty - (y + (ty - y) * (s / d))))
    with (Rsqr (d - s)).
  - apply sqrt_Rsqr_abs.
  - unfold Rsqr.
    replace ((tx - (x + (tx - x) * (s / d))) * (tx - (x + (tx - x) * (s / d)))
             + (ty - (y + (ty - y) * (s / d))) * (ty - (y + (ty - y) * (s / d))))
      with ((1 - s / d) * (1 - s / d)
            * ((tx - x) * (tx - x) + (ty - y) * (ty - y))) by ring.
    rewrite <- Hdd. field. lra.
Qed.

Lemma handleBatteryDepletion_stays v :
  ~ (Status v = "charging" /\ jobPhase v = "going_to_charge") ->
  LocationLat (handleBatteryDepletion v) = LocationLat v
  /\ LocationLng (handleBatteryDepletion v) = LocationLng v
  /\ targetLat (handleBatteryDepletion v) = targetLat v
  /\ targetLng (handleBatteryDepletion v) = targetLng v.
Proof.
  intros Hnot. unfold handleBatteryDepletion.
  rewrite decide_False by exact Hnot. cbv zeta.
  destruct (currentJob _); repeat split.
Qed.

Lemma drainBattery_stays km v :
  ~ (Status v = "charging" /\ jobPhase v = "going_to_charge") ->
  LocationLat (drainBattery km v) = LocationLat v
  /\ LocationLng (drainBattery km v) = LocationLng v
  /\ targetLat (drainBattery km v) = targetLat v
  /\ targetLng (drainBattery km v) = targetLng v.
Proof.
  intros Hnot. unfold drainBattery.
  destruct (Rle_dec km 0); [repeat split |]. cbv zeta.
  destruct (Req_dec_T _ 0); [| repeat split].
  match goal with |- context [handleBatteryDepletion ?w] =>
    destruct (handleBatteryDepletion_stays w) as (-> & -> & -> & ->) end;
    [exact Hnot | repeat split].
Qed.

(** X21. Direct movement closes in on the target by the speed.  In the real
    arithmetic of the model, a step of [moveTowardsTarget] by a vehicle
    with charge left, at a distance [d] of at least 0.001 degrees from
    its target, leaves the target where it is and the vehicle at the
    distance [|d - speed|] from it: nearer by exactly the speed when the
    speed does not exceed [d], and past the target when it does.  (A
    vehicle on its way to a charger is left out: when its battery runs
    out in the step, it is put at a charger instead.) *)
Theorem moveTowardsTarget_closes_in (DEMO_SPEED : option R) (v : Vehicle) :
  0 < BatteryLevel v -> 0.001 <= distanceToTarget v ->
  ~ (Status v = "charging" /\ jobPhase v = "going_to_charge") ->
  let v' := moveTowardsTarget DEMO_SPEED v in
  targetLat v' = targetLat v /\ targetLng v' = targetLng v
  /\ distanceToTarget v'
     = Rabs (distanceToTarget v - getMovementSpeed DEMO_SPEED)
  /\ (0 <= getMovementSpeed DEMO_SPEED <= distanceToTarget v ->
      distanceToTarget v' = distanceToTarget v - getMovementSpeed DEMO_SPEED)
  /\ (DEMO_SPEED = None -> distanceToTarget v' = distanceToTarget v - 0.00035).
Proof.
  intros Hbat Hfar Hnot. cbv zeta.
  assert (Hmain : targetLat (moveTowardsTarget DEMO_SPEED v) = targetLat v
                  /\ targetLng (moveTowardsTarget DEMO_SPEED v) = targetLng v
                  /\ distanceToTarget (moveTowardsTarget DEMO_SPEED v)
                     = Rabs (distanceToTarget v - getMovementSpeed DEMO_SPEED)).
  { unfold moveTowardsTarget.
    destruct (Rle_dec (BatteryLevel v) 0); [lra |]. cbv zeta.
    destruct (Rlt_dec (distanceToTarget v) 0.001); [lra |].
    match goal with |- context [drainBattery ?km ?w] =>
      destruct (drainBattery_stays km w Hnot) as (Hlat & Hlng & Htlat & Htlng);
      set (v' := drainBattery km w) in *; clearbody v'
    end.
    simpl in Hlat, Hlng, Htlat, Htlng.
    split; [exact Htlat |]. split; [exact Htlng |].
    unfold distanceToTarget at 1. cbv zeta.
    rewrite Hlat, Hlng, Htlat, Htlng.
    apply step_distance; [reflexivity | lra]. }
  destruct Hmain as (Htlat & Htlng & Hdist).
  split; [exact Htlat |]. split; [exact Htlng |]. split; [exact Hdist |].
  split.
  - intros Hs. rewrite Hdist. apply Rabs_pos_eq. lra.
  - intros ->. rewrite Hdist. simpl. apply Rabs_pos_eq. lra.
Qed.

(** The witness of [moveTowardsTarget_closes_in]: a vehicle idling
    towards a target 0.01 degrees away, at the default speed. *)
Lemma moveTowardsTarget_closes_in_witness :
  distanceToTarget (moveTowardsTarget None strolling)
  = distanceToTarget strolling - 0.00035.
Proof.
  assert (Hd : distanceToTarget strolling = 0.01).
  { unfold distanceToTarget, strolling. simpl.
    replace ((45.53 - 45.52) * (45.53 - 45.52)
             + (-122.68 - -122.68) * (-122.68 - -122.68))
      with (Rsqr 0.01) by (unfold Rsqr; lra).
    apply sqrt_Rsqr. lra. }
  destruct (moveTowardsTarget_closes_in None strolling) as (_ & _ & _ & _ & Hdef).
  - simpl. lra.
  - rewrite Hd. lra.
  - intros [Hs _]. discriminate.
  - apply Hdef. reflexivity.
Defined.

End MovementFacts.
